(** * Synthetic telemetry generator and ridge trainers: a shallow embedding

    The three scripts of [apps/backend] are embedded here:
    - [ai_generate.py]  : customer population and 15-minute telemetry simulation,
    - [ai_train.py]     : ridge model predicting the next 15-minute reading,
    - [ai_power_train.py]: ridge model recommending a contracted power.

    Numbers.  A Python [float] is idealised as a real number ([R]): every
    formula is the one of the source, evaluated exactly.  The functions
    whose documented behaviour is a numerical value, [target_ideal_kva]
    and [standardize], are embedded a second time with the rounding of
    every float operation written out (module [Rounded]).  Overflow,
    infinities and NaN are outside the model.  Python [int]s that are
    only counted or compared are [nat] or [Z].

    Effects.  Exceptions are an explicit [result]; the pseudo-random
    generator is an explicit state threaded through every draw; the
    artifact file is an explicit [option] cell threaded through [main]. *)

From Stdlib Require Import Reals Lra Lia ZArith Bool String DecimalString Permutation List.
Import ListNotations.

(* ================================================================== *)
(** * Part I. Definitions                                              *)
(* ================================================================== *)

(** ** Numbers as the scripts use them *)

Module Num.
Local Open Scope R_scope.

(** Python's two-argument [max(a, b)]: the first argument unless the
    second is strictly larger. *)
Definition py_max (a b : R) : R := if Rgt_dec b a then b else a.

(** Python's two-argument [min(a, b)]: the first argument unless the
    second is strictly smaller. *)
Definition py_min (a b : R) : R := if Rlt_dec b a then b else a.

(** [math.ceil]: the least integer not below [x]. [up x] is the integer
    with [x < up x <= x + 1], so the ceiling is [1 - up (- x)]. *)
Definition ceil (x : R) : Z := (1 - up (- x))%Z.

(** The builtin [sum]: start from 0 and add from the left. *)
Definition sum (l : list R) : R := fold_left Rplus l 0.

(** [max(1, n - 1)] on a length. *)
Definition max1_pred (n : nat) : nat := Nat.max 1 (n - 1).

End Num.

(** ** Floating-point rounding *)

(** A Python [float] is a binary64 number.  Every arithmetic operation
    on floats, every conversion of a decimal literal and [math.sqrt]
    return the exact result rounded to the nearest float; comparisons,
    [min], [max], [abs] and [math.ceil] are exact.  A rounding is a
    function [fl] on the reals; [nearest] is what rounding to the nearest
    binary64 number guarantees as long as nothing overflows: a relative
    error of at most [2^-53], or an absolute error of at most [2^-1075]
    in the subnormal range. *)
Module Rounding.
Local Open Scope R_scope.

Definition unit_roundoff : R := / 2 ^ 53.
Definition underflow_unit : R := / 2 ^ 1075.

Definition nearest (fl : R -> R) : Prop :=
  forall x : R, Rabs (fl x - x) <= unit_roundoff * Rabs x + underflow_unit.

(** Arithmetic without rounding error, and a rounding that overshoots
    every result by a relative [1e-17]. *)
Definition exact : R -> R := fun x => x.
Definition skewed : R -> R := fun x => x * (1 + 1e-17).

End Rounding.

(** ** Exceptions *)

Inductive error : Type :=
| SingularMatrix                (* ValueError("Matriz singular ou mal condicionada") *)
| ZipLengthMismatch             (* ValueError raised by zip(..., strict=True) *)
| IndexOutOfRange               (* IndexError *)
| ZeroDivision                  (* ZeroDivisionError *)
| SystemExit (msg : string).    (* raise SystemExit(msg) *)

Inductive result (A : Type) : Type :=
| Ok (a : A)
| Raise (e : error).
Arguments Ok {A} a.
Arguments Raise {A} e.

Definition bind {A B : Type} (r : result A) (k : A -> result B) : result B :=
  match r with
  | Ok a => k a
  | Raise e => Raise e
  end.

Declare Scope result_scope.
Delimit Scope result_scope with result.
Notation "x <- r ;; k" := (bind r (fun x => k))
  (at level 61, r at next level, right associativity) : result_scope.
Notation "' pat <- r ;; k" := (bind r (fun pat => k))
  (at level 61, pat pattern, r at next level, right associativity) : result_scope.

(** [foldM]: a [for] loop over [l] that updates a state and may raise. *)
Fixpoint foldM {A S : Type} (f : S -> A -> result S) (l : list A) (s : S) : result S :=
  match l with
  | [] => Ok s
  | a :: l' =>
      match f s a with
      | Ok s' => foldM f l' s'
      | Raise e => Raise e
      end
  end.

(** [mapM]: a list comprehension whose body may raise; the first failure,
    left to right, is the one that propagates. *)
Fixpoint mapM {A B : Type} (f : A -> result B) (l : list A) : result (list B) :=
  match l with
  | [] => Ok []
  | a :: l' =>
      match f a with
      | Raise e => Raise e
      | Ok b =>
          match mapM f l' with
          | Raise e => Raise e
          | Ok bs => Ok (b :: bs)
          end
      end
  end.

(** [zip(a, b, strict=True)] consumed to the end. *)
Fixpoint zip_strict {A B : Type} (a : list A) (b : list B) : result (list (A * B)) :=
  match a, b with
  | [], [] => Ok []
  | x :: a', y :: b' =>
      match zip_strict a' b' with
      | Ok ps => Ok ((x, y) :: ps)
      | Raise e => Raise e
      end
  | _, _ => Raise ZipLengthMismatch
  end.

(** ** Timestamps *)

(** A [datetime] in UTC, at minute resolution: the number of minutes since
    1970-01-01T00:00Z.  The accessors are the ones the scripts read:
    [ts.hour], [ts.minute], [ts.weekday()] and [ts.timetuple().tm_yday]. *)
Module Calendar.
Local Open Scope Z_scope.

Definition datetime : Type := Z.

Definition days_since_epoch (ts : datetime) : Z := ts / 1440.
Definition hour (ts : datetime) : Z := (ts mod 1440) / 60.
Definition minute (ts : datetime) : Z := ts mod 60.

(** Monday is 0; 1970-01-01 was a Thursday. *)
Definition weekday (ts : datetime) : Z := (days_since_epoch ts + 3) mod 7.

Definition is_leap (y : Z) : bool :=
  (y mod 4 =? 0) && (negb (y mod 100 =? 0) || (y mod 400 =? 0)).

(** Day of the year, 1-based, through the proleptic Gregorian calendar
    counted in 400-year eras that start on March 1st. *)
Definition tm_yday (ts : datetime) : Z :=
  let z := days_since_epoch ts + 719468 in
  let era := z / 146097 in
  let doe := z mod 146097 in
  let yoe := (doe - doe / 1460 + doe / 36524 - doe / 146096) / 365 in
  let y := yoe + era * 400 in
  let doy := doe - (365 * yoe + yoe / 4 - yoe / 100) in
  if 306 <=? doy then doy - 305
  else doy + 60 + (if is_leap y then 1 else 0).

(** [ts + dt.timedelta(minutes=m)] *)
Definition add_minutes (ts : datetime) (m : Z) : datetime := ts + m.

End Calendar.

(** ** Pseudo-random generators *)

(** The part of [random.Random] the scripts call.  A generator is a state;
    every draw returns the value and the next state. *)
Class RandomGen (G : Type) : Type := {
  from_seed : Z -> G;                      (* random.Random(seed) *)
  random : G -> R * G;                     (* rng.random() *)
  gauss : R -> R -> G -> R * G;            (* rng.gauss(mu, sigma) *)
  shuffle : G -> list nat -> list nat * G  (* rng.shuffle(idx), on a copy *)
}.

(** [rng.uniform(a, b)] is [a + (b - a) * self.random()]. *)
Definition uniform {G : Type} `{RandomGen G} (a b : R) (g : G) : R * G :=
  let (u, g') := random g in ((a + (b - a) * u)%R, g').

(** The library's promises about the draws: [random()] lies in [0, 1) and
    [shuffle] permutes. *)
Definition unit_draws (G : Type) `{RandomGen G} : Prop :=
  forall g : G, (0 <= fst (random g) < 1)%R.

Definition permuting_shuffle (G : Type) `{RandomGen G} : Prop :=
  forall (g : G) (l : list nat), Permutation l (fst (shuffle g l)).

(** A small deterministic generator used to run the definitions: the
    state is a counter, the draws cycle through fixed tables. *)
Definition counter_random (n : nat) : R * nat :=
  ((INR (n mod 10) / 10)%R, S n).

Definition counter_gauss (mu sigma : R) (n : nat) : R * nat :=
  ((mu + sigma * ((INR (n mod 5) - 2) / 2))%R, S n).

Definition counter_shuffle (n : nat) (l : list nat) : list nat * nat :=
  (rev l, S n).

#[export] Instance counter_gen : RandomGen nat := {
  from_seed := fun seed => Z.to_nat seed;
  random := counter_random;
  gauss := counter_gauss;
  shuffle := counter_shuffle
}.

(** ** ai_generate.py *)

Module Generate.
Local Open Scope R_scope.
Local Open Scope string_scope.

Definition RATE_EUR_PER_KWH : R := 0.20.
Definition INTERVAL_MINUTES : Z := 15.
Definition INTERVAL_HOURS : R := IZR INTERVAL_MINUTES / 60.

Record Customer : Type := {
  id : string;
  name : string;
  segment : string;
  city : string;
  contracted_power_kva : R;
  tariff : string;
  utility : string;
  price_eur_per_kwh : R;
  fixed_daily_fee_eur : R;
  has_smart_meter : Z;
  home_area_m2 : R;
  household_size : Z;
  locality_type : string;
  dwelling_type : string;
  build_year_band : string;
  heating_sources : string;
  has_solar : Z;
  ev_count : Z;
  alert_sensitivity : string;
  main_appliances : string
}.

(** The draws of [create_customers] that the properties below refer to:
    the contracted power is chosen in a list that depends on the segment,
    and the unit price is a clamped Gaussian. *)
Definition contracted_choices (seg : string) : list R :=
  if String.eqb seg "residential" then [3.45; 4.6; 5.75; 6.9; 10.35]
  else if String.eqb seg "sme" then [10.35; 13.8; 17.25]
  else [17.25; 20.7; 27.6].

Definition draw_price {G : Type} `{RandomGen G} (g : G) : R * G :=
  let (p, g') := gauss 0.20 0.03 g in
  (Num.py_max 0.08 (Num.py_min 0.45 p), g').

(** A profile as [create_customers] builds it, as far as the contracted
    power and the unit price go. *)
Definition created_profile (c : Customer) : Prop :=
  In (contracted_power_kva c) (contracted_choices (segment c))
  /\ 0.08 <= price_eur_per_kwh c <= 0.45.

Definition coastal (city : string) : bool :=
  String.eqb city "Porto" || String.eqb city "Matosinhos"
  || String.eqb city "Vila Nova de Gaia" || String.eqb city "Aveiro".

Definition seasonal_temperature (ts : Calendar.datetime) (city : string) : R :=
  let day_of_year := Calendar.tm_yday ts in
  let base := 16 + 7 * sin (2 * PI * (IZR day_of_year - 170) / 365) in
  let coast_bias := if coastal city then -1 else 0 in
  base + coast_bias.

(** Truth value of a float and of an int. *)
Definition truthy (x : R) : bool := if Req_dec_T x 0 then false else true.
Definition truthy_int (z : Z) : bool := negb (z =? 0)%Z.

Definition Rleb (x y : R) : bool := if Rle_dec x y then true else false.
Definition Rltb (x y : R) : bool := if Rlt_dec x y then true else false.

(** The instantaneous load of the segment, before scaling. *)
Definition segment_load (seg : string) (hour is_weekend : R) : R :=
  if String.eqb seg "residential" then
    let base := 180 in
    let morning := 220 * exp (- ((hour - 7.5) ^ 2) / 5.5) in
    let evening := 380 * exp (- ((hour - 20.5) ^ 2) / 7.0) in
    let weekend_boost := if truthy is_weekend then 1.15 else 1.0 in
    (base + morning + evening) * weekend_boost
  else if String.eqb seg "sme" then
    let base := 420 in
    let business := 900 * exp (- ((hour - 13.0) ^ 2) / 18.0) in
    let weekend_penalty := if truthy is_weekend then 0.55 else 1.0 in
    (base + business) * weekend_penalty
  else
    let base := 1500 in
    let shift := 1200 * exp (- ((hour - 11.0) ^ 2) / 26.0) in
    base + shift.

Section Simulation.
Context {G : Type} `{RandomGen G}.

(** [simulate_watts]: returns [(watts, temp_c, euros)] and the generator
    after the draws. *)
Definition simulate_watts (ts : Calendar.datetime) (customer : Customer)
    (last_watts : option R) (rng : G) : (R * R * R) * G :=
  let hour := IZR (Calendar.hour ts) + IZR (Calendar.minute ts) / 60 in
  let dow := Calendar.weekday ts in
  let is_weekend := if (5 <=? dow)%Z then 1 else 0 in
  let (noise_t, rng1) := gauss 0 1.2 rng in
  let temp_c := seasonal_temperature ts (city customer) + noise_t in
  let load := segment_load (segment customer) hour is_weekend in
  (* area and household adjustment *)
  let area_factor := 1 + (home_area_m2 customer - 80) / 420 in
  let area_factor := Num.py_max 0.7 (Num.py_min 2.2 area_factor) in
  let household_factor := 1 + (IZR (household_size customer) - 2) * 0.08 in
  let household_factor := Num.py_max 0.75 (Num.py_min 2.0 household_factor) in
  let load := load * area_factor * household_factor in
  (* heating and cooling *)
  let comfort := 19 in
  let temp_effect :=
    18 * Num.py_max 0 (comfort - temp_c) + 14 * Num.py_max 0 (temp_c - 25) in
  (* solar *)
  let load :=
    if truthy_int (has_solar customer) && (Rleb 10 hour && Rleb hour 16) then
      let solar_cut := 0.10 + 0.18 * exp (- ((hour - 13.0) ^ 2) / 4.5) in
      load * (1 - solar_cut)
    else load in
  (* electric vehicle: the draw happens only when the guards before it hold *)
  let '(load, rng2) :=
    if (0 <? ev_count customer)%Z && (Rleb 0 hour && Rleb hour 6) then
      let (u, rng') := random rng1 in
      if Rltb u 0.10 then (load + 900 * IZR (ev_count customer), rng')
      else (load, rng')
    else (load, rng1) in
  (* contracted power cap *)
  let contracted_watts := contracted_power_kva customer * 1000 in
  let cap := contracted_watts * 0.92 in
  let last_watts := match last_watts with None => load | Some w => w end in
  let (noise, rng3) := gauss 0 (Num.py_max 12 (0.03 * load)) rng2 in
  let watts := 0.70 * load + 0.25 * last_watts + 0.05 * temp_effect + noise in
  let watts := Num.py_max 40 (Num.py_min watts cap) in
  (* occasional spikes *)
  let (u_spike, rng4) := random rng3 in
  let '(watts, rng5) :=
    if Rltb u_spike
         (if String.eqb (segment customer) "residential" then 0.004 else 0.002)
    then
      let (burst, rng') := uniform 800 2200 rng4 in
      (Num.py_min cap (watts + burst), rng')
    else (watts, rng4) in
  let euros := (watts / 1000) * RATE_EUR_PER_KWH * INTERVAL_HOURS in
  ((watts, temp_c, euros), rng5).

(** The components of what [simulate_watts] returns. *)
Definition watts_of (r : (R * R * R) * G) : R := fst (fst (fst r)).
Definition temp_of (r : (R * R * R) * G) : R := snd (fst (fst r)).
Definition euros_of (r : (R * R * R) * G) : R := snd (fst r).

(** A row of [customer_telemetry_15m]; the table is a list in insertion
    order and is only ever appended to. *)
Record Reading : Type := {
  customer_id : string;
  ts : Calendar.datetime;
  watts : R;
  euros : R;
  temp_c : R;
  is_estimated : Z
}.

(** The row that the query of [latest_watts_by_customer] keeps for one
    customer: the one with the greatest timestamp (the last inserted one
    among equals). *)
Definition latest_reading (conn : list Reading) (cid : string) : option Reading :=
  fold_left
    (fun best r =>
       if String.eqb (customer_id r) cid then
         match best with
         | None => Some r
         | Some b => if (ts b <=? ts r)%Z then Some r else Some b
         end
       else best)
    conn None.

(** A [dict] from customer id to watts, with [get] and item assignment. *)
Definition dict : Type := string -> option R.
Definition dict_get (d : dict) (k : string) : option R := d k.
Definition dict_set (d : dict) (k : string) (v : R) : dict :=
  fun k' => if String.eqb k' k then Some v else d k'.

Definition latest_watts_by_customer (conn : list Reading) : dict :=
  fun cid => option_map watts (latest_reading conn cid).

(** The inner loop of [generate_steps]: one reading per customer at [ts0]. *)
Fixpoint simulate_tick (ts0 : Calendar.datetime) (customers : list Customer)
    (last_by_customer : dict) (rng : G) : list Reading * dict * G :=
  match customers with
  | [] => ([], last_by_customer, rng)
  | c :: rest =>
      let last_watts := dict_get last_by_customer (id c) in
      let '((w, t, e), rng1) := simulate_watts ts0 c last_watts rng in
      let last1 := dict_set last_by_customer (id c) w in
      let '(rows, last2, rng2) := simulate_tick ts0 rest last1 rng1 in
      ({| customer_id := id c; ts := ts0; watts := w; euros := e;
          temp_c := t; is_estimated := 0 |} :: rows, last2, rng2)
  end.

(** The outer loop: [steps] ticks, each appended to the table as a batch. *)
Fixpoint run_steps (steps : nat) (ts0 : Calendar.datetime)
    (customers : list Customer) (last_by_customer : dict) (rng : G)
    (conn : list Reading) : list Reading :=
  match steps with
  | O => conn
  | S k =>
      let '(rows, last1, rng1) := simulate_tick ts0 customers last_by_customer rng in
      run_steps k (Calendar.add_minutes ts0 INTERVAL_MINUTES) customers
        last1 rng1 (conn ++ rows)
  end.

Definition generate_steps (conn : list Reading) (customers : list Customer)
    (start_ts : Calendar.datetime) (steps : nat) (seed : Z) : list Reading :=
  run_steps steps start_ts customers (latest_watts_by_customer conn)
    (from_seed seed) conn.

End Simulation.

End Generate.

(** ** ai_generate.py: the clock of the generator *)

(** An aware [datetime] of the generator, which works in UTC throughout:
    the number of microseconds since the epoch, with the fields of its
    UTC reading. *)
Module Clock.
Local Open Scope Z_scope.

Definition instant : Type := Z.

Definition minute (t : instant) : Z := (t / 60000000) mod 60.
Definition second (t : instant) : Z := (t / 1000000) mod 60.
Definition microsecond (t : instant) : Z := t mod 1000000.

(** [ts.replace(second=0, microsecond=0)] *)
Definition strip_seconds (t : instant) : instant :=
  t - second t * 1000000 - microsecond t.

(** [ts.replace(minute=m, second=0, microsecond=0)] *)
Definition replace_minute (t : instant) (m : Z) : instant :=
  strip_seconds t - minute t * 60000000 + m * 60000000.

(** [ts + dt.timedelta(minutes=m)] and [ts - dt.timedelta(days=d)] *)
Definition add_minutes (t : instant) (m : Z) : instant := t + m * 60000000.
Definition sub_days (t : instant) (d : Z) : instant := t - d * 86400000000.

Definition _floor_to_15m (ts : instant) : instant :=
  let minute := (minute ts / Generate.INTERVAL_MINUTES) * Generate.INTERVAL_MINUTES in
  replace_minute ts minute.

Definition _next_15m_boundary (ts : instant) : instant :=
  let ts0 := _floor_to_15m ts in
  if ts0 =? strip_seconds ts then ts0
  else add_minutes ts0 Generate.INTERVAL_MINUTES.

(** The timestamp of an instant that falls on a whole minute, as the
    telemetry table stores it. *)
Definition to_minutes (t : instant) : Calendar.datetime := t / 60000000.

End Clock.

(** The batch branch of [main], from the customers on. *)
Module GenerateRun.
Import Generate.
Local Open Scope Z_scope.

(** [latest_ts]: the greatest timestamp of the table, [None] when the
    table is empty. *)
Definition latest_ts (conn : list Reading) : option Calendar.datetime :=
  fold_left
    (fun best r =>
       match best with
       | None => Some (ts r)
       | Some b => Some (Z.max b (ts r))
       end)
    conn None.

(** Where the run starts: [days] before [now], floored, on an empty
    table; one interval after the latest reading otherwise. *)
Definition start_of_run (conn : list Reading) (now : Clock.instant) (days : Z)
  : Calendar.datetime :=
  match latest_ts conn with
  | None => Clock.to_minutes (Clock._floor_to_15m (Clock.sub_days now days))
  | Some last => Calendar.add_minutes last INTERVAL_MINUTES
  end.

Definition batch {G : Type} `{RandomGen G} (conn : list Reading)
    (customers : list Customer) (now : Clock.instant) (days : Z) (steps : nat)
    (seed : Z) : list Reading :=
  generate_steps conn customers (start_of_run conn now days) steps seed.

End GenerateRun.

(** ** ai_generate.py: the customer profiles *)

(** [rng._randbelow(n)], from which [choice] and [sample] draw their
    indices; the library promises an index below [n]. *)
Class IndexGen (G : Type) : Type := { randbelow : G -> nat -> nat * G }.

Definition index_draws (G : Type) `{IndexGen G} : Prop :=
  forall (g : G) (n : nat), (0 < n)%nat -> (fst (randbelow g n) < n)%nat.

Definition counter_randbelow (n k : nat) : nat * nat := ((n mod k)%nat, S n).

#[export] Instance counter_index : IndexGen nat := { randbelow := counter_randbelow }.

Module Create.
Import Generate.
Local Open Scope R_scope.
Local Open Scope string_scope.

Definition SEGMENTS : list string := ["residential"; "sme"; "industrial"].
Definition TARIFFS : list string := ["Simples"; "Bi-horário"].
Definition UTILITIES : list string := ["EDP"; "Endesa"; "Iberdrola"].
Definition CITIES : list string :=
  ["Porto"; "Matosinhos"; "Maia"; "Vila Nova de Gaia"; "Braga"; "Aveiro";
   "Coimbra"; "Lisboa"].

(** [string.ascii_uppercase + string.digits], one string per character. *)
Definition ID_ALPHABET : list string :=
  ["A"; "B"; "C"; "D"; "E"; "F"; "G"; "H"; "I"; "J"; "K"; "L"; "M"; "N"; "O";
   "P"; "Q"; "R"; "S"; "T"; "U"; "V"; "W"; "X"; "Y"; "Z";
   "0"; "1"; "2"; "3"; "4"; "5"; "6"; "7"; "8"; "9"].

(** [pool[j] = v] *)
Fixpoint replace_at {A : Type} (j : nat) (v : A) (pool : list A) : list A :=
  match pool, j with
  | [], _ => []
  | _ :: t, O => v :: t
  | h :: t, S j' => h :: replace_at j' v t
  end.

(** [itertools.accumulate(weights)] *)
Fixpoint accumulate_weights (acc : R) (weights : list R) : list R :=
  match weights with
  | [] => []
  | w :: ws => (acc + w) :: accumulate_weights (acc + w) ws
  end.

(** [bisect.bisect_right(a, x, 0, hi)] on a sorted list: the first index
    below [hi] whose entry exceeds [x], or [hi]. *)
Fixpoint bisect_right (a : list R) (x : R) (hi : nat) : nat :=
  match hi, a with
  | S hi', c :: a' => if Rlt_dec x c then O else S (bisect_right a' x hi')
  | _, _ => O
  end.

Section Draws.
Context {G : Type} `{RandomGen G} `{IndexGen G}.

(** A computation that draws from the generator. *)
Definition draw (A : Type) : Type := G -> A * G.

Definition ret {A : Type} (a : A) : draw A := fun g => (a, g).

Definition and_then {A B : Type} (m : draw A) (k : A -> draw B) : draw B :=
  fun g => let (a, g') := m g in k a g'.

Notation "x <~ m ;; k" := (and_then m (fun x => k))
  (at level 61, m at next level, right associativity).

(** [rng.choice(seq)] is [seq[rng._randbelow(len(seq))]]. *)
Definition choice {A : Type} (d : A) (l : list A) : draw A :=
  fun g => let (i, g') := randbelow g (length l) in (nth i l d, g').

(** [rng.choices(population, weights=weights, k=1)[0]] *)
Definition choices {A : Type} (d : A) (population : list A) (weights : list R)
  : draw A :=
  fun g =>
    let cum_weights := accumulate_weights 0 weights in
    let total := last cum_weights 0 + 0 in
    let hi := (length population - 1)%nat in
    let (u, g') := random g in
    (nth (bisect_right cum_weights (u * total) hi) population d, g').

(** [rng.sample(population, k)] on a small population: [k] draws from a
    pool whose picked entry is overwritten by the last live one. *)
Fixpoint sample_from {A : Type} (d : A) (pool : list A) (n k : nat)
  : draw (list A) :=
  match k with
  | O => ret []
  | S k' =>
      fun g =>
        let (j, g1) := randbelow g n in
        let picked := nth j pool d in
        let pool' := replace_at j (nth (n - 1) pool d) pool in
        let (rest, g2) := sample_from d pool' (n - 1) k' g1 in
        (picked :: rest, g2)
  end.

Definition sample {A : Type} (d : A) (population : list A) (k : nat)
  : draw (list A) :=
  sample_from d population (length population) k.

(** Whatever the state of the generator, the value drawn satisfies [P]. *)
Definition always {A : Type} (m : draw A) (P : A -> Prop) : Prop :=
  forall g : G, P (fst (m g)).

Definition rng_random : draw R := fun g => random g.
Definition rng_gauss (mu sigma : R) : draw R := fun g => gauss mu sigma g.
Definition rng_uniform (a b : R) : draw R := fun g => uniform a b g.

Fixpoint draw_characters (k : nat) : draw (list string) :=
  match k with
  | O => ret []
  | S k' =>
      c <~ choice "" ID_ALPHABET ;;
      rest <~ draw_characters k' ;;
      ret (c :: rest)
  end.

Definition _rand_id (prefix : string) : draw string :=
  suffix <~ draw_characters 8 ;;
  ret (prefix ++ "_" ++ String.concat "" suffix).

Definition _rand_name (segment : string) : draw string :=
  if String.eqb segment "residential" then
    first <~ choice "" ["Ana"; "João"; "Rita"; "Tiago"; "Inês"; "Miguel";
                        "Sofia"; "Bruno"] ;;
    last <~ choice "" ["Silva"; "Ferreira"; "Santos"; "Oliveira"; "Costa";
                       "Pereira"; "Ribeiro"] ;;
    ret (first ++ " " ++ last)
  else if String.eqb segment "industrial" then
    company <~ choice "" ["MetalNorte"; "AgroVale"; "TecFabril"; "LogiPort";
                          "QuimAtlantic"] ;;
    ret (company ++ " S.A.")
  else
    trade <~ choice "" ["Café"; "Oficina"; "Farmácia"; "Padaria"; "Lavandaria"] ;;
    place <~ choice "" ["Central"; "do Bairro"; "Alfa"; "Norte"; "Express"] ;;
    ret (trade ++ " " ++ place).

(** The area, the household and the dwelling type, by segment. *)
Definition draw_dwelling (segment : string) : draw (R * Z * string) :=
  if String.eqb segment "residential" then
    area <~ choice 0 [45; 70; 95; 130; 180] ;;
    extra <~ rng_uniform (-6) 10 ;;
    household <~ choices 0%Z [1; 2; 3; 4; 5]%Z [0.18; 0.34; 0.22; 0.16; 0.10] ;;
    dwelling_type <~ choice "" ["Apartamento"; "Moradia isolada";
                                "Moradia geminada"] ;;
    ret (area + extra, household, dwelling_type)
  else if String.eqb segment "sme" then
    area <~ choice 0 [120; 180; 260; 420] ;;
    extra <~ rng_uniform (-20) 30 ;;
    household <~ choice 0%Z [3; 5; 8; 12]%Z ;;
    ret (area + extra, household, "Comercial")
  else
    area <~ choice 0 [800; 1500; 2600] ;;
    extra <~ rng_uniform (-120) 180 ;;
    household <~ choice 0%Z [20; 35; 60]%Z ;;
    ret (area + extra, household, "Industrial").

(** One pass of the loop of [create_customers]. *)
Definition draw_customer : draw Customer :=
  segment <~ choices "" SEGMENTS [0.72; 0.22; 0.06] ;;
  tariff <~ choices "" TARIFFS [0.7; 0.3] ;;
  city <~ choice "" CITIES ;;
  utility <~ choice "" UTILITIES ;;
  contracted <~ choice 0 (contracted_choices segment) ;;
  p <~ rng_gauss 0.20 0.03 ;;
  let price := Num.py_max 0.08 (Num.py_min 0.45 p) in
  f <~ rng_gauss 0.22 0.09 ;;
  let fixed_daily := Num.py_max 0 (Num.py_min 1.5 f) in
  u_meter <~ rng_random ;;
  let has_smart_meter := if Rltb u_meter 0.88 then 1%Z else 0%Z in
  dwelling <~ draw_dwelling segment ;;
  let '(home_area, household, dwelling_type) := dwelling in
  locality_type <~ choice "" ["Urbana"; "Suburbana"; "Rural"] ;;
  build_year_band <~ choice "" ["Antes de 1980"; "1980-1999"; "2000-2014";
                                "2015-2020"; "2021 ou mais recente"] ;;
  k_heating <~ choice O [1; 2]%nat ;;
  heating <~ sample "" ["Elétrico"; "Gás"; "Bomba de calor"; "Lenha / Pellets"]
               k_heating ;;
  let heating_sources := String.concat "," heating in
  has_solar <~ (if String.eqb segment "residential" then
                  u_solar <~ rng_random ;;
                  ret (if Rltb u_solar 0.22 then 1%Z else 0%Z)
                else ret 0%Z) ;;
  ev_count <~ (if String.eqb segment "residential" then
                 choices 0%Z [0; 1; 2]%Z [0.78; 0.18; 0.04]
               else ret 0%Z) ;;
  alert_sens <~ choice "" ["Baixa"; "Média"; "Alta"] ;;
  k_appliances <~ choice O [0; 1; 2; 3]%nat ;;
  appliances <~ sample "" ["Ar condicionado"; "Termoacumulador"; "Piscina";
                           "Bomba de água"; "Secador de roupa"] k_appliances ;;
  let main_appliances := String.concat "," appliances in
  cid <~ _rand_id "C" ;;
  cname <~ _rand_name segment ;;
  ret {| id := cid; name := cname; segment := segment; city := city;
         contracted_power_kva := contracted; tariff := tariff;
         utility := utility; price_eur_per_kwh := price;
         fixed_daily_fee_eur := fixed_daily;
         has_smart_meter := has_smart_meter; home_area_m2 := home_area;
         household_size := household; locality_type := locality_type;
         dwelling_type := dwelling_type; build_year_band := build_year_band;
         heating_sources := heating_sources; has_solar := has_solar;
         ev_count := ev_count; alert_sensitivity := alert_sens;
         main_appliances := main_appliances |}.

Fixpoint draw_customers (count : nat) : draw (list Customer) :=
  match count with
  | O => ret []
  | S k =>
      c <~ draw_customer ;;
      rest <~ draw_customers k ;;
      ret (c :: rest)
  end.

End Draws.

(** What every pass of the loop guarantees about its profile. *)
Definition drawn_profile (c : Customer) : Prop :=
  In (segment c) SEGMENTS /\ In (tariff c) TARIFFS /\ In (city c) CITIES
  /\ In (utility c) UTILITIES
  /\ In (contracted_power_kva c) (contracted_choices (segment c))
  /\ 0.08 <= price_eur_per_kwh c <= 0.45
  /\ 0 <= fixed_daily_fee_eur c <= 1.5
  /\ (has_smart_meter c = 0 \/ has_smart_meter c = 1)%Z
  /\ 39 <= home_area_m2 c <= 2780
  /\ (1 <= household_size c <= 60)%Z
  /\ (has_solar c = 0 \/ has_solar c = 1)%Z
  /\ (0 <= ev_count c <= 2)%Z
  /\ (segment c <> "residential" -> has_solar c = 0%Z /\ ev_count c = 0%Z).

(** The primary key of the [customers] table: no id twice. *)
Fixpoint distinct (ids : list string) : bool :=
  match ids with
  | [] => true
  | i :: rest => negb (existsb (String.eqb i) rest) && distinct rest
  end.

(** What [create_customers] does to a table that holds the ids
    [table_ids]: the profiles are drawn, and their insertion fails on the
    primary key when an id is already taken. *)
Inductive creation : Type :=
  | Created (customers : list Customer)
  | IntegrityError.

Definition create_customers {G : Type} `{RandomGen G} `{IndexGen G}
    (table_ids : list string) (count : Z) (seed : Z) : creation :=
  let customers := fst (draw_customers (Z.to_nat count) (from_seed seed)) in
  if distinct (table_ids ++ map id customers) then Created customers
  else IntegrityError.

End Create.

(** ** The linear-algebra kernel

    [ai_train.py] and [ai_power_train.py] each carry their own copy of
    [dot], [mat_transpose], [mat_mul], [identity], [invert_matrix],
    [standardize] and [ridge_fit]; the copies are the same statement for
    statement, so they are embedded once. *)

Module Kernel.
Local Open Scope R_scope.
Local Open Scope result_scope.

Definition vector : Type := list R.
Definition matrix : Type := list (list R).

Definition dot (a b : vector) : result R :=
  ps <- zip_strict a b ;;
  Ok (Num.sum (map (fun p => fst p * snd p) ps)).

(** The strict [zip] over the rows of [m]: the columns of [m], or an
    error when two rows differ in length. *)
Definition mat_transpose (m : matrix) : result matrix :=
  match m with
  | [] => Ok []
  | r :: rest =>
      if forallb (fun r' => Nat.eqb (length r') (length r)) rest then
        Ok (map (fun j => map (fun row => nth j row 0) m) (seq 0 (length r)))
      else Raise ZipLengthMismatch
  end.

Definition mat_mul (a b : matrix) : result matrix :=
  bt <- mat_transpose b ;;
  mapM (fun row => mapM (fun col => dot row col) bt) a.

Definition mat_vec_mul (a : matrix) (v : vector) : result vector :=
  mapM (fun row => dot row v) a.

Definition identity (n : nat) : matrix :=
  map (fun i => map (fun j => if Nat.eqb i j then 1 else 0) (seq 0 n)) (seq 0 n).

(** [m[r]] and [m[r][c]] for indices that are in range wherever the
    kernel uses them ([r < len(m)] and every row of the augmented matrix
    is at least [n] wide). *)
Definition row (m : matrix) (r : nat) : vector := nth r m [].
Definition entry (m : matrix) (r c : nat) : R := nth c (row m r) 0.

(** [m[i] = v] for [i < len(m)]. *)
Fixpoint set_row {A : Type} (i : nat) (v : A) (m : list A) : list A :=
  match m, i with
  | [], _ => []
  | _ :: t, O => v :: t
  | h :: t, S i' => h :: set_row i' v t
  end.

(** [m[i], m[j] = m[j], m[i]] *)
Definition swap_rows (i j : nat) (m : matrix) : matrix :=
  let ri := row m i in
  let rj := row m j in
  set_row j ri (set_row i rj m).

(** *** [invert_matrix]: Gauss-Jordan elimination *)

(** The pivot search of one column: start at the diagonal and move to a
    lower row only when its entry is strictly larger in absolute value. *)
Definition find_pivot (aug : matrix) (col n : nat) : nat :=
  fold_left
    (fun pivot r =>
       if Rgt_dec (Rabs (entry aug r col)) (Rabs (entry aug pivot col))
       then r else pivot)
    (seq (col + 1) (n - (col + 1))) col.

(** One pass of the elimination loop over row [r]. *)
Definition eliminate_row (col : nat) (aug : matrix) (r : nat) : result matrix :=
  if Nat.eqb r col then Ok aug
  else
    let factor := entry aug r col in
    if Rlt_dec (Rabs factor) 1e-12 then Ok aug
    else
      ps <- zip_strict (row aug r) (row aug col) ;;
      Ok (set_row r (map (fun p => fst p - factor * snd p) ps) aug).

Definition eliminate (n col : nat) (aug : matrix) : result matrix :=
  foldM (eliminate_row col) (seq 0 n) aug.

(** The body of the loop over columns.  The division [1.0 / pv] cannot
    fail: the test before it leaves only pivots of magnitude at least
    [1e-12]. *)
Definition pivot_column (n : nat) (aug : matrix) (col : nat) : result matrix :=
  let pivot := find_pivot aug col n in
  if Rlt_dec (Rabs (entry aug pivot col)) 1e-12 then Raise SingularMatrix
  else
    let aug1 := if Nat.eqb pivot col then aug else swap_rows col pivot aug in
    let pv := entry aug1 col col in
    let inv_pv := 1 / pv in
    let aug2 := set_row col (map (fun x => x * inv_pv) (row aug1 col)) aug1 in
    eliminate n col aug2.

Definition reduce_columns (n : nat) (cols : list nat) (aug : matrix) : result matrix :=
  foldM (pivot_column n) cols aug.

(** The augmented matrix [[A | I]] the loop starts from. *)
Definition augment (a : matrix) : result matrix :=
  pairs <- zip_strict a (identity (length a)) ;;
  Ok (map (fun p => fst p ++ snd p) pairs).

Definition invert_matrix (a : matrix) : result matrix :=
  let n := length a in
  aug <- augment a ;;
  aug' <- reduce_columns n (seq 0 n) aug ;;
  Ok (map (skipn n) aug').

(** *** [standardize] *)

(** The inner loop [for j, v in enumerate(row): acc[j] += g(j, v)], where
    [acc] is the part of the accumulator from index [j] on. *)
Fixpoint accumulate (g : nat -> R -> R) (j : nat) (acc row : vector) : result vector :=
  match row with
  | [] => Ok acc
  | v :: row' =>
      match acc with
      | [] => Raise IndexOutOfRange
      | a :: acc' =>
          rest <- accumulate g (S j) acc' row' ;;
          Ok ((a + g j v) :: rest)
      end
  end.

Definition column_totals (g : nat -> R -> R) (d : nat) (x : matrix) : result vector :=
  foldM (fun acc row => accumulate g 0 acc row) x (repeat 0 d).

Definition floor_std (s : R) : R := if Rgt_dec s 1e-9 then s else 1.

Definition z_row (d : nat) (means stds : vector) (row : vector) : result vector :=
  mapM (fun j =>
          match nth_error row j with
          | Some v => Ok ((v - nth j means 0) / nth j stds 0)
          | None => Raise IndexOutOfRange
          end)
       (seq 0 d).

Definition standardize (x : matrix) : result (matrix * vector * vector) :=
  match x with
  | [] => Raise IndexOutOfRange          (* x[0] *)
  | x0 :: _ =>
      let n := length x in
      let d := length x0 in
      sums <- column_totals (fun _ v => v) d x ;;
      let means := map (fun m => m / INR n) sums in
      sq <- column_totals (fun j v => (v - nth j means 0) ^ 2) d x ;;
      let stds := map (fun s => sqrt (s / INR (Num.max1_pred n))) sq in
      let stds := map floor_std stds in
      xz <- mapM (z_row d means stds) x ;;
      Ok (xz, means, stds)
  end.

(** *** [ridge_fit] *)

(** [m[i][i] += l2] *)
Definition add_diag (l2 : R) (m : matrix) (i : nat) : result matrix :=
  match nth_error m i with
  | None => Raise IndexOutOfRange
  | Some r =>
      match nth_error r i with
      | None => Raise IndexOutOfRange
      | Some v => Ok (set_row i (set_row i (v + l2) r) m)
      end
  end.

Definition ridge_fit (x : matrix) (y : vector) (l2 : R)
  : result (vector * R * vector * vector) :=
  ' (xz, means, stds) <- standardize x ;;
  match xz with
  | [] => Raise IndexOutOfRange          (* xz[0] *)
  | xz0 :: _ =>
      let n := length xz in
      let d := length xz0 in
      let y_mean := Num.sum y / INR n in
      let yc := map (fun v => v - y_mean) y in
      xt <- mat_transpose xz ;;
      xtx <- mat_mul xt xz ;;
      xtx <- foldM (add_diag l2) (seq 0 d) xtx ;;
      xty <- mat_vec_mul xt yc ;;
      inv <- invert_matrix xtx ;;
      w <- mat_vec_mul inv xty ;;
      Ok (w, y_mean, means, stds)
  end.

(** The standardised row of [predict_row]:
    [(x[j] - means[j]) / stds[j] for j in range(len(x))]. *)
Definition scale_row (x means stds : vector) : result vector :=
  mapM (fun j =>
          match nth_error x j, nth_error means j, nth_error stds j with
          | Some v, Some m, Some s =>
              if Req_dec_T s 0 then Raise ZeroDivision else Ok ((v - m) / s)
          | _, _, _ => Raise IndexOutOfRange
          end)
       (seq 0 (length x)).

(** The samples a trainer fits on and the samples it scores. *)
Record Samples : Type := {
  fit_x : matrix; fit_y : vector; eval_x : matrix; eval_y : vector
}.

(** [[x[i] for i in idx]] *)
Definition gather {A : Type} (x : list A) (idx : list nat) : result (list A) :=
  mapM (fun i => match nth_error x i with
                 | Some v => Ok v
                 | None => Raise IndexOutOfRange
                 end) idx.

(** What the trainers store and report. *)
Record Metrics : Type := { mae : R; rmse : R; r2 : R }.

Record Artifact : Type := {
  version : Z;
  l2 : R;
  feature_names : list string;
  mean : vector;
  std : vector;
  weights : vector;
  bias : R;
  metrics : Metrics
}.

End Kernel.

(** ** ai_train.py: the next-step forecaster *)

Module Train.
Import Kernel.
Local Open Scope R_scope.
Local Open Scope string_scope.
Local Open Scope result_scope.

Definition INTERVAL_MINUTES : Z := 15.

Record Customer : Type := {
  id : string;
  segment : string;
  city : string;
  contracted_power_kva : R;
  tariff : string;
  home_area_m2 : R;
  household_size : Z;
  has_solar : Z;
  ev_count : Z
}.

(** One row of the query of [load_training_pairs]: [(ts, watts, temp_c)],
    where [temp_c] may be NULL. *)
Record Row : Type := { row_ts : Calendar.datetime; row_watts : R; row_temp_c : option R }.

(** What [main] reads from the database: the customers ordered by id and,
    for each customer id, its rows since the cut-off ordered by time. *)
Record Db : Type := {
  customers : list Customer;
  telemetry_since : string -> list Row
}.

Definition _seasonal_temp (ts : Calendar.datetime) (city : string) : R :=
  let day := Calendar.tm_yday ts in
  let base := 16 + 7 * sin (2 * PI * (IZR day - 170) / 365) in
  let coast_bias :=
    if String.eqb city "Porto" || String.eqb city "Matosinhos"
       || String.eqb city "Vila Nova de Gaia" || String.eqb city "Aveiro"
    then -1 else 0 in
  base + coast_bias.

Definition feature_names : list string :=
  ["last_watts"; "hour_sin"; "hour_cos"; "dow_sin"; "dow_cos"; "is_weekend";
   "temp_c"; "contracted_power_kva"; "tariff_simples"; "tariff_bihorario";
   "segment_residential"; "segment_sme"; "segment_industrial";
   "home_area_m2"; "household_size"; "has_solar"; "ev_count"].

Definition indicator (b : bool) : R := if b then 1 else 0.

Definition make_features (ts : Calendar.datetime) (customer : Customer)
    (last_watts : R) (temp_c : option R) : vector :=
  let hour := IZR (Calendar.hour ts) + IZR (Calendar.minute ts) / 60 in
  let dow := Calendar.weekday ts in
  let is_weekend := if (5 <=? dow)%Z then 1 else 0 in
  let hour_rad := 2 * PI * (hour / 24) in
  let dow_rad := 2 * PI * (IZR dow / 7) in
  let temp_c :=
    match temp_c with
    | None => _seasonal_temp ts (city customer)
    | Some t => t
    end in
  let t_simple := indicator (String.eqb (tariff customer) "Simples") in
  let t_bi := indicator (String.eqb (tariff customer) "Bi-horário") in
  let s_res := indicator (String.eqb (segment customer) "residential") in
  let s_sme := indicator (String.eqb (segment customer) "sme") in
  let s_ind := indicator (String.eqb (segment customer) "industrial") in
  [ last_watts; sin hour_rad; cos hour_rad; sin dow_rad; cos dow_rad;
    is_weekend; temp_c; contracted_power_kva customer; t_simple; t_bi;
    s_res; s_sme; s_ind; home_area_m2 customer;
    IZR (household_size customer); IZR (has_solar customer);
    IZR (ev_count customer) ].

Definition predict_row (x w : vector) (bias : R) (means stds : vector) : result R :=
  xz <- scale_row x means stds ;;
  d <- dot xz w ;;
  Ok (d + bias).

Definition metrics (y_true y_pred : vector) : result Metrics :=
  let n := length y_true in
  ps <- zip_strict y_true y_pred ;;
  let err := map (fun p => snd p - fst p) ps in
  if Nat.eqb n 0 then Raise ZeroDivision
  else
    let mae := Num.sum (map Rabs err) / INR n in
    let rmse := sqrt (Num.sum (map (fun e => e * e) err) / INR n) in
    let y_mean := Num.sum y_true / INR n in
    let ss_tot := Num.sum (map (fun yt => (yt - y_mean) ^ 2) y_true) in
    let ss_res := Num.sum (map (fun p => (fst p - snd p) ^ 2) ps) in
    let r2 := 1 - (if Rgt_dec ss_tot 1e-12 then ss_res / ss_tot else 0) in
    Ok {| mae := mae; rmse := rmse; r2 := r2 |}.

(** The pairs [(features at t, watts at t+1)] of one customer. *)
Fixpoint pairs_of_rows (c : Customer) (rows : list Row) : list (vector * R) :=
  match rows with
  | r :: ((r' :: _) as rest) =>
      (make_features (row_ts r) c (row_watts r) (row_temp_c r), row_watts r')
      :: pairs_of_rows c rest
  | _ => []
  end.

Definition load_training_pairs (db : Db) (customer_map : list Customer)
  : matrix * vector :=
  let pairs :=
    flat_map
      (fun c =>
         let rows := telemetry_since db (id c) in
         if Nat.ltb (length rows) 3 then [] else pairs_of_rows c rows)
      customer_map in
  (map fst pairs, map snd pairs).

Definition too_few_samples (n : nat) : string :=
  "Poucos dados para treinar ("
  ++ NilEmpty.string_of_uint (Nat.to_uint n)
  ++ " amostras). Gere mais: py -3 apps/backend/ai_generate.py --days 30 --steps 96".

Definition no_customers : string :=
  "Sem clientes. Execute primeiro: py -3 apps/backend/ai_generate.py --customers 25".

Section Main.
Context {G : Type} `{RandomGen G}.

(** The shuffled indices cut at [int(len(idx) * 0.8)]; on a length this
    is the integer quotient of [8 * len] by 10. *)
Definition split_indices (seed : Z) (n : nat) : list nat * list nat :=
  let rng := from_seed seed in
  let idx := fst (shuffle rng (seq 0 n)) in
  let split := ((length idx * 8) / 10)%nat in
  (firstn split idx, skipn split idx).

(** Fit on the first group of samples, evaluate on the second. *)
Definition fit_and_evaluate (x_tr : matrix) (y_tr : vector) (x_te : matrix)
    (y_te : vector) (l2 : R) : result Artifact :=
  ' (w, bias, means, stds) <- ridge_fit x_tr y_tr l2 ;;
  preds <- mapM (fun row => predict_row row w bias means stds) x_te ;;
  m <- metrics y_te preds ;;
  Ok {| version := 1; Kernel.l2 := l2; Kernel.feature_names := feature_names;
        mean := means; std := stds; weights := w; Kernel.bias := bias;
        Kernel.metrics := m |}.

(** The guard on the number of samples and the train/test split: the
    samples handed to [ridge_fit] and the samples that are scored. *)
Definition select_samples (db : Db) (seed : Z) : result Samples :=
  let customer_map := customers db in
  match customer_map with
  | [] => Raise (SystemExit no_customers)
  | _ =>
      let (x, y) := load_training_pairs db customer_map in
      if Nat.ltb (length x) 200 then Raise (SystemExit (too_few_samples (length x)))
      else
        let (tr_idx, te_idx) := split_indices seed (length x) in
        x_tr <- gather x tr_idx ;;
        y_tr <- gather y tr_idx ;;
        x_te <- gather x te_idx ;;
        y_te <- gather y te_idx ;;
        Ok {| fit_x := x_tr; fit_y := y_tr; eval_x := x_te; eval_y := y_te |}
  end.

(** Everything [main] computes before it opens the output file. *)
Definition train (db : Db) (l2 : R) (seed : Z) : result Artifact :=
  s <- select_samples db seed ;;
  fit_and_evaluate (fit_x s) (fit_y s) (eval_x s) (eval_y s) l2.

(** [main]: the outcome of the run and the content of the output file
    after it; [file] is the content before ([None]: no such file). *)
Definition main (db : Db) (l2 : R) (seed : Z) (file : option Artifact)
  : result unit * option Artifact :=
  match train db l2 seed with
  | Ok payload => (Ok tt, Some payload)
  | Raise e => (Raise e, file)
  end.

End Main.

End Train.

(** ** ai_power_train.py: the ideal-power estimator *)

Module PowerTrain.
Import Kernel.
Local Open Scope R_scope.
Local Open Scope string_scope.
Local Open Scope result_scope.

Record Customer : Type := {
  id : string;
  segment : string;
  contracted_power_kva : R;
  home_area_m2 : R;
  household_size : Z;
  has_solar : Z;
  ev_count : Z
}.

(** What [main] reads from the database: the customers, the latest
    timestamp of each ([None]: no telemetry) and the 30-day peak and
    average before a timestamp. *)
Record Db : Type := {
  customers : list Customer;
  get_latest_ts : string -> option Calendar.datetime;
  get_stats_30d : string -> Calendar.datetime -> R * R
}.

Definition feature_names : list string :=
  ["contracted_power_kva"; "peak_watts_30d"; "avg_watts_30d"; "home_area_m2";
   "household_size"; "has_solar"; "ev_count"; "segment_residential";
   "segment_sme"; "segment_industrial"].

Definition predict_row (row w : vector) (b : R) (means stds : vector) : result R :=
  xz <- scale_row row means stds ;;
  d <- dot xz w ;;
  Ok (b + d).

Definition metrics (y_true y_pred : vector) : result Metrics :=
  let n := length y_true in
  ps <- zip_strict y_true y_pred ;;
  if Nat.eqb n 0 then Raise ZeroDivision
  else
    let mae := Num.sum (map (fun p => Rabs (fst p - snd p)) ps) / INR n in
    let mse := Num.sum (map (fun p => (fst p - snd p) ^ 2) ps) / INR n in
    let rmse := sqrt mse in
    let y_mean := Num.sum y_true / INR n in
    let ss_tot := Num.sum (map (fun v => (v - y_mean) ^ 2) y_true) in
    let ss_res := Num.sum (map (fun p => (fst p - snd p) ^ 2) ps) in
    let r2 := if Rgt_dec ss_tot 1e-12 then 1 - (ss_res / ss_tot) else 0 in
    Ok {| mae := mae; rmse := rmse; r2 := r2 |}.

Definition seg_margin (c : Customer) : R :=
  if String.eqb (segment c) "industrial" then 0.15
  else if String.eqb (segment c) "sme" then 0.10
  else 0.08.

(** The two local terms of [target_ideal_kva], each with its guard.
    These three definitions evaluate the formula exactly; the rounding
    of each operation is in [Rounded.target_ideal_kva]. *)
Definition peak_kva (peak_watts_30d : R) : R :=
  if Rgt_dec peak_watts_30d 0 then (peak_watts_30d / 1000) / 0.85 else 1.

Definition avg_kva (avg_watts_30d : R) : R :=
  if Rgt_dec avg_watts_30d 0 then (avg_watts_30d / 1000) * 2.2 else 1.

Definition target_ideal_kva (customer : Customer)
    (peak_watts_30d avg_watts_30d : R) : R :=
  let base :=
    Num.py_max (peak_kva peak_watts_30d) (avg_kva avg_watts_30d)
    * (1 + seg_margin customer) in
  (* rounded up to steps of 0.1 *)
  let kva := IZR (Num.ceil (base * 10)) / 10 in
  Num.py_min 60 (Num.py_max 1 kva).

(** The target as the design document words it: the larger of the two
    statistics-derived terms, inflated by the segment margin, rounded up
    to 0.1 kVA and clamped to [1, 60]; no baseline substitution. *)
Definition documented_margin (seg : string) : R :=
  if String.eqb seg "residential" then 0.08
  else if String.eqb seg "sme" then 0.10
  else if String.eqb seg "industrial" then 0.15
  else 0.

Definition documented_ideal_kva (seg : string) (peak_watts avg_watts : R) : R :=
  let peak := (peak_watts / 1000) / 0.85 in
  let avg := (avg_watts / 1000) * 2.2 in
  let inflated := Rmax peak avg * (1 + documented_margin seg) in
  let rounded := IZR (Num.ceil (inflated * 10)) / 10 in
  Rmin 60 (Rmax 1 rounded).

(** Ten times the inflated maximum of that formula: the number whose
    ceiling is taken. *)
Definition documented_tenths (seg : string) (peak_watts avg_watts : R) : R :=
  let peak := (peak_watts / 1000) / 0.85 in
  let avg := (avg_watts / 1000) * 2.2 in
  Rmax peak avg * (1 + documented_margin seg) * 10.

Definition indicator (b : bool) : R := if b then 1 else 0.

(** The body of the loop of [main] over the customers: nothing for a
    customer without telemetry, one sample otherwise. *)
Definition sample_of (db : Db) (c : Customer) : option (vector * R) :=
  match get_latest_ts db (id c) with
  | None => None
  | Some latest =>
      let (peak30, avg30) := get_stats_30d db (id c) latest in
      let seg_res := indicator (String.eqb (segment c) "residential") in
      let seg_sme := indicator (String.eqb (segment c) "sme") in
      let seg_ind := indicator (String.eqb (segment c) "industrial") in
      let feats :=
        [ contracted_power_kva c; peak30; avg30; home_area_m2 c;
          IZR (household_size c); IZR (has_solar c); IZR (ev_count c);
          seg_res; seg_sme; seg_ind ] in
      Some (feats, target_ideal_kva c peak30 avg30)
  end.

Definition has_history (db : Db) (c : Customer) : bool :=
  match get_latest_ts db (id c) with Some _ => true | None => false end.

Fixpoint build_dataset (db : Db) (cs : list Customer) : matrix * vector :=
  match cs with
  | [] => ([], [])
  | c :: rest =>
      let (x, y) := build_dataset db rest in
      match sample_of db c with
      | None => (x, y)
      | Some (feats, target) => (feats :: x, target :: y)
      end
  end.

Definition too_few_customers : string :=
  "Poucos dados para treinar (precisa de pelo menos 10 clientes com telemetria)".

(** The guard on the number of samples; past it the whole dataset is
    handed to [ridge_fit] and the whole dataset is scored. *)
Definition select_samples (db : Db) : result Samples :=
  let (x, y) := build_dataset db (customers db) in
  if Nat.ltb (length x) 10 then Raise (SystemExit too_few_customers)
  else Ok {| fit_x := x; fit_y := y; eval_x := x; eval_y := y |}.

Definition fit_and_evaluate (x_fit : matrix) (y_fit : vector) (x_eval : matrix)
    (y_eval : vector) (l2 : R) : result Artifact :=
  ' (w, b, means, stds) <- ridge_fit x_fit y_fit l2 ;;
  preds <- mapM (fun row => predict_row row w b means stds) x_eval ;;
  m <- metrics y_eval preds ;;
  Ok {| version := 1; Kernel.l2 := l2; Kernel.feature_names := feature_names;
        mean := means; std := stds; weights := w; bias := b;
        Kernel.metrics := m |}.

Definition train (db : Db) (l2 : R) : result Artifact :=
  s <- select_samples db ;;
  fit_and_evaluate (fit_x s) (fit_y s) (eval_x s) (eval_y s) l2.

(** [main]: the outcome of the run and the content of
    [data/ai_power_model.json] after it. *)
Definition main (db : Db) (l2 : R) (file : option Artifact)
  : result unit * option Artifact :=
  match train db l2 with
  | Ok out => (Ok tt, Some out)
  | Raise e => (Raise e, file)
  end.

End PowerTrain.

(** ** The numerical steps with their rounding

    The functions whose documented behaviour is a numerical value are
    embedded a second time with the rounding of every float operation
    written out: [fl] is applied to the result of each operation and to
    each decimal literal that is not itself a float ([1000.0], [1.0],
    [10], [10.0] and [60.0] are).  With [Rounding.exact] these are the
    definitions of [PowerTrain] and [Kernel]. *)
Module Rounded.
Import Kernel.
Local Open Scope R_scope.
Local Open Scope string_scope.
Local Open Scope result_scope.

Section WithRounding.
Variable fl : R -> R.

(** *** ai_power_train.py: [target_ideal_kva] *)

Definition peak_kva (peak_watts_30d : R) : R :=
  if Rgt_dec peak_watts_30d 0 then fl (fl (peak_watts_30d / 1000) / fl 0.85) else 1.

Definition avg_kva (avg_watts_30d : R) : R :=
  if Rgt_dec avg_watts_30d 0 then fl (fl (avg_watts_30d / 1000) * fl 2.2) else 1.

Definition seg_margin (c : PowerTrain.Customer) : R :=
  if String.eqb (PowerTrain.segment c) "industrial" then fl 0.15
  else if String.eqb (PowerTrain.segment c) "sme" then fl 0.10
  else fl 0.08.

(** The maximum-and-margin step and what follows it, from the two terms:
    [math.ceil] returns an integer, which the division by [10.0] first
    converts to a float. *)
Definition sized (customer : PowerTrain.Customer) (peak_kva avg_kva : R) : R :=
  let base := fl (Num.py_max peak_kva avg_kva * fl (1 + seg_margin customer)) in
  let kva := fl (fl (IZR (Num.ceil (fl (base * 10)))) / 10) in
  Num.py_min 60 (Num.py_max 1 kva).

Definition target_ideal_kva (customer : PowerTrain.Customer)
    (peak_watts_30d avg_watts_30d : R) : R :=
  sized customer (peak_kva peak_watts_30d) (avg_kva avg_watts_30d).

(** *** [standardize] *)

(** [acc[j] += g(j, v)] over a row. *)
Fixpoint accumulate (g : nat -> R -> R) (j : nat) (acc row : vector) : result vector :=
  match row with
  | [] => Ok acc
  | v :: row' =>
      match acc with
      | [] => Raise IndexOutOfRange
      | a :: acc' =>
          rest <- accumulate g (S j) acc' row' ;;
          Ok (fl (a + g j v) :: rest)
      end
  end.

Definition column_totals (g : nat -> R -> R) (d : nat) (x : matrix) : result vector :=
  foldM (fun acc row => accumulate g 0 acc row) x (repeat 0 d).

(** [s if s > 1e-9 else 1.0]: the threshold is the float nearest to
    [1e-9]. *)
Definition floor_std (s : R) : R := if Rgt_dec s (fl 1e-9) then s else 1.

Definition z_row (d : nat) (means stds : vector) (row : vector) : result vector :=
  mapM (fun j =>
          match nth_error row j with
          | Some v => Ok (fl (fl (v - nth j means 0) / nth j stds 0))
          | None => Raise IndexOutOfRange
          end)
       (seq 0 d).

Definition standardize (x : matrix) : result (matrix * vector * vector) :=
  match x with
  | [] => Raise IndexOutOfRange          (* x[0] *)
  | x0 :: _ =>
      let n := length x in
      let d := length x0 in
      sums <- column_totals (fun _ v => v) d x ;;
      let means := map (fun m => fl (m / INR n)) sums in
      sq <- column_totals (fun j v => fl (fl (v - nth j means 0) ^ 2)) d x ;;
      let stds := map (fun s => fl (sqrt (fl (s / INR (Num.max1_pred n))))) sq in
      let stds := map floor_std stds in
      xz <- mapM (z_row d means stds) x ;;
      Ok (xz, means, stds)
  end.

(** De-standardizing in floats: each z-score times the deviation of its
    column, plus the mean of its column. *)
Definition destandardize (xz : matrix) (means stds : vector) : matrix :=
  map (fun row =>
         map (fun j => fl (fl (nth j row 0 * nth j stds 0) + nth j means 0))
             (seq 0 (length row)))
      xz.

(** The column statistics the design document names, as floats compute
    them: the running total of a list, the mean of column [j], and its
    sample deviation with Bessel's denominator [n - 1], at least 1. *)
Definition total (l : list R) : R := fold_left (fun a v => fl (a + v)) l 0.

Definition col_mean (j : nat) (x : matrix) : R :=
  fl (total (map (fun row => nth j row 0) x) / INR (length x)).

Definition sample_std (j : nat) (x : matrix) : R :=
  let squares :=
    map (fun row => fl (fl (nth j row 0 - col_mean j x) ^ 2)) x in
  fl (sqrt (fl (total squares / INR (Nat.max 1 (length x - 1))))).

End WithRounding.

End Rounded.

(** ** The design document's own formulas

    Definitions that follow the words of the design document, to be
    compared with the code. *)

Module Documented.
Local Open Scope R_scope.

(** [SS_tot], [SS_res] and the coefficient of determination
    [R2 = 1 - SS_res/SS_tot], with [R2 := 0] for a degenerate target. *)
Definition ss_tot (y_true : list R) : R :=
  let y_mean := Num.sum y_true / INR (length y_true) in
  Num.sum (map (fun v => (v - y_mean) ^ 2) y_true).

Definition ss_res (y_true y_pred : list R) : R :=
  Num.sum (map (fun p => (fst p - snd p) ^ 2) (combine y_true y_pred)).

Definition r_squared (y_true y_pred : list R) : R :=
  if Rgt_dec (ss_tot y_true) 1e-12
  then 1 - ss_res y_true y_pred / ss_tot y_true
  else 0.

(** The cost of a 15-minute reading at a unit rate in euros per kWh. *)
Definition interval_cost (watts unit_rate : R) : R :=
  (watts / 1000) * unit_rate * 0.25.

(** A reading charged at the flat rate of 0.20 euros per kWh. *)
Definition flat_rate_cost (r : Generate.Reading) : Prop :=
  Generate.euros r = interval_cost (Generate.watts r) 0.20.



(** The number of transition samples of the next-step pipeline: a
    customer with fewer than 3 readings contributes none, a customer with
    [k] readings contributes [k - 1]. *)
Definition transitions (readings : nat) : nat :=
  if Nat.ltb readings 3 then 0 else readings - 1.

Definition transition_count (db : Train.Db) : nat :=
  list_sum
    (map (fun c => transitions (length (Train.telemetry_since db (Train.id c))))
         (Train.customers db)).

(** The customers with telemetry history of the power-sizing pipeline. *)
Definition customers_with_history (db : PowerTrain.Db) : nat :=
  length (filter (PowerTrain.has_history db) (PowerTrain.customers db)).

(** Column [j] of a matrix, its mean, and its sample standard deviation
    with Bessel's denominator [n - 1], at least 1. *)
Definition column (j : nat) (x : Kernel.matrix) : Kernel.vector :=
  map (fun row => nth j row 0) x.

Definition col_mean (j : nat) (x : Kernel.matrix) : R :=
  Num.sum (column j x) / INR (length x).

Definition sample_std (j : nat) (x : Kernel.matrix) : R :=
  sqrt (Num.sum (map (fun v => (v - col_mean j x) ^ 2) (column j x))
        / INR (Nat.max 1 (length x - 1))).

(** The deviation that is returned: floored to 1 when below [1e-9]. *)
Definition floored_std (j : nat) (x : Kernel.matrix) : R :=
  if Rlt_dec (sample_std j x) 1e-9 then 1 else sample_std j x.

(** All the rows are [d] wide. *)
Definition rectangular (d : nat) (x : Kernel.matrix) : Prop :=
  Forall (fun row => length row = d) x.

(** A square matrix of size [n]. *)
Definition square (n : nat) (a : Kernel.matrix) : Prop :=
  length a = n /\ Forall (fun row => length row = n) a.

(** Column [j] of the square matrix holds only zeros. *)
Definition has_zero_column (n : nat) (a : Kernel.matrix) : Prop :=
  exists j, (j < n)%nat /\ forall r, (r < n)%nat -> Kernel.entry a r j = 0.

(** The largest absolute value of column [col] from row [col] downward. *)
Definition column_max_abs (aug : Kernel.matrix) (col n : nat) : R :=
  fold_right Rmax 0
    (map (fun r => Rabs (Kernel.entry aug r col)) (seq col (n - col))).

(** The elimination of [a] reaches column [col] with the augmented matrix
    [aug]: the columns before it went through without error. *)
Definition reached (a : Kernel.matrix) (col : nat) (aug : Kernel.matrix) : Prop :=
  exists aug0,
    Kernel.augment a = Ok aug0
    /\ Kernel.reduce_columns (length a) (seq 0 col) aug0 = Ok aug.

(** Invariants of the elimination loop: [n] rows of one width [w], and a
    column of zeros. *)
Definition shape (n w : nat) (aug : Kernel.matrix) : Prop :=
  length aug = n /\ Forall (fun row => length row = w) aug.

Definition zero_column (n j : nat) (aug : Kernel.matrix) : Prop :=
  forall r, (r < n)%nat -> Kernel.entry aug r j = 0.

Definition loop_invariant (n w : nat) (Z : nat -> Prop) (aug : Kernel.matrix) : Prop :=
  shape n w aug /\ forall j, Z j -> zero_column n j aug.

(** The [j]-th unit vector of length [d]. *)
Definition unit_vector (d j : nat) : Kernel.vector :=
  map (fun i => if Nat.eqb i j then 1 else 0) (seq 0 d).

(** A held-out split of [n] samples: every sample index lands in exactly
    one of the two groups, the fitting group holds the first 80% and no
    index of the fitting group is evaluated. *)
Definition held_out_split (n : nat) (fit_idx eval_idx : list nat) : Prop :=
  Permutation (seq 0 n) (fit_idx ++ eval_idx)
  /\ length fit_idx = (n * 8 / 10)%nat
  /\ (forall i, In i fit_idx -> ~ In i eval_idx).


End Documented.

(** ** Concrete inputs used to run the definitions *)

Module Fixtures.
Local Open Scope R_scope.
Local Open Scope string_scope.

(** 2024-06-18T20:30Z, a Tuesday and the 170th day of the year. *)
Definition ts_day170 : Calendar.datetime := (19892 * 1440 + 20 * 60 + 30)%Z.


Definition power_residential : PowerTrain.Customer :=
  {| PowerTrain.id := "C_A1B2C3D4"; PowerTrain.segment := "residential";
     PowerTrain.contracted_power_kva := 6.9; PowerTrain.home_area_m2 := 80;
     PowerTrain.household_size := 2; PowerTrain.has_solar := 0;
     PowerTrain.ev_count := 0 |}.

(** A residential profile in Porto as [create_customers] draws them,
    with a unit price of 0.25 euros per kWh. *)
Definition gen_residential : Generate.Customer :=
  {| Generate.id := "C_A1B2C3D4"; Generate.name := "Ana Silva";
     Generate.segment := "residential"; Generate.city := "Porto";
     Generate.contracted_power_kva := 3.45; Generate.tariff := "Simples";
     Generate.utility := "EDP"; Generate.price_eur_per_kwh := 0.25;
     Generate.fixed_daily_fee_eur := 0.22; Generate.has_smart_meter := 1;
     Generate.home_area_m2 := 70; Generate.household_size := 2;
     Generate.locality_type := "Urbana"; Generate.dwelling_type := "Apartamento";
     Generate.build_year_band := "2000-2014"; Generate.heating_sources := "Gás";
     Generate.has_solar := 0; Generate.ev_count := 1;
     Generate.alert_sensitivity := "Média"; Generate.main_appliances := "" |}.

(** A profile as [load_customers] may read it from a table that was not
    filled by [create_customers]: 0.03 kVA, a cap of 27.6 W. *)
Definition gen_low_power : Generate.Customer :=
  {| Generate.id := "C_LOWPOWER"; Generate.name := "Rita Costa";
     Generate.segment := "residential"; Generate.city := "Lisboa";
     Generate.contracted_power_kva := 0.03; Generate.tariff := "Simples";
     Generate.utility := "EDP"; Generate.price_eur_per_kwh := 0.2;
     Generate.fixed_daily_fee_eur := 0; Generate.has_smart_meter := 1;
     Generate.home_area_m2 := 80; Generate.household_size := 2;
     Generate.locality_type := "Urbana"; Generate.dwelling_type := "Apartamento";
     Generate.build_year_band := "2000-2014"; Generate.heating_sources := "";
     Generate.has_solar := 0; Generate.ev_count := 0;
     Generate.alert_sensitivity := "Média"; Generate.main_appliances := "" |}.

Definition train_customer : Train.Customer :=
  {| Train.id := "C_A1B2C3D4"; Train.segment := "residential";
     Train.city := "Porto"; Train.contracted_power_kva := 3.45;
     Train.tariff := "Simples"; Train.home_area_m2 := 70;
     Train.household_size := 2; Train.has_solar := 0; Train.ev_count := 1 |}.

(** [k] readings of 100 W, 15 minutes apart, without temperature. *)
Definition steady_rows (k : nat) : list Train.Row :=
  map (fun i => {| Train.row_ts := (Z.of_nat i * 15)%Z;
                   Train.row_watts := 100;
                   Train.row_temp_c := None |})
      (seq 0 k).

(** One customer with [k] readings since the cut-off. *)
Definition train_db (k : nat) : Train.Db :=
  {| Train.customers := [train_customer];
     Train.telemetry_since := fun _ => steady_rows k |}.

Definition power_customer (cid : string) : PowerTrain.Customer :=
  {| PowerTrain.id := cid; PowerTrain.segment := "residential";
     PowerTrain.contracted_power_kva := 6.9; PowerTrain.home_area_m2 := 80;
     PowerTrain.household_size := 2; PowerTrain.has_solar := 0;
     PowerTrain.ev_count := 0 |}.

(** Customers that all have telemetry, with the same 30-day statistics. *)
Definition power_db (ids : list string) : PowerTrain.Db :=
  {| PowerTrain.customers := map power_customer ids;
     PowerTrain.get_latest_ts := fun _ => Some ts_day170;
     PowerTrain.get_stats_30d := fun _ _ => (5000, 1200) |}.


(** A matrix whose first column is zero, and an invertible one. *)
Definition a_zero_column : Kernel.matrix := [[0; 1]; [0; 2]].
Definition a_diagonal : Kernel.matrix := [[2; 0]; [0; 4]].

(** Three samples of one feature whose sample deviation is exactly 1e-9. *)
Definition x_boundary : Kernel.matrix := [[1e-9]; [-1e-9]; [0]].

(** Two samples of two features. *)
Definition x_small : Kernel.matrix := [[1; 10]; [3; 10]].

(** A degenerate evaluation set: a constant target. *)
Definition y_constant : list R := [5; 5].
Definition y_around : list R := [4; 6].

End Fixtures.

(* ================================================================== *)
(** * Part II. Properties                                              *)
(* ================================================================== *)

Section NumFacts.
Local Open Scope R_scope.

Lemma py_max_Rmax (a b : R) : Num.py_max a b = Rmax a b.
Proof.
  unfold Num.py_max, Rmax.
  destruct (Rgt_dec b a), (Rle_dec a b); lra.
Qed.

Lemma py_min_Rmin (a b : R) : Num.py_min a b = Rmin a b.
Proof.
  unfold Num.py_min, Rmin.
  destruct (Rlt_dec b a), (Rle_dec a b); lra.
Qed.

Lemma py_max_lower (a b : R) : a <= Num.py_max a b.
Proof. unfold Num.py_max. destruct (Rgt_dec b a); lra. Qed.

Lemma py_max_case (a b : R) :
  (Num.py_max a b = a /\ b <= a) \/ (Num.py_max a b = b /\ a < b).
Proof. unfold Num.py_max. destruct (Rgt_dec b a); [right | left]; lra. Qed.

Lemma py_min_case (a b : R) :
  (Num.py_min a b = a /\ a <= b) \/ (Num.py_min a b = b /\ b < a).
Proof. unfold Num.py_min. destruct (Rlt_dec b a); [right | left]; lra. Qed.

Lemma ceil_spec (x : R) : IZR (Num.ceil x) - 1 < x <= IZR (Num.ceil x).
Proof.
  unfold Num.ceil. destruct (archimed (- x)) as [H1 H2].
  rewrite minus_IZR. lra.
Qed.

Lemma ceil_unique (x : R) (z : Z) : IZR z - 1 < x <= IZR z -> Num.ceil x = z.
Proof.
  intros [H1 H2]. destruct (ceil_spec x) as [H3 H4].
  assert (Hlt1 : IZR (Num.ceil x) < IZR z + 1) by lra.
  assert (Hlt2 : IZR z < IZR (Num.ceil x) + 1) by lra.
  rewrite <- plus_IZR in Hlt1, Hlt2.
  apply lt_IZR in Hlt1. apply lt_IZR in Hlt2. lia.
Qed.

End NumFacts.

(** ** The ideal-power target *)

Section IdealPower.
Import PowerTrain.
Local Open Scope R_scope.
Local Open Scope string_scope.

Lemma seg_margin_documented (c : Customer) :
  segment c = "residential" \/ segment c = "sme" \/ segment c = "industrial" ->
  seg_margin c = documented_margin (segment c).
Proof.
  unfold seg_margin, documented_margin.
  intros [E | [E | E]]; rewrite E; reflexivity.
Qed.

Lemma baseline_target (c : Customer) :
  IZR (Num.ceil (1 * (1 + seg_margin c) * 10)) / 10
  = if String.eqb (segment c) "industrial" then 1.2 else 1.1.
Proof.
  unfold seg_margin.
  destruct (String.eqb (segment c) "industrial").
  - rewrite (ceil_unique _ 12); lra.
  - destruct (String.eqb (segment c) "sme");
      rewrite (ceil_unique _ 11); lra.
Qed.

Lemma peak_kva_positive (peak : R) : 0 < peak -> peak_kva peak = (peak / 1000) / 0.85.
Proof. intros Hp. unfold peak_kva. destruct (Rgt_dec peak 0); lra. Qed.

Lemma avg_kva_positive (avg : R) : 0 < avg -> avg_kva avg = (avg / 1000) * 2.2.
Proof. intros Hp. unfold avg_kva. destruct (Rgt_dec avg 0); lra. Qed.

Lemma peak_kva_baseline (peak : R) : peak <= 0 -> peak_kva peak = 1.
Proof. intros Hp. unfold peak_kva. destruct (Rgt_dec peak 0); lra. Qed.

Lemma avg_kva_baseline (avg : R) : avg <= 0 -> avg_kva avg = 1.
Proof. intros Hp. unfold avg_kva. destruct (Rgt_dec avg 0); lra. Qed.

(** Without rounding error, for a profile of one of the three segments
    and strictly positive 30-day statistics, the target is the
    documented one: the larger of [(peak/1000)/0.85] and [(avg/1000)*2.2],
    inflated by the segment margin, rounded up to 0.1 kVA and clamped to
    [1, 60]. *)
Lemma exact_target_documented (c : Customer) (peak avg : R) :
  segment c = "residential" \/ segment c = "sme" \/ segment c = "industrial" ->
  0 < peak -> 0 < avg ->
  target_ideal_kva c peak avg = documented_ideal_kva (segment c) peak avg.
Proof.
  intros Hseg Hp Ha.
  unfold target_ideal_kva, documented_ideal_kva.
  rewrite (peak_kva_positive _ Hp), (avg_kva_positive _ Ha).
  rewrite !py_max_Rmax, py_min_Rmin, (seg_margin_documented _ Hseg).
  reflexivity.
Qed.

Lemma scenario_c : target_ideal_kva Fixtures.power_residential 5000 1200 = 6.4.
Proof.
  unfold target_ideal_kva.
  rewrite peak_kva_positive, avg_kva_positive by lra.
  replace (seg_margin Fixtures.power_residential) with 0.08 by reflexivity.
  destruct (py_max_case (5000 / 1000 / 0.85) (1200 / 1000 * 2.2)) as [[E _] | [_ Hlt]];
    [rewrite E | lra].
  rewrite (ceil_unique _ 64) by lra.
  destruct (py_max_case 1 (64 / 10)) as [[_ Hle] | [E2 _]]; [lra | rewrite E2].
  destruct (py_min_case 60 (64 / 10)) as [[_ Hle] | [E3 _]]; [lra | rewrite E3].
  lra.
Qed.

Lemma target_of_empty_window (c : Customer) (peak avg : R) :
  peak <= 0 -> avg <= 0 ->
  target_ideal_kva c peak avg = IZR (Num.ceil (1 * (1 + seg_margin c) * 10)) / 10.
Proof.
  intros Hp Ha. unfold target_ideal_kva.
  rewrite (peak_kva_baseline _ Hp), (avg_kva_baseline _ Ha).
  replace (Num.py_max 1 1) with 1
    by (unfold Num.py_max; destruct (Rgt_dec 1 1); lra).
  rewrite baseline_target.
  destruct (String.eqb (segment c) "industrial").
  - destruct (py_max_case 1 1.2) as [[_ Hle] | [E1 _]]; [lra | rewrite E1].
    destruct (py_min_case 60 1.2) as [[_ Hle] | [E2 _]]; [lra | exact E2].
  - destruct (py_max_case 1 1.1) as [[_ Hle] | [E1 _]]; [lra | rewrite E1].
    destruct (py_min_case 60 1.1) as [[_ Hle] | [E2 _]]; [lra | exact E2].
Qed.

Lemma documented_of_zero (seg : string) : documented_ideal_kva seg 0 0 = 1.
Proof.
  unfold documented_ideal_kva.
  replace (Rmax (0 / 1000 / 0.85) (0 / 1000 * 2.2)) with 0
    by (unfold Rmax; destruct (Rle_dec _ _); lra).
  rewrite (ceil_unique _ 0) by lra.
  unfold Rmax, Rmin.
  destruct (Rle_dec 1 (0 / 10)); [lra |].
  destruct (Rle_dec 60 1); lra.
Qed.

(** C5, as stated, fails on an empty 30-day window: the code sizes the
    residential profile at 1.1 kVA, the documented formula at 1 kVA. *)
Lemma target_ideal_kva_documented_counterexample :
  target_ideal_kva Fixtures.power_residential 0 0
  <> documented_ideal_kva (segment Fixtures.power_residential) 0 0.
Proof.
  rewrite target_of_empty_window by lra.
  rewrite baseline_target, documented_of_zero. simpl. lra.
Qed.

End IdealPower.

(** ** Rounding errors *)

Section RoundingFacts.
Local Open Scope R_scope.

Lemma unit_roundoff_bounds : 1e-17 <= Rounding.unit_roundoff <= 1.2e-16.
Proof.
  unfold Rounding.unit_roundoff.
  replace (2 ^ 53) with 9007199254740992 by (simpl; lra). lra.
Qed.

Lemma underflow_unit_bounds : 0 < Rounding.underflow_unit <= 1e-20.
Proof.
  unfold Rounding.underflow_unit.
  assert (Hpos : 0 < 2 ^ 1075) by (apply pow_lt; lra).
  split; [apply Rinv_0_lt_compat; exact Hpos |].
  assert (Hbig : 2 ^ 70 <= 2 ^ 1075) by (apply Rle_pow; [lra | lia]).
  assert (H70 : 2 ^ 70 = 1180591620717411303424) by (simpl; lra).
  rewrite H70 in Hbig.
  apply Rle_trans with (/ 1180591620717411303424); [| lra].
  apply Rinv_le_contravar; [lra | exact Hbig].
Qed.

Lemma exact_nearest : Rounding.nearest Rounding.exact.
Proof.
  intros x. unfold Rounding.exact. replace (x - x) with 0 by lra. rewrite Rabs_R0.
  pose proof unit_roundoff_bounds. pose proof underflow_unit_bounds.
  pose proof (Rabs_pos x). nra.
Qed.

Lemma skewed_nearest : Rounding.nearest Rounding.skewed.
Proof.
  intros x. unfold Rounding.skewed.
  replace (x * (1 + 1e-17) - x) with (1e-17 * x) by lra.
  rewrite Rabs_mult, (Rabs_right 1e-17) by lra.
  pose proof unit_roundoff_bounds. pose proof underflow_unit_bounds.
  pose proof (Rabs_pos x). nra.
Qed.

(** The error of one rounding, with the unit roundoff replaced by a
    decimal bound. *)
Lemma near (fl : R -> R) (x : R) :
  Rounding.nearest fl ->
  Rabs (fl x - x) <= 1.2e-16 * Rabs x + Rounding.underflow_unit.
Proof.
  intros Hfl. specialize (Hfl x).
  pose proof unit_roundoff_bounds. pose proof (Rabs_pos x). nra.
Qed.

Lemma near_decimal (fl : R -> R) (x : R) :
  Rounding.nearest fl -> Rabs (fl x - x) <= 1.2e-16 * Rabs x + 1e-20.
Proof.
  intros Hfl. pose proof (near fl x Hfl). pose proof underflow_unit_bounds. lra.
Qed.

Lemma Rabs_le_between (a b d : R) : Rabs (a - b) <= d <-> b - d <= a <= b + d.
Proof.
  split.
  - intros H. unfold Rabs in H. destruct (Rcase_abs (a - b)); lra.
  - intros H. apply Rabs_le. lra.
Qed.

(** The rounded product of an approximation [a] of [x >= 0] with an
    approximation [c'] of a constant [c >= 0]. *)
Lemma scale_step (fl : R -> R) (a x c' c r s t : R) :
  Rounding.nearest fl ->
  0 <= x -> 0 <= c -> 0 <= r -> 0 <= s -> 0 <= t ->
  Rabs (a - x) <= r * x + s -> Rabs (c' - c) <= t ->
  Rabs (fl (a * c') - x * c)
  <= 1.2e-16 * (((1 + r) * x + s) * (c + t)) + 1e-20
     + ((1 + r) * x + s) * t + c * (r * x + s).
Proof.
  intros Hfl Hx Hc Hr Hs Ht Ha Hc'.
  pose proof (near_decimal fl (a * c') Hfl) as Hround.
  assert (HA : Rabs a <= (1 + r) * x + s).
  { apply Rabs_le_between in Ha. apply Rabs_le. nra. }
  assert (HC : Rabs c' <= c + t).
  { apply Rabs_le_between in Hc'. apply Rabs_le. lra. }
  assert (Hprod : Rabs (a * c') <= ((1 + r) * x + s) * (c + t)).
  { rewrite Rabs_mult. apply Rmult_le_compat; try apply Rabs_pos; assumption. }
  assert (Hexact : Rabs (a * c' - x * c) <= ((1 + r) * x + s) * t + c * (r * x + s)).
  { replace (a * c' - x * c) with (a * (c' - c) + (a - x) * c) by ring.
    eapply Rle_trans; [apply Rabs_triang |]. rewrite !Rabs_mult.
    apply Rplus_le_compat.
    - apply Rmult_le_compat; try apply Rabs_pos; assumption.
    - rewrite (Rabs_right c) by lra. rewrite Rmult_comm.
      apply Rmult_le_compat_l; assumption. }
  replace (fl (a * c') - x * c)
    with ((fl (a * c') - a * c') + (a * c' - x * c)) by ring.
  eapply Rle_trans; [apply Rabs_triang |]. lra.
Qed.

End RoundingFacts.

(** ** The ideal-power target in floating-point arithmetic *)

Section RoundedIdealPower.
Import PowerTrain.
Local Open Scope R_scope.
Local Open Scope string_scope.

Variable fl : R -> R.
Hypothesis Hfl : Rounding.nearest fl.

Lemma literal_near (c : R) :
  0 <= c -> Rabs (fl c - c) <= 1.2e-16 * c + 1e-20.
Proof.
  intros Hc. pose proof (near_decimal fl c Hfl) as H.
  rewrite (Rabs_right c) in H by lra. exact H.
Qed.

Lemma inverse_near (c' : R) :
  Rabs (c' - 0.85) <= 1.1e-16 -> Rabs (/ c' - / 0.85) <= 1.6e-16.
Proof.
  intros H. apply Rabs_le_between in H.
  assert (Hpos : 0 < c') by lra.
  replace (/ c' - / 0.85) with ((0.85 - c') * (/ c' * / 0.85)) by (field; lra).
  rewrite Rabs_mult.
  assert (Hinv : / c' <= / 0.84) by (apply Rinv_le_contravar; lra).
  assert (Hinv0 : 0 < / c') by (apply Rinv_0_lt_compat; exact Hpos).
  rewrite (Rabs_right (/ c' * / 0.85)) by (apply Rle_ge; apply Rmult_le_pos; lra).
  assert (Hd : Rabs (0.85 - c') <= 1.1e-16) by (apply Rabs_le; lra).
  assert (Hq : / c' * / 0.85 <= / 0.84 * / 0.85)
    by (apply Rmult_le_compat_r; lra).
  apply Rle_trans with (1.1e-16 * (/ 0.84 * / 0.85)); [| lra].
  apply Rmult_le_compat; try apply Rabs_pos; try assumption.
  apply Rmult_le_pos; lra.
Qed.

Lemma peak_term_error (peak : R) :
  0 < peak ->
  Rabs (Rounded.peak_kva fl peak - peak / 1000 / 0.85)
  <= 4e-16 * (peak / 1000 / 0.85) + 4e-20.
Proof.
  intros Hp. unfold Rounded.peak_kva. destruct (Rgt_dec peak 0) as [_ | Hn]; [| lra].
  set (x1 := peak / 1000).
  assert (Hx1 : 0 < x1) by (unfold x1; lra).
  pose proof (literal_near x1 (Rlt_le _ _ Hx1)) as H1.
  pose proof (literal_near 0.85 ltac:(lra)) as Hc.
  assert (Hc' : Rabs (fl 0.85 - 0.85) <= 1.1e-16) by lra.
  pose proof (inverse_near _ Hc') as Hinv.
  pose proof (scale_step fl (fl x1) x1 (/ fl 0.85) (/ 0.85) 1.2e-16 1e-20 1.6e-16
                Hfl ltac:(lra) ltac:(lra) ltac:(lra) ltac:(lra) ltac:(lra) H1 Hinv)
    as Hstep.
  unfold Rdiv at 1. unfold Rdiv at 3. lra.
Qed.

Lemma avg_term_error (avg : R) :
  0 < avg ->
  Rabs (Rounded.avg_kva fl avg - avg / 1000 * 2.2)
  <= 4e-16 * (avg / 1000 * 2.2) + 4e-20.
Proof.
  intros Hp. unfold Rounded.avg_kva. destruct (Rgt_dec avg 0) as [_ | Hn]; [| lra].
  set (x1 := avg / 1000).
  assert (Hx1 : 0 < x1) by (unfold x1; lra).
  pose proof (literal_near x1 (Rlt_le _ _ Hx1)) as H1.
  pose proof (literal_near 2.2 ltac:(lra)) as Hc.
  assert (Hc' : Rabs (fl 2.2 - 2.2) <= 2.7e-16) by lra.
  pose proof (scale_step fl (fl x1) x1 (fl 2.2) 2.2 1.2e-16 1e-20 2.7e-16
                Hfl ltac:(lra) ltac:(lra) ltac:(lra) ltac:(lra) ltac:(lra) H1 Hc')
    as Hstep.
  lra.
Qed.

Lemma max_error (a b p q : R) :
  0 <= p -> 0 <= q ->
  Rabs (a - p) <= 4e-16 * p + 4e-20 ->
  Rabs (b - q) <= 4e-16 * q + 4e-20 ->
  Rabs (Num.py_max a b - Rmax p q) <= 4e-16 * Rmax p q + 4e-20.
Proof.
  intros Hp Hq Ha Hb.
  apply Rabs_le_between in Ha. apply Rabs_le_between in Hb.
  apply Rabs_le_between.
  unfold Num.py_max, Rmax.
  destruct (Rgt_dec b a), (Rle_dec p q); lra.
Qed.

Lemma margin_error (m : R) :
  0 <= m <= 0.15 -> Rabs (fl (1 + fl m) - (1 + m)) <= 1.6e-16.
Proof.
  intros Hm.
  pose proof (literal_near m ltac:(lra)) as H1.
  pose proof (near_decimal fl (1 + fl m) Hfl) as H2.
  apply Rabs_le_between in H1.
  rewrite (Rabs_right (1 + fl m)) in H2 by lra.
  apply Rabs_le_between in H2. apply Rabs_le_between. lra.
Qed.

(** The tenfold of the inflated maximum, as computed and exactly. *)
Lemma tenths_error (top top' m : R) :
  0 <= top ->
  Rabs (top' - top) <= 4e-16 * top + 4e-20 ->
  m = 0.08 \/ m = 0.10 \/ m = 0.15 ->
  Rabs (fl (fl (top' * fl (1 + fl m)) * 10) - top * (1 + m) * 10)
  <= 8.5e-16 * (top * (1 + m) * 10) + 1e-18.
Proof.
  intros Htop Herr Hm.
  assert (Hrange : 0 <= m <= 0.15) by (destruct Hm as [E | [E | E]]; lra).
  pose proof (margin_error m Hrange) as Hmargin.
  pose proof (scale_step fl top' top (fl (1 + fl m)) (1 + m) 4e-16 4e-20 1.6e-16
                Hfl Htop ltac:(lra) ltac:(lra) ltac:(lra) ltac:(lra) Herr Hmargin)
    as Hbase.
  assert (Hbase' : Rabs (fl (top' * fl (1 + fl m)) - top * (1 + m))
                   <= 7e-16 * (top * (1 + m)) + 6e-20).
  { destruct Hm as [E | [E | E]]; rewrite E in *; lra. }
  assert (Hten : Rabs (10 - 10) <= 0)
    by (replace (10 - 10) with 0 by lra; rewrite Rabs_R0; lra).
  assert (Hinfl : 0 <= top * (1 + m)) by (apply Rmult_le_pos; lra).
  pose proof (scale_step fl (fl (top' * fl (1 + fl m))) (top * (1 + m)) 10 10
                7e-16 6e-20 0
                Hfl Hinfl ltac:(lra) ltac:(lra) ltac:(lra) ltac:(lra) Hbase' Hten)
    as Hstep.
  lra.
Qed.

Lemma ceil_near (x y : R) :
  Rabs (y - x) < 1 ->
  (Num.ceil x - 1 <= Num.ceil y <= Num.ceil x + 1)%Z.
Proof.
  intros H.
  assert (H' : x - 1 < y < x + 1).
  { unfold Rabs in H. destruct (Rcase_abs (y - x)); lra. }
  pose proof (ceil_spec x) as Hx. pose proof (ceil_spec y) as Hy.
  split.
  - assert (Hlt : (Num.ceil x - 2 < Num.ceil y)%Z).
    { apply lt_IZR. rewrite minus_IZR. lra. }
    lia.
  - assert (Hlt : (Num.ceil y < Num.ceil x + 2)%Z).
    { apply lt_IZR. rewrite plus_IZR. lra. }
    lia.
Qed.

Lemma ceil_same (x y delta : R) :
  Rabs (y - x) <= delta ->
  (forall k : Z, delta < Rabs (x - IZR k)) ->
  Num.ceil y = Num.ceil x.
Proof.
  intros H Hfar. apply Rabs_le_between in H.
  pose proof (ceil_spec x) as Hx.
  pose proof (Hfar (Num.ceil x)) as Hup.
  pose proof (Hfar (Num.ceil x - 1)%Z) as Hdown.
  rewrite minus_IZR in Hdown.
  rewrite Rabs_left1 in Hup by lra.
  rewrite Rabs_right in Hdown by lra.
  apply ceil_unique. lra.
Qed.

Lemma grid_error (z : Z) :
  Rabs (fl (fl (IZR z) / 10) - IZR z / 10) <= 2.5e-17 * Rabs (IZR z) + 2e-20.
Proof.
  pose proof (near_decimal fl (IZR z) Hfl) as H1.
  pose proof (near_decimal fl (fl (IZR z) / 10) Hfl) as H2.
  pose proof (Rabs_pos (IZR z)) as Hpos.
  assert (Hsize : Rabs (fl (IZR z)) <= Rabs (IZR z) + (1.2e-16 * Rabs (IZR z) + 1e-20)).
  { replace (fl (IZR z)) with (IZR z + (fl (IZR z) - IZR z)) at 1 by ring.
    eapply Rle_trans; [apply Rabs_triang |]. lra. }
  assert (Hq : Rabs (fl (IZR z) / 10) = Rabs (fl (IZR z)) / 10).
  { unfold Rdiv. rewrite Rabs_mult, (Rabs_right (/ 10)) by lra. reflexivity. }
  assert (Hd : Rabs ((fl (IZR z) - IZR z) / 10) = Rabs (fl (IZR z) - IZR z) / 10).
  { unfold Rdiv. rewrite Rabs_mult, (Rabs_right (/ 10)) by lra. reflexivity. }
  replace (fl (fl (IZR z) / 10) - IZR z / 10)
    with ((fl (fl (IZR z) / 10) - fl (IZR z) / 10) + (fl (IZR z) - IZR z) / 10)
    by field.
  eapply Rle_trans; [apply Rabs_triang |]. lra.
Qed.

Lemma clamp_lipschitz (a b : R) :
  Rabs (Num.py_min 60 (Num.py_max 1 a) - Rmin 60 (Rmax 1 b)) <= Rabs (a - b).
Proof.
  rewrite py_min_Rmin, py_max_Rmax.
  apply Rabs_le_between.
  assert (H : b - Rabs (a - b) <= a <= b + Rabs (a - b)).
  { unfold Rabs. destruct (Rcase_abs (a - b)); lra. }
  revert H. generalize (Rabs (a - b)). intros d H.
  unfold Rmin, Rmax.
  destruct (Rle_dec 1 a), (Rle_dec 1 b);
    repeat match goal with
           | |- context [Rle_dec ?u ?v] => destruct (Rle_dec u v)
           end; lra.
Qed.

Lemma clamp_saturated (a : R) : 60 <= a -> Num.py_min 60 (Num.py_max 1 a) = 60.
Proof.
  intros Ha. unfold Num.py_max, Num.py_min.
  destruct (Rgt_dec a 1); [| lra]. destruct (Rlt_dec a 60); lra.
Qed.

Lemma documented_saturated (b : R) : 60 <= b -> Rmin 60 (Rmax 1 b) = 60.
Proof.
  intros Hb. unfold Rmin, Rmax.
  destruct (Rle_dec 1 b); [| lra]. destruct (Rle_dec 60 b); lra.
Qed.

(** From the tenfold to the target: a step of 0.1 at most, none when the
    exact tenfold is not within [1e-11] of an integer. *)
Lemma sized_error (t t' : R) :
  0 <= t ->
  Rabs (t' - t) <= 8.5e-16 * t + 1e-18 ->
  let code := Num.py_min 60 (Num.py_max 1 (fl (fl (IZR (Num.ceil t')) / 10))) in
  let doc := Rmin 60 (Rmax 1 (IZR (Num.ceil t) / 10)) in
  Rabs (code - doc) <= 0.1 + 1e-13
  /\ ((forall k : Z, 1e-11 < Rabs (t - IZR k)) -> Rabs (code - doc) <= 1e-13).
Proof.
  intros Ht Herr code doc. subst code doc.
  destruct (Rle_dec t 700) as [Hsmall | Hlarge].
  - assert (Hclose : Rabs (t' - t) <= 6e-13) by lra.
    pose proof (ceil_spec t) as Hk.
    assert (Hnear : (Num.ceil t - 1 <= Num.ceil t' <= Num.ceil t + 1)%Z)
      by (apply ceil_near; lra).
    assert (Hk0 : -1 < IZR (Num.ceil t) < 701) by lra.
    assert (Hlo : IZR (Num.ceil t) - 1 <= IZR (Num.ceil t')).
    { rewrite <- (minus_IZR _ 1). apply IZR_le. lia. }
    assert (Hhi : IZR (Num.ceil t') <= IZR (Num.ceil t) + 1).
    { rewrite <- (plus_IZR _ 1). apply IZR_le. lia. }
    assert (Hz : Rabs (IZR (Num.ceil t')) <= 1000) by (apply Rabs_le; lra).
    pose proof (grid_error (Num.ceil t')) as Hgrid.
    assert (Hgrid' : Rabs (fl (fl (IZR (Num.ceil t')) / 10) - IZR (Num.ceil t') / 10)
                     <= 1e-13) by lra.
    clear Hgrid. apply Rabs_le_between in Hgrid'.
    split.
    + eapply Rle_trans; [apply clamp_lipschitz |]. apply Rabs_le. lra.
    + intros Hfar.
      assert (E : Num.ceil t' = Num.ceil t).
      { apply (ceil_same t t' 6e-13 Hclose). intros k. specialize (Hfar k). lra. }
      rewrite E in *.
      eapply Rle_trans; [apply clamp_lipschitz |]. apply Rabs_le. lra.
  - assert (Hbig : 700 < t) by lra.
    apply Rabs_le_between in Herr.
    pose proof (ceil_spec t) as Hk. pose proof (ceil_spec t') as Hk'.
    assert (Hz : 699 <= IZR (Num.ceil t')) by lra.
    pose proof (near_decimal fl (IZR (Num.ceil t')) Hfl) as H1.
    rewrite (Rabs_right (IZR (Num.ceil t'))) in H1 by lra.
    apply Rabs_le_between in H1.
    pose proof (near_decimal fl (fl (IZR (Num.ceil t')) / 10) Hfl) as H2.
    rewrite (Rabs_right (fl (IZR (Num.ceil t')) / 10)) in H2 by lra.
    apply Rabs_le_between in H2.
    rewrite clamp_saturated by lra.
    rewrite documented_saturated by lra.
    replace (60 - 60) with 0 by lra. rewrite Rabs_R0. split; [lra | intros _; lra].
Qed.


Lemma seg_margin_cases (c : Customer) :
  (seg_margin c = 0.08 \/ seg_margin c = 0.10 \/ seg_margin c = 0.15)
  /\ Rounded.seg_margin fl c = fl (seg_margin c).
Proof.
  unfold seg_margin, Rounded.seg_margin.
  destruct (String.eqb (segment c) "industrial"); [auto |].
  destruct (String.eqb (segment c) "sme"); auto.
Qed.

Lemma peak_kva_error (peak : R) :
  0 <= peak_kva peak
  /\ Rabs (Rounded.peak_kva fl peak - peak_kva peak) <= 4e-16 * peak_kva peak + 4e-20.
Proof.
  destruct (Rle_dec peak 0) as [Hle | Hgt].
  - rewrite (peak_kva_baseline _ Hle).
    unfold Rounded.peak_kva. destruct (Rgt_dec peak 0); [lra |].
    replace (1 - 1) with 0 by lra. rewrite Rabs_R0. lra.
  - assert (Hp : 0 < peak) by lra.
    rewrite (peak_kva_positive _ Hp).
    split; [| apply peak_term_error; exact Hp].
    apply Rlt_le. apply Rdiv_lt_0_compat; lra.
Qed.

Lemma avg_kva_error (avg : R) :
  0 <= avg_kva avg
  /\ Rabs (Rounded.avg_kva fl avg - avg_kva avg) <= 4e-16 * avg_kva avg + 4e-20.
Proof.
  destruct (Rle_dec avg 0) as [Hle | Hgt].
  - rewrite (avg_kva_baseline _ Hle).
    unfold Rounded.avg_kva. destruct (Rgt_dec avg 0); [lra |].
    replace (1 - 1) with 0 by lra. rewrite Rabs_R0. lra.
  - assert (Hp : 0 < avg) by lra.
    rewrite (avg_kva_positive _ Hp).
    split; [| apply avg_term_error; exact Hp]. lra.
Qed.

(** The target computed in floating point against the target computed
    without rounding error: at most one step of 0.1 kVA apart, and equal
    up to the rounding of the last division when the tenfold that is
    rounded up is not within [1e-11] of an integer. *)
Lemma rounded_target_error (c : Customer) (peak avg : R) :
  let tenths := Rmax (peak_kva peak) (avg_kva avg) * (1 + seg_margin c) * 10 in
  Rabs (Rounded.target_ideal_kva fl c peak avg - target_ideal_kva c peak avg)
  <= 0.1 + 1e-13
  /\ ((forall k : Z, 1e-11 < Rabs (tenths - IZR k)) ->
      Rabs (Rounded.target_ideal_kva fl c peak avg - target_ideal_kva c peak avg)
      <= 1e-13).
Proof.
  intros tenths.
  destruct (peak_kva_error peak) as [Hp0 Hp].
  destruct (avg_kva_error avg) as [Ha0 Ha].
  destruct (seg_margin_cases c) as [Hm Hmf].
  pose proof (max_error _ _ _ _ Hp0 Ha0 Hp Ha) as Hmax.
  assert (Htop : 0 <= Rmax (peak_kva peak) (avg_kva avg)).
  { apply Rle_trans with (peak_kva peak); [exact Hp0 | apply Rmax_l]. }
  pose proof (tenths_error _ _ _ Htop Hmax Hm) as Hten.
  fold tenths in Hten.
  assert (Ht0 : 0 <= tenths).
  { unfold tenths. apply Rmult_le_pos; [apply Rmult_le_pos |]; try lra.
    all: destruct Hm as [E | [E | E]]; lra. }
  pose proof (sized_error _ _ Ht0 Hten) as Hsized. cbv zeta in Hsized.
  unfold Rounded.target_ideal_kva, Rounded.sized, target_ideal_kva.
  rewrite Hmf, (py_min_Rmin 60 (Num.py_max 1 (IZR _ / 10))),
    (py_max_Rmax 1 (IZR _ / 10)), (py_max_Rmax (peak_kva peak)).
  exact Hsized.
Qed.

End RoundedIdealPower.

Section RoundedBaseline.
Import PowerTrain.
Local Open Scope R_scope.
Local Open Scope string_scope.

Variable fl : R -> R.
Hypothesis Hfl : Rounding.nearest fl.

Lemma py_max_one_one : Num.py_max 1 1 = 1.
Proof. unfold Num.py_max. destruct (Rgt_dec 1 1); lra. Qed.

(** The empty window: the ceiling lands on 11 or 12 tenths. *)
Lemma empty_window_grid (c : Customer) :
  exists z : Z,
    z = Num.ceil (fl (fl (1 * fl (1 + Rounded.seg_margin fl c)) * 10))
    /\ (11 <= z <= 12)%Z
    /\ (seg_margin c = 0.08 -> z = 11%Z)
    /\ (seg_margin c = 0.15 -> z = 12%Z)
    /\ Rounded.sized fl c 1 1 = fl (fl (IZR z) / 10)
    /\ Rabs (Rounded.sized fl c 1 1 - IZR z / 10) <= 1e-15.
Proof.
  destruct (seg_margin_cases fl c) as [Hm Hmf].
  assert (Hone : Rabs (1 - 1) <= 4e-16 * 1 + 4e-20)
    by (replace (1 - 1) with 0 by lra; rewrite Rabs_R0; lra).
  pose proof (tenths_error fl Hfl 1 1 (seg_margin c) ltac:(lra) Hone Hm) as Hten.
  unfold Rounded.sized. rewrite py_max_one_one, Hmf.
  set (t' := fl (fl (1 * fl (1 + fl (seg_margin c))) * 10)) in *.
  pose proof (ceil_spec t') as Hz.
  apply Rabs_le_between in Hten.
  assert (Hrange : 10.7 <= t' <= 11.6) by (destruct Hm as [E | [E | E]]; rewrite E in Hten; lra).
  assert (Hlo : (10 < Num.ceil t')%Z) by (apply lt_IZR; lra).
  assert (Hhi : (Num.ceil t' < 13)%Z) by (apply lt_IZR; lra).
  exists (Num.ceil t').
  split; [reflexivity |].
  split; [lia |].
  split.
  { intros E. rewrite E in Hten.
    assert (Hlt : (Num.ceil t' < 12)%Z) by (apply lt_IZR; lra). lia. }
  split.
  { intros E. rewrite E in Hten.
    assert (Hlt : (11 < Num.ceil t')%Z) by (apply lt_IZR; lra). lia. }
  pose proof (grid_error fl Hfl (Num.ceil t')) as Hgrid.
  assert (Hz1 : 11 <= IZR (Num.ceil t')) by (apply IZR_le; lia).
  assert (Hz2 : IZR (Num.ceil t') <= 12) by (apply IZR_le; lia).
  rewrite (Rabs_right (IZR (Num.ceil t'))) in Hgrid by lra.
  assert (Hgrid' : Rabs (fl (fl (IZR (Num.ceil t')) / 10) - IZR (Num.ceil t') / 10) <= 1e-15)
    by lra.
  clear Hgrid. set (kva := fl (fl (IZR (Num.ceil t')) / 10)) in *.
  assert (Hk : 1 < kva < 60) by (apply Rabs_le_between in Hgrid'; lra).
  unfold Num.py_max, Num.py_min.
  destruct (Rgt_dec kva 1); [| lra]. destruct (Rlt_dec kva 60); [| lra].
  split; [reflexivity | exact Hgrid'].
Qed.

Lemma small_average_overridden (avg : R) :
  avg <= 450 -> Num.py_max 1 (Rounded.avg_kva fl avg) = 1.
Proof.
  intros Ha. destruct (avg_kva_error fl Hfl avg) as [_ Herr].
  apply Rabs_le_between in Herr.
  assert (Hexact : avg_kva avg <= 1).
  { unfold avg_kva. destruct (Rgt_dec avg 0); lra. }
  unfold Num.py_max. destruct (Rgt_dec (Rounded.avg_kva fl avg) 1) as [Hgt | _]; [| reflexivity].
  assert (Hpos : 0 < avg).
  { destruct (Rle_dec avg 0) as [Hle | Hn]; [| lra].
    unfold Rounded.avg_kva in Hgt. destruct (Rgt_dec avg 0); lra. }
  rewrite (avg_kva_positive _ Hpos) in Herr. lra.
Qed.

Lemma small_peak_overridden (peak : R) :
  peak <= 840 -> Num.py_max (Rounded.peak_kva fl peak) 1 = 1.
Proof.
  intros Hp. destruct (peak_kva_error fl Hfl peak) as [_ Herr].
  apply Rabs_le_between in Herr.
  unfold Num.py_max. destruct (Rgt_dec 1 (Rounded.peak_kva fl peak)) as [_ | Hn]; [reflexivity |].
  destruct (Rle_dec peak 0) as [Hle | Hgt].
  - unfold Rounded.peak_kva. destruct (Rgt_dec peak 0); [lra | reflexivity].
  - assert (Hpos : 0 < peak) by lra.
    rewrite (peak_kva_positive _ Hpos) in Herr. lra.
Qed.

End RoundedBaseline.

Section RoundedTarget.
Import PowerTrain.
Local Open Scope R_scope.
Local Open Scope string_scope.

(** Without rounding error the floating-point target is the target of
    the exact model. *)
Lemma exact_target_ideal_kva (c : Customer) (peak avg : R) :
  Rounded.target_ideal_kva Rounding.exact c peak avg = target_ideal_kva c peak avg.
Proof. reflexivity. Qed.

Lemma documented_tenths_exact (c : Customer) (peak avg : R) :
  segment c = "residential" \/ segment c = "sme" \/ segment c = "industrial" ->
  0 < peak -> 0 < avg ->
  Rmax (peak_kva peak) (avg_kva avg) * (1 + seg_margin c) * 10
  = documented_tenths (segment c) peak avg.
Proof.
  intros Hseg Hp Ha. unfold documented_tenths.
  rewrite (peak_kva_positive _ Hp), (avg_kva_positive _ Ha),
    (seg_margin_documented _ Hseg).
  reflexivity.
Qed.

(** C5, as amended.  For a profile of one of the three segments and
    strictly positive 30-day statistics, the target computed in
    floating-point arithmetic (any rounding to nearest, nothing
    overflowing) is the documented one, the larger of [(peak/1000)/0.85]
    and [(avg/1000)*2.2] inflated by the segment margin, rounded up to
    0.1 kVA and clamped to [1, 60], up to one step of 0.1 kVA; the two
    agree up to [1e-13] whenever ten times the inflated maximum is not
    within [1e-11] of an integer, where the rounding of the product
    cannot move the ceiling. *)
Theorem target_ideal_kva_documented (fl : R -> R) (c : Customer) (peak avg : R) :
  Rounding.nearest fl ->
  segment c = "residential" \/ segment c = "sme" \/ segment c = "industrial" ->
  0 < peak -> 0 < avg ->
  Rabs (Rounded.target_ideal_kva fl c peak avg
        - documented_ideal_kva (segment c) peak avg) <= 0.1 + 1e-13
  /\ ((forall k : Z, 1e-11 < Rabs (documented_tenths (segment c) peak avg - IZR k)) ->
      Rabs (Rounded.target_ideal_kva fl c peak avg
            - documented_ideal_kva (segment c) peak avg) <= 1e-13).
Proof.
  intros Hfl Hseg Hp Ha.
  rewrite <- (exact_target_documented c peak avg Hseg Hp Ha).
  destruct (rounded_target_error fl Hfl c peak avg) as [Hstep Hsame].
  split; [exact Hstep |].
  intros Hfar. apply Hsame. intros k.
  rewrite (documented_tenths_exact c peak avg Hseg Hp Ha). apply Hfar.
Qed.

Lemma scenario_c_tenths (k : Z) :
  1e-11 < Rabs (documented_tenths "residential" 5000 1200 - IZR k).
Proof.
  unfold documented_tenths.
  replace (documented_margin "residential") with 0.08 by reflexivity.
  replace (Rmax (5000 / 1000 / 0.85) (1200 / 1000 * 2.2)) with (5000 / 1000 / 0.85)
    by (unfold Rmax; destruct (Rle_dec _ _); lra).
  destruct (Z_le_gt_dec k 63) as [Hle | Hgt].
  - apply IZR_le in Hle. rewrite Rabs_right by lra. lra.
  - assert (Hge : (64 <= k)%Z) by lia. apply IZR_le in Hge.
    rewrite Rabs_left by lra. lra.
Qed.

(** Scenario C of the design document under a rounding that overshoots:
    a residential profile with a peak of 5000 W and an average of 1200 W
    is sized at the documented 6.4 kVA up to [1e-13]. *)
Lemma target_ideal_kva_documented_witness :
  Rabs (Rounded.target_ideal_kva Rounding.skewed Fixtures.power_residential 5000 1200
        - documented_ideal_kva "residential" 5000 1200) <= 1e-13.
Proof.
  apply (target_ideal_kva_documented Rounding.skewed Fixtures.power_residential 5000 1200).
  - exact skewed_nearest.
  - left. reflexivity.
  - lra.
  - lra.
  - exact scenario_c_tenths.
Defined.

(** A peak of 6375 W gives a product of exactly 81 tenths; a rounding
    that overshoots pushes it over the integer and the target to 8.2 kVA,
    one step above the documented 8.1 kVA. *)
Lemma target_ideal_kva_one_step_above :
  documented_ideal_kva "residential" 6375 1200 = 8.1
  /\ 8.2 <= Rounded.target_ideal_kva Rounding.skewed Fixtures.power_residential 6375 1200.
Proof.
  split.
  - unfold documented_ideal_kva.
    replace (documented_margin "residential") with 0.08 by reflexivity.
    replace (Rmax (6375 / 1000 / 0.85) (1200 / 1000 * 2.2)) with 7.5
      by (unfold Rmax; destruct (Rle_dec _ _); lra).
    rewrite (ceil_unique _ 81) by lra.
    unfold Rmax, Rmin.
    destruct (Rle_dec 1 (81 / 10)); [| lra]. destruct (Rle_dec 60 (81 / 10)); lra.
  - unfold Rounded.target_ideal_kva, Rounded.sized, Rounded.peak_kva, Rounded.avg_kva.
    destruct (Rgt_dec 6375 0); [| lra]. destruct (Rgt_dec 1200 0); [| lra].
    replace (Rounded.seg_margin Rounding.skewed Fixtures.power_residential)
      with (Rounding.skewed 0.08) by reflexivity.
    unfold Rounding.skewed.
    destruct (py_max_case (6375 / 1000 * (1 + 1e-17) / (0.85 * (1 + 1e-17)) * (1 + 1e-17))
                (1200 / 1000 * (1 + 1e-17) * (2.2 * (1 + 1e-17)) * (1 + 1e-17)))
      as [[E _] | [_ Hlt]]; [rewrite E | lra].
    rewrite (ceil_unique _ 82) by lra.
    destruct (py_max_case 1 (82 * (1 + 1e-17) / 10 * (1 + 1e-17))) as [[_ Hle] | [E2 _]];
      [lra | rewrite E2].
    destruct (py_min_case 60 (82 * (1 + 1e-17) / 10 * (1 + 1e-17))) as [[_ Hle] | [E3 _]];
      [lra | rewrite E3].
    lra.
Qed.

(** C10.  A statistic that is not positive is replaced by the 1.0 kVA
    baseline before the maximum and the margin, in floating-point
    arithmetic (any rounding to nearest, nothing overflowing).  With a
    peak that is not positive the target is the maximum-and-margin step
    applied to 1 and the average term, which is the documented formula
    at a peak of 850 W (the peak whose term is 1) up to one step; with
    an average that is not positive it is that step applied to the peak
    term and 1, the documented formula at an average of 5000/11 W.  An
    average up to 450 W or a peak up to 840 W is overridden by the
    baseline of the other, missing, statistic.  On the empty window the
    target is [ceil(1.0 * (1 + margin) * 10) / 10] as floats evaluate
    it: 1.1 for a residential profile and 1.2 for an industrial one up
    to [1e-15], 1.1 or 1.2 for an SME profile, whose product is the
    integer 11 and falls to either side with the rounding; never the 1
    of the zero-valued formula. *)
Theorem target_ideal_kva_baseline (fl : R -> R) (c : Customer) (peak avg : R) :
  Rounding.nearest fl ->
  (peak <= 0 ->
   Rounded.target_ideal_kva fl c peak avg
   = Rounded.sized fl c 1 (Rounded.avg_kva fl avg))
  /\ (avg <= 0 ->
      Rounded.target_ideal_kva fl c peak avg
      = Rounded.sized fl c (Rounded.peak_kva fl peak) 1)
  /\ (segment c = "residential" \/ segment c = "sme" \/ segment c = "industrial" ->
      (peak <= 0 -> 0 < avg ->
       Rabs (Rounded.target_ideal_kva fl c peak avg
             - documented_ideal_kva (segment c) 850 avg) <= 0.1 + 1e-13)
      /\ (avg <= 0 -> 0 < peak ->
          Rabs (Rounded.target_ideal_kva fl c peak avg
                - documented_ideal_kva (segment c) peak (5000 / 11)) <= 0.1 + 1e-13))
  /\ (peak <= 0 -> avg <= 450 ->
      Rounded.target_ideal_kva fl c peak avg = Rounded.target_ideal_kva fl c 0 0)
  /\ (avg <= 0 -> peak <= 840 ->
      Rounded.target_ideal_kva fl c peak avg = Rounded.target_ideal_kva fl c 0 0)
  /\ (peak <= 0 -> avg <= 0 ->
      Rounded.target_ideal_kva fl c peak avg
      = fl (fl (IZR (Num.ceil (fl (fl (1 * fl (1 + Rounded.seg_margin fl c)) * 10))))
            / 10))
  /\ (segment c = "residential" ->
      Rabs (Rounded.target_ideal_kva fl c 0 0 - 1.1) <= 1e-15)
  /\ (segment c = "industrial" ->
      Rabs (Rounded.target_ideal_kva fl c 0 0 - 1.2) <= 1e-15)
  /\ (segment c = "sme" ->
      Rabs (Rounded.target_ideal_kva fl c 0 0 - 1.1) <= 1e-15
      \/ Rabs (Rounded.target_ideal_kva fl c 0 0 - 1.2) <= 1e-15)
  /\ Rounded.target_ideal_kva fl c 0 0 <> documented_ideal_kva (segment c) 0 0.
Proof.
  intros Hfl.
  assert (Hpeak : forall p, p <= 0 -> Rounded.peak_kva fl p = 1).
  { intros p Hp. unfold Rounded.peak_kva. destruct (Rgt_dec p 0); [lra | reflexivity]. }
  assert (Havg : forall a, a <= 0 -> Rounded.avg_kva fl a = 1).
  { intros a Ha. unfold Rounded.avg_kva. destruct (Rgt_dec a 0); [lra | reflexivity]. }
  assert (Hempty : Rounded.target_ideal_kva fl c 0 0 = Rounded.sized fl c 1 1).
  { unfold Rounded.target_ideal_kva. rewrite Hpeak, Havg by lra. reflexivity. }
  destruct (empty_window_grid fl Hfl c) as (z & Hceil & Hz & Hres & Hind & Hsame & Hgrid).
  split.
  { intros Hp. unfold Rounded.target_ideal_kva. rewrite (Hpeak _ Hp). reflexivity. }
  split.
  { intros Ha. unfold Rounded.target_ideal_kva. rewrite (Havg _ Ha). reflexivity. }
  split.
  { intros Hseg. split.
    - intros Hp Ha.
      rewrite <- (exact_target_documented c 850 avg Hseg ltac:(lra) Ha).
      replace (target_ideal_kva c 850 avg) with (target_ideal_kva c peak avg).
      + apply (rounded_target_error fl Hfl c peak avg).
      + unfold target_ideal_kva.
        rewrite (peak_kva_baseline _ Hp), (peak_kva_positive 850) by lra.
        replace (850 / 1000 / 0.85) with 1 by lra. reflexivity.
    - intros Ha Hp.
      rewrite <- (exact_target_documented c peak (5000 / 11) Hseg Hp ltac:(lra)).
      replace (target_ideal_kva c peak (5000 / 11)) with (target_ideal_kva c peak avg).
      + apply (rounded_target_error fl Hfl c peak avg).
      + unfold target_ideal_kva.
        rewrite (avg_kva_baseline _ Ha), (avg_kva_positive (5000 / 11)) by lra.
        replace (5000 / 11 / 1000 * 2.2) with 1 by lra. reflexivity. }
  split.
  { intros Hp Ha. rewrite Hempty.
    unfold Rounded.target_ideal_kva, Rounded.sized.
    rewrite (Hpeak _ Hp), (small_average_overridden fl Hfl avg Ha), py_max_one_one.
    reflexivity. }
  split.
  { intros Ha Hp. rewrite Hempty.
    unfold Rounded.target_ideal_kva, Rounded.sized.
    rewrite (Havg _ Ha), (small_peak_overridden fl Hfl peak Hp), py_max_one_one.
    reflexivity. }
  split.
  { intros Hp Ha. unfold Rounded.target_ideal_kva.
    rewrite (Hpeak _ Hp), (Havg _ Ha), Hsame, Hceil. reflexivity. }
  rewrite Hempty.
  split.
  { intros E. rewrite Hres in Hgrid; [exact Hgrid |].
    unfold seg_margin. rewrite E. reflexivity. }
  split.
  { intros E. rewrite Hind in Hgrid; [exact Hgrid |].
    unfold seg_margin. rewrite E. reflexivity. }
  split.
  { intros _. assert (Hcases : z = 11%Z \/ z = 12%Z) by lia.
    destruct Hcases as [E | E]; rewrite E in Hgrid; [left | right]; exact Hgrid. }
  rewrite documented_of_zero.
  assert (H11 : 11 <= IZR z) by (apply IZR_le; lia).
  apply Rabs_le_between in Hgrid. lra.
Qed.

(** A residential profile without a peak and with an average of 300 W
    is sized as on the empty window, at 1.1 kVA. *)
Lemma target_ideal_kva_baseline_witness :
  Rounded.target_ideal_kva Rounding.skewed Fixtures.power_residential 0 300
  = Rounded.target_ideal_kva Rounding.skewed Fixtures.power_residential 0 0
  /\ Rabs (Rounded.target_ideal_kva Rounding.skewed Fixtures.power_residential 0 0 - 1.1)
     <= 1e-15.
Proof.
  pose proof (target_ideal_kva_baseline Rounding.skewed Fixtures.power_residential 0 300
                skewed_nearest)
    as (_ & _ & _ & Hsmall & _ & _ & Hres & _).
  split.
  - apply Hsmall; lra.
  - apply Hres. reflexivity.
Defined.

(** In floating-point arithmetic (any rounding to nearest, nothing
    overflowing) the target lies in [1, 60] and, for every profile and
    all statistics, is at most one step of 0.1 kVA away from the target
    computed without rounding error; the two agree up to [1e-13] when
    the tenfold that is rounded up is not within [1e-11] of an integer. *)
Theorem rounded_target_close (fl : R -> R) (c : Customer) (peak avg : R) :
  Rounding.nearest fl ->
  1 <= Rounded.target_ideal_kva fl c peak avg <= 60
  /\ Rabs (Rounded.target_ideal_kva fl c peak avg - target_ideal_kva c peak avg)
     <= 0.1 + 1e-13
  /\ ((forall k : Z,
         1e-11 < Rabs (Num.py_max (peak_kva peak) (avg_kva avg)
                       * (1 + seg_margin c) * 10 - IZR k)) ->
      Rabs (Rounded.target_ideal_kva fl c peak avg - target_ideal_kva c peak avg)
      <= 1e-13).
Proof.
  intros Hfl. split.
  - unfold Rounded.target_ideal_kva, Rounded.sized. cbv zeta.
    match goal with
    | |- _ <= Num.py_min 60 (Num.py_max 1 ?k) <= _ =>
        pose proof (py_max_lower 1 k) as Hlow;
        destruct (py_min_case 60 (Num.py_max 1 k)) as [[E _] | [E Hlt]];
        rewrite E; lra
    end.
  - rewrite py_max_Rmax. exact (rounded_target_error fl Hfl c peak avg).
Qed.

(** The peak of 6375 W again: one step apart, no more. *)
Lemma rounded_target_close_witness :
  Rabs (Rounded.target_ideal_kva Rounding.skewed Fixtures.power_residential 6375 1200
        - target_ideal_kva Fixtures.power_residential 6375 1200)
  <= 0.1 + 1e-13.
Proof.
  apply (rounded_target_close Rounding.skewed Fixtures.power_residential 6375 1200).
  exact skewed_nearest.
Defined.

End RoundedTarget.

(** ** Loops that may raise *)

Section ResultFacts.

Lemma zip_strict_ok {A B : Type} (a : list A) (b : list B) :
  length a = length b -> zip_strict a b = Ok (combine a b).
Proof.
  revert b. induction a as [| x a IH]; intros [| y b] Hlen; simpl in *;
    try discriminate; [reflexivity |].
  rewrite IH by lia. reflexivity.
Qed.

Lemma zip_strict_inv {A B : Type} (a : list A) (b : list B) (ps : list (A * B)) :
  zip_strict a b = Ok ps -> length a = length b /\ ps = combine a b.
Proof.
  revert b ps. induction a as [| x a IH]; intros [| y b] ps Hz; simpl in *;
    try discriminate.
  - inversion Hz. split; reflexivity.
  - destruct (zip_strict a b) as [qs |] eqn:E; [| discriminate].
    inversion Hz; subst. destruct (IH _ _ E) as [Hl Hq]. subst. split; congruence.
Qed.

Lemma zip_strict_mismatch {A B : Type} (a : list A) (b : list B) :
  length a <> length b -> zip_strict a b = Raise ZipLengthMismatch.
Proof.
  revert b. induction a as [| x a IH]; intros [| y b] Hlen; simpl in *;
    try reflexivity; try congruence.
  rewrite IH by lia. reflexivity.
Qed.

Lemma mapM_length {A B : Type} (f : A -> result B) (l : list A) (bs : list B) :
  mapM f l = Ok bs -> length bs = length l.
Proof.
  revert bs. induction l as [| a l IH]; intros bs Hm; simpl in *.
  - inversion Hm. reflexivity.
  - destruct (f a); [| discriminate].
    destruct (mapM f l) as [bs' |]; [| discriminate].
    inversion Hm; subst. simpl. f_equal. apply IH. reflexivity.
Qed.

Lemma mapM_ok {A B : Type} (f : A -> result B) (g : A -> B) (l : list A) :
  (forall a, In a l -> f a = Ok (g a)) -> mapM f l = Ok (map g l).
Proof.
  induction l as [| a l IH]; intros Hf; simpl; [reflexivity |].
  rewrite (Hf a) by (left; reflexivity).
  rewrite IH by (intros; apply Hf; right; assumption). reflexivity.
Qed.

Lemma foldM_app {A S : Type} (f : S -> A -> result S) (l1 l2 : list A) (s : S) :
  foldM f (l1 ++ l2) s = bind (foldM f l1 s) (foldM f l2).
Proof.
  revert s. induction l1 as [| a l1 IH]; intros s; simpl; [reflexivity |].
  destruct (f s a); [apply IH | reflexivity].
Qed.

End ResultFacts.

(** ** Small runs of the definitions *)

Section Runs.
Import Kernel.
Local Open Scope R_scope.

Example day170_is_a_tuesday_evening :
  Calendar.tm_yday Fixtures.ts_day170 = 170%Z
  /\ Calendar.weekday Fixtures.ts_day170 = 1%Z
  /\ Calendar.hour Fixtures.ts_day170 = 20%Z
  /\ Calendar.minute Fixtures.ts_day170 = 30%Z.
Proof. repeat split; reflexivity. Qed.

Example leap_day_and_new_year :
  Calendar.tm_yday ((19723 + 59) * 1440)%Z = 60%Z      (* 2024-02-29 *)
  /\ Calendar.tm_yday ((19723 + 365) * 1440)%Z = 366%Z (* 2024-12-31 *)
  /\ Calendar.tm_yday ((19723 + 366) * 1440)%Z = 1%Z   (* 2025-01-01 *)
  /\ Calendar.weekday 0%Z = 3%Z.                     (* 1970-01-01, a Thursday *)
Proof. repeat split; reflexivity. Qed.

Example dot_product : dot [1; 2] [3; 4] = Ok (0 + 1 * 3 + 2 * 4).
Proof. reflexivity. Qed.

Example dot_mismatch : dot [1; 2] [3] = Raise ZipLengthMismatch.
Proof. reflexivity. Qed.

Example transpose_2x3 :
  mat_transpose [[1; 2; 3]; [4; 5; 6]] = Ok [[1; 4]; [2; 5]; [3; 6]].
Proof. reflexivity. Qed.

Example transpose_ragged : mat_transpose [[1; 2]; [3]] = Raise ZipLengthMismatch.
Proof. reflexivity. Qed.

Example standardize_empty : standardize [] = Raise IndexOutOfRange.
Proof. reflexivity. Qed.

Example standardize_ragged : standardize [[1]; [2; 3]] = Raise IndexOutOfRange.
Proof. reflexivity. Qed.

Example metrics_empty : Train.metrics [] [] = Raise ZeroDivision.
Proof. reflexivity. Qed.

End Runs.

(** ** The coefficient of determination *)

Section RSquared.
Import Kernel.
Local Open Scope R_scope.

(** [ai_power_train.metrics] reports the documented coefficient. *)
Lemma power_metrics_r2 (y_true y_pred : list R) :
  length y_true = length y_pred -> y_true <> [] ->
  exists m, PowerTrain.metrics y_true y_pred = Ok m
            /\ r2 m = Documented.r_squared y_true y_pred.
Proof.
  intros Hlen Hne. unfold PowerTrain.metrics.
  rewrite (zip_strict_ok _ _ Hlen). cbn [bind].
  destruct (Nat.eqb (length y_true) 0) eqn:E.
  { apply Nat.eqb_eq, length_zero_iff_nil in E. congruence. }
  eexists. split; [reflexivity |]. reflexivity.
Qed.

(** [ai_train.metrics] reports [1 - SS_res/SS_tot] for a target that
    varies, and 1 for a degenerate one. *)
Lemma train_metrics_r2 (y_true y_pred : list R) :
  length y_true = length y_pred -> y_true <> [] ->
  exists m, Train.metrics y_true y_pred = Ok m
            /\ r2 m = if Rgt_dec (Documented.ss_tot y_true) 1e-12
                      then Documented.r_squared y_true y_pred
                      else 1.
Proof.
  intros Hlen Hne. unfold Train.metrics.
  rewrite (zip_strict_ok _ _ Hlen). cbn [bind].
  destruct (Nat.eqb (length y_true) 0) eqn:E.
  { apply Nat.eqb_eq, length_zero_iff_nil in E. congruence. }
  eexists. split; [reflexivity |].
  cbn [r2]. unfold Documented.r_squared, Documented.ss_res, Documented.ss_tot.
  destruct (Rgt_dec _ 1e-12); [reflexivity | lra].
Qed.

Lemma ss_tot_constant : Documented.ss_tot Fixtures.y_constant = 0.
Proof.
  unfold Documented.ss_tot, Fixtures.y_constant, Num.sum. simpl. lra.
Qed.

(** C2.  On the constant target [[5; 5]] with predictions [[4; 6]],
    [SS_tot] is 0: [ai_power_train.metrics] reports [R2 = 0] as
    documented, [ai_train.metrics] reports [R2 = 1]. *)
Theorem train_metrics_degenerate_target :
  Documented.ss_tot Fixtures.y_constant <= 1e-12
  /\ (exists m, PowerTrain.metrics Fixtures.y_constant Fixtures.y_around = Ok m
                /\ r2 m = 0)
  /\ (exists m, Train.metrics Fixtures.y_constant Fixtures.y_around = Ok m
                /\ r2 m = 1).
Proof.
  split; [rewrite ss_tot_constant; lra |].
  split.
  - destruct (power_metrics_r2 Fixtures.y_constant Fixtures.y_around)
      as [m [Hm Hr]]; [reflexivity | discriminate |].
    exists m. split; [exact Hm |]. rewrite Hr.
    unfold Documented.r_squared. rewrite ss_tot_constant.
    destruct (Rgt_dec 0 1e-12); [lra | reflexivity].
  - destruct (train_metrics_r2 Fixtures.y_constant Fixtures.y_around)
      as [m [Hm Hr]]; [reflexivity | discriminate |].
    exists m. split; [exact Hm |]. rewrite Hr. rewrite ss_tot_constant.
    destruct (Rgt_dec 0 1e-12); [lra | reflexivity].
Qed.

End RSquared.

(** ** The simulation *)

Section SimulationFacts.
Import Generate.
Local Open Scope R_scope.

Lemma counter_gen_unit_draws : unit_draws nat.
Proof.
  intros n. cbn [random counter_gen counter_random fst].
  assert (Hlt : (n mod 10 < 10)%nat) by (apply Nat.mod_upper_bound; lia).
  apply lt_INR in Hlt. pose proof (pos_INR (n mod 10)) as Hpos.
  assert (H10 : INR 10 = 10) by (simpl; lra).
  rewrite H10 in Hlt. lra.
Qed.

Lemma created_power_cap (c : Customer) :
  In (contracted_power_kva c) (contracted_choices (segment c)) ->
  40 <= contracted_power_kva c * 1000 * 0.92.
Proof.
  unfold contracted_choices.
  destruct (String.eqb (segment c) "residential");
    [| destruct (String.eqb (segment c) "sme")];
    cbn [In]; intros Hin;
    repeat (destruct Hin as [Hin | Hin]; [lra |]); contradiction.
Qed.

(** Case analysis on every draw and every branch of [simulate_watts]. *)
Ltac split_draws :=
  repeat match goal with
    | |- context [match ?e with pair _ _ => _ end] => destruct e
    | |- context [if ?b then _ else _] => destruct b
    end.

Section WithGenerator.
Context {G : Type} `{RandomGen G}.

Lemma uniform_lower (a b : R) (g : G) :
  unit_draws G -> a <= b -> a <= fst (uniform a b g).
Proof.
  intros Hu Hab. unfold uniform. specialize (Hu g).
  destruct (random g) as [u g']. cbn [fst] in *. nra.
Qed.

(** The unit price that [create_customers] draws lies in [0.08, 0.45]. *)
Lemma draw_price_bounded (g : G) : 0.08 <= fst (draw_price g) <= 0.45.
Proof.
  unfold draw_price. destruct (gauss 0.20 0.03 g) as [p g']. cbn [fst].
  destruct (py_min_case 0.45 p) as [[-> ?] | [-> ?]];
    destruct (py_max_case 0.08 0.45) as [[E1 ?] | [E1 ?]];
    destruct (py_max_case 0.08 p) as [[E2 ?] | [E2 ?]];
    rewrite ?E1, ?E2; lra.
Qed.

(** The cost stored with a reading is the flat rate applied to it. *)
Lemma simulate_watts_euros (ts0 : Calendar.datetime) (c : Customer)
    (last : option R) (rng : G) :
  euros_of (simulate_watts ts0 c last rng)
  = watts_of (simulate_watts ts0 c last rng) / 1000 * RATE_EUR_PER_KWH * INTERVAL_HOURS.
Proof.
  unfold simulate_watts, euros_of, watts_of. split_draws; reflexivity.
Qed.

(** The clamp and the spike keep the reading between 40 W and the cap,
    as soon as the cap itself is at least 40 W. *)
Lemma simulate_watts_clamped (ts0 : Calendar.datetime) (c : Customer)
    (last : option R) (rng : G) :
  unit_draws G ->
  40 <= contracted_power_kva c * 1000 * 0.92 ->
  40 <= watts_of (simulate_watts ts0 c last rng)
     <= contracted_power_kva c * 1000 * 0.92.
Proof.
  intros Hu Hcap. unfold simulate_watts, watts_of.
  repeat match goal with
    | |- context [match uniform ?a ?b ?g with pair _ _ => _ end] =>
        let Hl := fresh "Hburst" in
        pose proof (uniform_lower a b g Hu ltac:(lra)) as Hl;
        destruct (uniform a b g); cbn [fst] in Hl
    | |- context [match (if ?b then _ else _) with pair _ _ => _ end] =>
        destruct b
    | |- context [match (match ?e with pair _ _ => _ end) with
                  | pair _ _ => _ end] => destruct e
    | |- context [match ?e with pair _ _ => _ end] => destruct e
    end;
    cbn [fst snd];
    match goal with
    | |- context [Num.py_max 40 (Num.py_min ?blend _)] =>
        generalize blend; intro
    end;
    repeat match goal with
      | |- context [Num.py_max ?a ?b] =>
          let E := fresh "E" in
          destruct (py_max_case a b) as [[E ?] | [E ?]]; rewrite E in *; clear E
      | |- context [Num.py_min ?a ?b] =>
          let E := fresh "E" in
          destruct (py_min_case a b) as [[E ?] | [E ?]]; rewrite E in *; clear E
      end; lra.
Qed.

Lemma simulate_watts_flat_rate (ts0 : Calendar.datetime) (c : Customer)
    (last : option R) (rng : G) :
  euros_of (simulate_watts ts0 c last rng)
  = Documented.interval_cost (watts_of (simulate_watts ts0 c last rng)) 0.20.
Proof.
  rewrite simulate_watts_euros.
  unfold Documented.interval_cost, RATE_EUR_PER_KWH, INTERVAL_HOURS, INTERVAL_MINUTES.
  lra.
Qed.

Lemma simulate_tick_rows (ts0 : Calendar.datetime) (cs : list Customer)
    (last : dict) (rng : G) :
  let rows := fst (fst (simulate_tick ts0 cs last rng)) in
  length rows = length cs /\ Forall Documented.flat_rate_cost rows.
Proof.
  revert last rng. induction cs as [| c cs IH]; intros last rng.
  - cbn. split; [reflexivity | constructor].
  - cbn [simulate_tick].
    pose proof (simulate_watts_flat_rate ts0 c (dict_get last (id c)) rng) as He.
    destruct (simulate_watts ts0 c (dict_get last (id c)) rng) as [[[w t] e] rng1].
    unfold euros_of, watts_of in He. cbn [fst snd] in He.
    specialize (IH (dict_set last (id c) w) rng1).
    destruct (simulate_tick ts0 cs (dict_set last (id c) w) rng1) as [[rows last2] rng2].
    cbn [fst snd] in *. destruct IH as [Hlen Hall].
    split; [cbn [length]; congruence |].
    constructor; [exact He | exact Hall].
Qed.

Lemma run_steps_rows (steps : nat) (ts0 : Calendar.datetime) (cs : list Customer)
    (last : dict) (rng : G) (conn : list Reading) :
  exists produced,
    run_steps steps ts0 cs last rng conn = conn ++ produced
    /\ length produced = (steps * length cs)%nat
    /\ Forall Documented.flat_rate_cost produced.
Proof.
  revert ts0 last rng conn. induction steps as [| k IH]; intros ts0 last rng conn.
  - exists []. cbn. rewrite app_nil_r. repeat split. constructor.
  - cbn [run_steps].
    destruct (simulate_tick_rows ts0 cs last rng) as [Hlen Hall].
    destruct (simulate_tick ts0 cs last rng) as [[rows last1] rng1].
    cbn [fst] in Hlen, Hall.
    destruct (IH (Calendar.add_minutes ts0 INTERVAL_MINUTES) last1 rng1 (conn ++ rows))
      as [more [Hrun [Hmore Hcost]]].
    exists (rows ++ more). rewrite Hrun, <- app_assoc. split; [reflexivity |].
    split.
    + rewrite length_app, Hlen, Hmore. cbn [Nat.mul]. reflexivity.
    + apply Forall_app. split; assumption.
Qed.

(** C1, as amended.  Every reading that [generate_steps] appends to the
    table stores the cost [(watts/1000) * 0.20 * 0.25]: the rate is the
    constant [RATE_EUR_PER_KWH], whatever the unit price of the profile. *)
Theorem stored_cost_flat_rate (conn : list Reading) (cs : list Customer)
    (start_ts : Calendar.datetime) (steps : nat) (seed : Z) :
  exists produced,
    generate_steps conn cs start_ts steps seed = conn ++ produced
    /\ length produced = (steps * length cs)%nat
    /\ Forall (fun r => euros r = (watts r / 1000) * 0.20 * 0.25) produced.
Proof.
  unfold generate_steps.
  destruct (run_steps_rows steps start_ts cs (latest_watts_by_customer conn)
              (from_seed seed) conn) as [produced [Hrun [Hlen Hcost]]].
  exists produced. repeat split; assumption.
Qed.

(** C4.  For a profile whose contracted power is one of those that
    [create_customers] draws for its segment, any timestamp, any previous
    reading or none, and any generator state, the watts returned by
    [simulate_watts], spike included, lie between 40 and
    [0.92 * contracted_power_kva * 1000]. *)
Theorem simulated_watts_bounds (ts0 : Calendar.datetime) (c : Customer)
    (last : option R) (rng : G) :
  unit_draws G ->
  In (contracted_power_kva c) (contracted_choices (segment c)) ->
  40 <= watts_of (simulate_watts ts0 c last rng)
     <= 0.92 * contracted_power_kva c * 1000.
Proof.
  intros Hu Hin.
  pose proof (simulate_watts_clamped ts0 c last rng Hu (created_power_cap c Hin)).
  lra.
Qed.

End WithGenerator.

Lemma gen_residential_created : created_profile Fixtures.gen_residential.
Proof.
  split.
  - cbn. left. reflexivity.
  - cbn. lra.
Qed.

Lemma simulated_watts_bounds_witness :
  40 <= watts_of (simulate_watts Fixtures.ts_day170 Fixtures.gen_residential
                    None (42%nat))
     <= 0.92 * contracted_power_kva Fixtures.gen_residential * 1000.
Proof.
  apply (simulated_watts_bounds Fixtures.ts_day170 Fixtures.gen_residential
           None (42%nat)).
  - exact counter_gen_unit_draws.
  - cbn. left. reflexivity.
Defined.

(** C1, as stated, fails: the profile below was drawn with a unit price
    of 0.25 euros per kWh, and the reading generated for it does not cost
    [(watts/1000) * 0.25 * 0.25]. *)
Lemma stored_cost_flat_rate_counterexample :
  created_profile Fixtures.gen_residential
  /\ exists r,
       In r (generate_steps (G := nat) [] [Fixtures.gen_residential]
               Fixtures.ts_day170 1 42)
       /\ euros r
          <> Documented.interval_cost (watts r)
               (price_eur_per_kwh Fixtures.gen_residential).
Proof.
  split; [exact gen_residential_created |].
  unfold generate_steps. cbn [run_steps simulate_tick].
  set (last := dict_get (latest_watts_by_customer []) (id Fixtures.gen_residential)).
  set (rng := from_seed 42).
  pose proof (simulate_watts_flat_rate Fixtures.ts_day170 Fixtures.gen_residential
                last rng) as He.
  pose proof (simulate_watts_clamped Fixtures.ts_day170 Fixtures.gen_residential
                last rng counter_gen_unit_draws) as Hw.
  destruct (simulate_watts Fixtures.ts_day170 Fixtures.gen_residential last rng)
    as [[[w t] e] rng1].
  unfold euros_of, watts_of in *. cbn [fst snd] in *.
  eexists. split; [left; reflexivity |].
  cbn [euros watts]. rewrite He.
  unfold Documented.interval_cost. cbn [price_eur_per_kwh Fixtures.gen_residential].
  assert (Hcap : 40 <= contracted_power_kva Fixtures.gen_residential * 1000 * 0.92)
    by (cbn; lra).
  specialize (Hw Hcap). lra.
Qed.

End SimulationFacts.

(** ** The seasonal temperature *)

Section SeasonalFacts.
Local Open Scope R_scope.













End SeasonalFacts.

(** ** The two training runs *)

Section TrainingRuns.
Import Kernel.
Local Open Scope nat_scope.

Lemma pairs_of_rows_length (c : Train.Customer) (rows : list Train.Row) :
  length (Train.pairs_of_rows c rows) = length rows - 1.
Proof.
  induction rows as [| r rows IH]; [reflexivity |].
  destruct rows as [| r' rows]; [reflexivity |].
  cbn [Train.pairs_of_rows length] in *. lia.
Qed.

Lemma load_training_pairs_lengths (db : Train.Db) (cs : list Train.Customer) :
  let (x, y) := Train.load_training_pairs db cs in
  length x
  = list_sum (map (fun c => Documented.transitions
                              (length (Train.telemetry_since db (Train.id c)))) cs)
  /\ length y = length x.
Proof.
  unfold Train.load_training_pairs. rewrite !length_map. split; [| reflexivity].
  unfold list_sum.
  induction cs as [| c cs IH]; [reflexivity |].
  cbn [flat_map map fold_right]. rewrite length_app, IH. f_equal.
  unfold Documented.transitions.
  destruct (Nat.ltb (length (Train.telemetry_since db (Train.id c))) 3);
    [reflexivity | apply pairs_of_rows_length].
Qed.

Lemma build_dataset_lengths (db : PowerTrain.Db) (cs : list PowerTrain.Customer) :
  let (x, y) := PowerTrain.build_dataset db cs in
  length x = length (filter (PowerTrain.has_history db) cs) /\ length y = length x.
Proof.
  induction cs as [| c cs IH]; [split; reflexivity |].
  cbn [PowerTrain.build_dataset filter].
  destruct (PowerTrain.build_dataset db cs) as [x y]. destruct IH as [Hx Hy].
  unfold PowerTrain.has_history, PowerTrain.sample_of.
  destruct (PowerTrain.get_latest_ts db (PowerTrain.id c)) as [latest |].
  - destruct (PowerTrain.get_stats_30d db (PowerTrain.id c) latest) as [peak avg].
    cbn [length]. split; [f_equal; exact Hx | f_equal; exact Hy].
  - split; [exact Hx | exact Hy].
Qed.

Section WithGenerator.
Context {G : Type} `{RandomGen G}.

(** C9.  With fewer than 200 transition samples the next-step run ends
    in [SystemExit]; with fewer than 10 customers that have telemetry the
    power-sizing run ends in [SystemExit]; in both cases the output file
    is what it was before the run. *)
Theorem insufficient_data_aborts (db : Train.Db) (pdb : PowerTrain.Db)
    (l2 : R) (seed : Z) (file : option Artifact) :
  (Documented.transition_count db < 200 ->
   exists msg, Train.main db l2 seed file = (Raise (SystemExit msg), file))
  /\ (Documented.customers_with_history pdb < 10 ->
      PowerTrain.main pdb l2 file
      = (Raise (SystemExit PowerTrain.too_few_customers), file)).
Proof.
  split.
  - intros Hfew. unfold Train.main, Train.train, Train.select_samples.
    destruct (Train.customers db) as [| c cs] eqn:Hcs.
    + eexists. reflexivity.
    + pose proof (load_training_pairs_lengths db (c :: cs)) as Hlen.
      destruct (Train.load_training_pairs db (c :: cs)) as [x y].
      destruct Hlen as [Hx _].
      unfold Documented.transition_count in Hfew. rewrite Hcs, <- Hx in Hfew.
      apply Nat.ltb_lt in Hfew. rewrite Hfew. eexists. reflexivity.
  - intros Hfew. unfold PowerTrain.main, PowerTrain.train, PowerTrain.select_samples.
    pose proof (build_dataset_lengths pdb (PowerTrain.customers pdb)) as Hlen.
    destruct (PowerTrain.build_dataset pdb (PowerTrain.customers pdb)) as [x y].
    destruct Hlen as [Hx _].
    unfold Documented.customers_with_history in Hfew. rewrite <- Hx in Hfew.
    apply Nat.ltb_lt in Hfew. rewrite Hfew. reflexivity.
Qed.

End WithGenerator.

Lemma steady_rows_length (k : nat) : length (Fixtures.steady_rows k) = k.
Proof. unfold Fixtures.steady_rows. rewrite length_map, length_seq. reflexivity. Qed.

Lemma train_db_transitions (k : nat) :
  Documented.transition_count (Fixtures.train_db k) = Documented.transitions k + 0.
Proof.
  unfold Documented.transition_count, list_sum.
  cbn [Fixtures.train_db Train.customers Train.telemetry_since map fold_right].
  rewrite steady_rows_length. reflexivity.
Qed.

Lemma power_db_history (ids : list string) :
  Documented.customers_with_history (Fixtures.power_db ids) = length ids.
Proof.
  unfold Documented.customers_with_history.
  cbn [Fixtures.power_db PowerTrain.customers].
  induction ids as [| i ids IH]; [reflexivity |].
  cbn [map filter]. unfold PowerTrain.has_history at 1.
  cbn [PowerTrain.get_latest_ts Fixtures.power_db]. cbn [length]. f_equal. exact IH.
Qed.

Lemma insufficient_data_aborts_witness :
  (exists msg,
      Train.main (G := nat) (Fixtures.train_db 3) 2 42 None
      = (Raise (SystemExit msg), None))
  /\ PowerTrain.main (Fixtures.power_db ["C_0"%string]) 1 None
     = (Raise (SystemExit PowerTrain.too_few_customers), None).
Proof.
  destruct (insufficient_data_aborts (G := nat) (Fixtures.train_db 3)
              (Fixtures.power_db ["C_0"%string]) 2 42 None) as [Ht _].
  destruct (insufficient_data_aborts (G := nat) (Fixtures.train_db 3)
              (Fixtures.power_db ["C_0"%string]) 1 42 None) as [_ Hp].
  split.
  - apply Ht. rewrite train_db_transitions. cbn. lia.
  - apply Hp. rewrite power_db_history. cbn. lia.
Defined.

Lemma NoDup_app_disjoint {A : Type} (l1 l2 : list A) :
  NoDup (l1 ++ l2) -> forall a, In a l1 -> ~ In a l2.
Proof.
  induction l1 as [| b l1 IH]; intros Hnd a Hin; [contradiction |].
  cbn [app] in Hnd. inversion Hnd as [| ? ? Hnotin Hnd']; subst.
  destruct Hin as [-> | Hin].
  - intros Hin2. apply Hnotin. apply in_or_app. right. exact Hin2.
  - apply IH; assumption.
Qed.

Lemma gather_ok {A : Type} (x : list A) (idx : list nat) :
  (forall i, In i idx -> i < length x) ->
  exists rows, gather x idx = Ok rows /\ length rows = length idx.
Proof.
  induction idx as [| i idx IH]; intros Hin.
  - exists []. split; reflexivity.
  - destruct IH as [rows [Hrows Hlen]]; [intros; apply Hin; right; assumption |].
    assert (Hi : i < length x) by (apply Hin; left; reflexivity).
    apply nth_error_Some in Hi.
    destruct (nth_error x i) as [v |] eqn:Hv; [| congruence].
    exists (v :: rows). unfold gather in *. cbn [mapM]. rewrite Hv, Hrows.
    split; [reflexivity | cbn [length]; congruence].
Qed.


(** The split of a permuting shuffle is a held-out split. *)
Lemma split_indices_held_out {G : Type} `{RandomGen G} (seed : Z) (n : nat) :
  permuting_shuffle G ->
  let (tr_idx, te_idx) := Train.split_indices seed n in
  Documented.held_out_split n tr_idx te_idx
  /\ (forall i, In i (tr_idx ++ te_idx) -> i < n).
Proof.
  intros Hperm. unfold Train.split_indices.
  specialize (Hperm (from_seed seed) (seq 0 n)).
  set (idx := fst (shuffle (from_seed seed) (seq 0 n))) in *.
  assert (Hlen : length idx = n).
  { rewrite <- (Permutation_length Hperm). apply length_seq. }
  rewrite Hlen.
  assert (Hsplit : n * 8 / 10 <= n).
  { apply Nat.Div0.div_le_upper_bound. lia. }
  unfold Documented.held_out_split. rewrite firstn_skipn.
  split; [split; [exact Hperm | split] |].
  - rewrite length_firstn. lia.
  - apply NoDup_app_disjoint. rewrite firstn_skipn.
    apply (Permutation_NoDup Hperm). apply seq_NoDup.
  - intros i Hin. apply (Permutation_in _ (Permutation_sym Hperm)) in Hin.
    apply in_seq in Hin. lia.
Qed.



Lemma counter_gen_permuting : permuting_shuffle nat.
Proof.
  intros n l. cbn [shuffle counter_gen counter_shuffle fst].
  apply Permutation_rev.
Qed.


End TrainingRuns.

(** ** Standardization *)

Section Standardization.
Import Kernel.
Local Open Scope R_scope.

Lemma sum_from (l : list R) (a : R) : fold_left Rplus l a = a + Num.sum l.
Proof.
  unfold Num.sum. revert a. induction l as [| v l IH]; intros a; cbn [fold_left].
  - lra.
  - rewrite (IH (a + v)), (IH (0 + v)). lra.
Qed.

Lemma sum_cons (v : R) (l : list R) : Num.sum (v :: l) = v + Num.sum l.
Proof. unfold Num.sum at 1. cbn [fold_left]. rewrite sum_from. lra. Qed.

Lemma nth_map_seq {A : Type} (f : nat -> A) (d j : nat) (dflt : A) :
  (j < d)%nat -> nth j (map f (seq 0 d)) dflt = f j.
Proof.
  intros Hj. rewrite (nth_indep _ dflt (f 0%nat)) by (rewrite length_map, length_seq; exact Hj).
  rewrite map_nth, seq_nth by exact Hj. reflexivity.
Qed.

Lemma nth_map_in {A B : Type} (f : A -> B) (l : list A) (j : nat) (da : A) (db : B) :
  (j < length l)%nat -> nth j (map f l) db = f (nth j l da).
Proof.
  intros Hj. rewrite (nth_indep _ db (f da)) by (rewrite length_map; exact Hj).
  apply map_nth.
Qed.

Lemma map_nth_seq (l : list R) : map (fun j => nth j l 0) (seq 0 (length l)) = l.
Proof.
  induction l as [| v l IH]; [reflexivity |].
  cbn [length seq map nth]. f_equal.
  rewrite <- seq_shift, map_map. exact IH.
Qed.

(** One pass of the accumulation loop over a row as wide as the
    accumulator. *)
Lemma accumulate_row (g : nat -> R -> R) (j : nat) (acc row : vector) :
  length row = length acc ->
  exists res,
    accumulate g j acc row = Ok res
    /\ length res = length acc
    /\ forall k, (k < length acc)%nat ->
                 nth k res 0 = nth k acc 0 + g (j + k)%nat (nth k row 0).
Proof.
  revert j acc. induction row as [| v row IH]; intros j [| a acc] Hlen;
    cbn [length] in Hlen; try discriminate.
  - exists []. repeat split. intros k Hk. cbn in Hk. lia.
  - destruct (IH (S j) acc) as [rest [Hrest [Hl Hnth]]]; [lia |].
    exists ((a + g j v) :: rest). cbn [accumulate]. rewrite Hrest. cbn [bind].
    split; [reflexivity |]. split; [cbn [length]; congruence |].
    intros [| k] Hk; cbn [nth].
    + rewrite Nat.add_0_r. reflexivity.
    + cbn [length] in Hk. rewrite Hnth by lia.
      replace (S j + k)%nat with (j + S k)%nat by lia. reflexivity.
Qed.

Lemma column_totals_from (g : nat -> R -> R) (x : matrix) (acc : vector) :
  Documented.rectangular (length acc) x ->
  exists res,
    foldM (fun a row => accumulate g 0 a row) x acc = Ok res
    /\ length res = length acc
    /\ forall k, (k < length acc)%nat ->
                 nth k res 0
                 = nth k acc 0 + Num.sum (map (g k) (Documented.column k x)).
Proof.
  revert acc. induction x as [| row x IH]; intros acc Hrect.
  - exists acc. repeat split. intros k _.
    cbn [Documented.column map]. unfold Num.sum. cbn [fold_left]. lra.
  - inversion Hrect as [| ? ? Hrow Hrest]; subst.
    destruct (accumulate_row g 0 acc row Hrow) as [acc1 [Hacc1 [Hl1 Hn1]]].
    destruct (IH acc1) as [res [Hres [Hl Hn]]]; [rewrite Hl1; exact Hrest |].
    exists res. cbn [foldM]. rewrite Hacc1. split; [exact Hres |].
    split; [congruence |].
    intros k Hk. rewrite Hn by lia. rewrite Hn1 by exact Hk.
    unfold Documented.column. cbn [map Nat.add]. rewrite sum_cons. lra.
Qed.

Lemma column_totals_ok (g : nat -> R -> R) (d : nat) (x : matrix) :
  Documented.rectangular d x ->
  exists res,
    column_totals g d x = Ok res
    /\ length res = d
    /\ forall k, (k < d)%nat ->
                 nth k res 0 = Num.sum (map (g k) (Documented.column k x)).
Proof.
  intros Hrect. unfold column_totals.
  destruct (column_totals_from g x (repeat 0 d)) as [res [Hres [Hl Hn]]].
  { rewrite repeat_length. exact Hrect. }
  rewrite repeat_length in Hl, Hn.
  exists res. split; [exact Hres |]. split; [exact Hl |].
  intros k Hk. rewrite Hn by exact Hk. rewrite nth_repeat. lra.
Qed.

Lemma floor_std_nonzero (s : R) : floor_std s <> 0.
Proof. unfold floor_std. destruct (Rgt_dec s 1e-9); lra. Qed.

Lemma z_row_ok (d : nat) (means stds row : vector) :
  length row = d ->
  z_row d means stds row
  = Ok (map (fun j => (nth j row 0 - nth j means 0) / nth j stds 0) (seq 0 d)).
Proof.
  intros Hlen. unfold z_row. apply mapM_ok.
  intros j Hin. apply in_seq in Hin.
  destruct (nth_error row j) as [v |] eqn:Hv.
  - rewrite (nth_error_nth _ _ 0 Hv). reflexivity.
  - apply nth_error_None in Hv. lia.
Qed.

(** What [standardize] returns on a non-empty rectangular matrix. *)
Lemma standardize_ok (x : matrix) (d : nat) :
  x <> [] -> Documented.rectangular d x ->
  let means := map (fun j => Documented.col_mean j x) (seq 0 d) in
  let stds := map (fun j => floor_std (Documented.sample_std j x)) (seq 0 d) in
  standardize x
  = Ok (map (fun row =>
               map (fun j => (nth j row 0 - nth j means 0) / nth j stds 0) (seq 0 d))
            x,
        means, stds).
Proof.
  intros Hne Hrect means stds. unfold standardize.
  destruct x as [| x0 rest]; [congruence |].
  assert (Hd : length x0 = d) by (inversion Hrect; assumption).
  rewrite Hd. set (x := x0 :: rest) in *.
  destruct (column_totals_ok (fun _ v => v) d x Hrect) as [sums [Hsums [Hls Hns]]].
  rewrite Hsums. cbn [bind].
  assert (Hmeans : map (fun m => m / INR (length x)) sums = means).
  { apply (nth_ext _ _ 0 0).
    - unfold means. rewrite !length_map, length_seq. exact Hls.
    - intros k Hk. rewrite length_map, Hls in Hk.
      rewrite (nth_map_in _ _ _ 0) by (rewrite Hls; exact Hk).
      unfold means. rewrite nth_map_seq by exact Hk.
      rewrite Hns by exact Hk. rewrite map_id. reflexivity. }
  rewrite Hmeans.
  destruct (column_totals_ok (fun j v => (v - nth j means 0) ^ 2) d x Hrect)
    as [sq [Hsq [Hlq Hnq]]].
  rewrite Hsq. cbn [bind].
  assert (Hstds :
    map floor_std (map (fun s => sqrt (s / INR (Num.max1_pred (length x)))) sq) = stds).
  { apply (nth_ext _ _ 0 0).
    - unfold stds. rewrite !length_map, length_seq. exact Hlq.
    - intros k Hk. rewrite !length_map, Hlq in Hk.
      rewrite map_map.
      rewrite (nth_map_in _ _ _ 0) by (rewrite Hlq; exact Hk).
      unfold stds. rewrite nth_map_seq by exact Hk.
      rewrite Hnq by exact Hk.
      unfold Documented.sample_std, Num.max1_pred. do 4 f_equal.
      apply map_ext. intros v. unfold means. rewrite nth_map_seq by exact Hk.
      reflexivity. }
  rewrite Hstds.
  rewrite (mapM_ok _ (fun row =>
             map (fun j => (nth j row 0 - nth j means 0) / nth j stds 0) (seq 0 d))).
  - reflexivity.
  - intros row Hin. apply z_row_ok.
    unfold Documented.rectangular in Hrect. rewrite Forall_forall in Hrect.
    apply Hrect. exact Hin.
Qed.

Lemma boundary_sample_std : Documented.sample_std 0 Fixtures.x_boundary = 1e-9.
Proof.
  unfold Documented.sample_std, Documented.col_mean, Documented.column,
    Fixtures.x_boundary, Num.sum.
  cbn [map nth length fold_left Nat.sub Nat.max].
  replace (INR 3) with 3 by (simpl; lra).
  replace (INR 2) with 2 by (simpl; lra).
  replace ((0 + (1e-9 - (0 + 1e-9 + -1e-9 + 0) / 3) ^ 2
            + (-1e-9 - (0 + 1e-9 + -1e-9 + 0) / 3) ^ 2
            + (0 - (0 + 1e-9 + -1e-9 + 0) / 3) ^ 2) / 2)
    with (1e-9 * 1e-9) by lra.
  apply sqrt_square. lra.
Qed.

(** C8, as stated, fails on the boundary: the sample deviation of the
    column [1e-9, -1e-9, 0] is exactly [1e-9], which is not below [1e-9],
    and [standardize] returns 1 for it. *)
Lemma standardize_round_trip_counterexample :
  exists xz means stds,
    standardize Fixtures.x_boundary = Ok (xz, means, stds)
    /\ Documented.sample_std 0 Fixtures.x_boundary = 1e-9
    /\ nth 0 stds 0 = 1
    /\ nth 0 stds 0 <> Documented.floored_std 0 Fixtures.x_boundary.
Proof.
  pose proof (standardize_ok Fixtures.x_boundary 1) as Hstd.
  cbv zeta in Hstd.
  eexists _, _, _. split.
  - apply Hstd; [discriminate | repeat constructor].
  - split; [exact boundary_sample_std |].
    cbn [seq map nth]. unfold Documented.floored_std, floor_std.
    rewrite boundary_sample_std.
    destruct (Rgt_dec 1e-9 1e-9); [lra |].
    destruct (Rlt_dec 1e-9 1e-9); [lra |].
    split; [reflexivity | lra].
Qed.

End Standardization.

(** ** Standardization in floating-point arithmetic *)

Section RoundedStandardization.
Import Kernel.
Local Open Scope R_scope.

Variable fl : R -> R.

Lemma rounded_accumulate_row (g : nat -> R -> R) (j : nat) (acc row : vector) :
  length row = length acc ->
  exists res,
    Rounded.accumulate fl g j acc row = Ok res
    /\ length res = length acc
    /\ forall k, (k < length acc)%nat ->
                 nth k res 0 = fl (nth k acc 0 + g (j + k)%nat (nth k row 0)).
Proof.
  revert j acc. induction row as [| v row IH]; intros j [| a acc] Hlen;
    cbn [length] in Hlen; try discriminate.
  - exists []. repeat split. intros k Hk. cbn in Hk. lia.
  - destruct (IH (S j) acc) as [rest [Hrest [Hl Hnth]]]; [lia |].
    exists (fl (a + g j v) :: rest). cbn [Rounded.accumulate]. rewrite Hrest. cbn [bind].
    split; [reflexivity |]. split; [cbn [length]; congruence |].
    intros [| k] Hk; cbn [nth].
    + rewrite Nat.add_0_r. reflexivity.
    + cbn [length] in Hk. rewrite Hnth by lia.
      replace (S j + k)%nat with (j + S k)%nat by lia. reflexivity.
Qed.

Lemma rounded_totals_from (g : nat -> R -> R) (x : matrix) (acc : vector) :
  Documented.rectangular (length acc) x ->
  exists res,
    foldM (fun a row => Rounded.accumulate fl g 0 a row) x acc = Ok res
    /\ length res = length acc
    /\ forall k, (k < length acc)%nat ->
                 nth k res 0
                 = fold_left (fun a v => fl (a + v))
                     (map (fun row => g k (nth k row 0)) x) (nth k acc 0).
Proof.
  revert acc. induction x as [| row x IH]; intros acc Hrect.
  - exists acc. repeat split.
  - inversion Hrect as [| ? ? Hrow Hrest]; subst.
    destruct (rounded_accumulate_row g 0 acc row Hrow) as [acc1 [Hacc1 [Hl1 Hn1]]].
    destruct (IH acc1) as [res [Hres [Hl Hn]]]; [rewrite Hl1; exact Hrest |].
    exists res. cbn [foldM]. rewrite Hacc1. split; [exact Hres |].
    split; [congruence |].
    intros k Hk. rewrite Hn by lia. rewrite Hn1 by exact Hk.
    reflexivity.
Qed.

Lemma rounded_column_totals_ok (g : nat -> R -> R) (d : nat) (x : matrix) :
  Documented.rectangular d x ->
  exists res,
    Rounded.column_totals fl g d x = Ok res
    /\ length res = d
    /\ forall k, (k < d)%nat ->
                 nth k res 0 = Rounded.total fl (map (fun row => g k (nth k row 0)) x).
Proof.
  intros Hrect. unfold Rounded.column_totals.
  destruct (rounded_totals_from g x (repeat 0 d)) as [res [Hres [Hl Hn]]].
  { rewrite repeat_length. exact Hrect. }
  rewrite repeat_length in Hl, Hn.
  exists res. split; [exact Hres |]. split; [exact Hl |].
  intros k Hk. rewrite Hn by exact Hk. rewrite nth_repeat. reflexivity.
Qed.

Lemma rounded_z_row_ok (d : nat) (means stds row : vector) :
  length row = d ->
  Rounded.z_row fl d means stds row
  = Ok (map (fun j => fl (fl (nth j row 0 - nth j means 0) / nth j stds 0)) (seq 0 d)).
Proof.
  intros Hlen. unfold Rounded.z_row. apply mapM_ok.
  intros j Hin. apply in_seq in Hin.
  destruct (nth_error row j) as [v |] eqn:Hv.
  - rewrite (nth_error_nth _ _ 0 Hv). reflexivity.
  - apply nth_error_None in Hv. lia.
Qed.

(** What [standardize] returns in floats on a non-empty rectangular
    matrix: the row-by-row accumulation gives, column by column, the
    rounded mean and the rounded sample deviation. *)
Lemma rounded_standardize_ok (x : matrix) (d : nat) :
  x <> [] -> Documented.rectangular d x ->
  let means := map (fun j => Rounded.col_mean fl j x) (seq 0 d) in
  let stds := map (fun j => Rounded.floor_std fl (Rounded.sample_std fl j x)) (seq 0 d) in
  Rounded.standardize fl x
  = Ok (map (fun row =>
               map (fun j => fl (fl (nth j row 0 - nth j means 0) / nth j stds 0))
                   (seq 0 d))
            x,
        means, stds).
Proof.
  intros Hne Hrect means stds. unfold Rounded.standardize.
  destruct x as [| x0 rest]; [congruence |].
  assert (Hd : length x0 = d) by (inversion Hrect; assumption).
  rewrite Hd. set (x := x0 :: rest) in *.
  destruct (rounded_column_totals_ok (fun _ v => v) d x Hrect) as [sums [Hsums [Hls Hns]]].
  rewrite Hsums. cbn [bind].
  assert (Hmeans : map (fun m => fl (m / INR (length x))) sums = means).
  { apply (nth_ext _ _ 0 0).
    - unfold means. rewrite !length_map, length_seq. exact Hls.
    - intros k Hk. rewrite length_map, Hls in Hk.
      rewrite (nth_map_in _ _ _ 0) by (rewrite Hls; exact Hk).
      unfold means. rewrite nth_map_seq by exact Hk.
      rewrite Hns by exact Hk. reflexivity. }
  rewrite Hmeans.
  destruct (rounded_column_totals_ok (fun j v => fl (fl (v - nth j means 0) ^ 2)) d x Hrect)
    as [sq [Hsq [Hlq Hnq]]].
  rewrite Hsq. cbn [bind].
  assert (Hstds :
    map (Rounded.floor_std fl)
      (map (fun s => fl (sqrt (fl (s / INR (Num.max1_pred (length x)))))) sq) = stds).
  { apply (nth_ext _ _ 0 0).
    - unfold stds. rewrite !length_map, length_seq. exact Hlq.
    - intros k Hk. rewrite !length_map, Hlq in Hk.
      rewrite map_map.
      rewrite (nth_map_in _ _ _ 0) by (rewrite Hlq; exact Hk).
      unfold stds. rewrite nth_map_seq by exact Hk.
      rewrite Hnq by exact Hk.
      unfold Rounded.sample_std, Num.max1_pred. do 6 f_equal.
      apply map_ext. intros row. unfold means. rewrite nth_map_seq by exact Hk.
      reflexivity. }
  rewrite Hstds.
  rewrite (mapM_ok _ (fun row =>
             map (fun j => fl (fl (nth j row 0 - nth j means 0) / nth j stds 0))
                 (seq 0 d))).
  - reflexivity.
  - intros row Hin. apply rounded_z_row_ok.
    unfold Documented.rectangular in Hrect. rewrite Forall_forall in Hrect.
    apply Hrect. exact Hin.
Qed.

Lemma rounded_floor_std_cases (s : R) :
  Rounded.floor_std fl s = 1 \/ fl 1e-9 < Rounded.floor_std fl s.
Proof.
  unfold Rounded.floor_std.
  destruct (Rgt_dec s (fl 1e-9)); [right; lra | left; reflexivity].
Qed.

Lemma Rabs_sum_le (a b ea eb : R) :
  Rabs a <= ea -> Rabs b <= eb -> Rabs (a + b) <= ea + eb.
Proof. intros Ha Hb. eapply Rle_trans; [apply Rabs_triang |]. lra. Qed.

Hypothesis Hfl : Rounding.nearest fl.

Lemma rounded_floor_std_positive (s : R) : 9.9e-10 < Rounded.floor_std fl s.
Proof.
  pose proof (near_decimal fl 1e-9 Hfl) as Hthreshold.
  rewrite (Rabs_right 1e-9) in Hthreshold by lra.
  apply Rabs_le_between in Hthreshold.
  destruct (rounded_floor_std_cases s) as [E | Hgt]; [rewrite E |]; lra.
Qed.

(** One entry through [standardize] and back: four roundings. *)
Lemma round_trip_entry (v m s : R) :
  0 < s ->
  Rabs (fl (fl (fl (fl (v - m) / s) * s) + m) - v)
  <= 5e-16 * (Rabs v + Rabs m) + 1e-20 * (4 + 2 * s).
Proof.
  intros Hpos.
  set (a := fl (v - m)). set (z := fl (a / s)). set (p := fl (z * s)).
  pose proof (near_decimal fl (v - m) Hfl) as H1. fold a in H1.
  pose proof (near_decimal fl (a / s) Hfl) as H2. fold z in H2.
  pose proof (near_decimal fl (z * s) Hfl) as H3. fold p in H3.
  pose proof (near_decimal fl (p + m) Hfl) as H4.
  assert (HD : Rabs (v - m) <= Rabs v + Rabs m).
  { unfold Rminus. eapply Rle_trans; [apply Rabs_triang |]. rewrite Rabs_Ropp. lra. }
  assert (Ha : Rabs a <= Rabs (v - m) + (1.2e-16 * Rabs (v - m) + 1e-20)).
  { replace a with ((v - m) + (a - (v - m))) at 1 by ring.
    apply Rabs_sum_le; lra. }
  assert (Has : Rabs (a / s) * s = Rabs a).
  { unfold Rdiv. rewrite Rabs_mult, (Rabs_right (/ s)).
    - field. lra.
    - apply Rle_ge, Rlt_le, Rinv_0_lt_compat. exact Hpos. }
  assert (Hzs : Rabs (z * s - a) <= 1.2e-16 * Rabs a + 1e-20 * s).
  { replace (z * s - a) with ((z - a / s) * s) by (field; lra).
    rewrite Rabs_mult, (Rabs_right s) by lra.
    apply Rle_trans with ((1.2e-16 * Rabs (a / s) + 1e-20) * s).
    - apply Rmult_le_compat_r; lra.
    - rewrite Rmult_plus_distr_r, Rmult_assoc, Has. lra. }
  assert (Hz : Rabs (z * s) <= Rabs a + (1.2e-16 * Rabs a + 1e-20 * s)).
  { replace (z * s) with (a + (z * s - a)) at 1 by ring.
    apply Rabs_sum_le; lra. }
  assert (Hback : Rabs (p + m - v)
                  <= Rabs (p - z * s) + Rabs (z * s - a) + Rabs (a - (v - m))).
  { replace (p + m - v) with ((p - z * s) + (z * s - a) + (a - (v - m))) by ring.
    apply Rabs_sum_le; [apply Rabs_sum_le |]; lra. }
  assert (Hpm : Rabs (p + m) <= Rabs v + Rabs (p + m - v)).
  { replace (p + m) with (v + (p + m - v)) at 1 by ring.
    apply Rabs_sum_le; lra. }
  replace (fl (p + m) - v) with ((fl (p + m) - (p + m)) + (p + m - v)) by ring.
  eapply Rle_trans; [apply Rabs_triang |].
  pose proof (Rabs_pos v). pose proof (Rabs_pos m). pose proof (Rabs_pos (v - m)).
  pose proof (Rabs_pos a).
  lra.
Qed.

End RoundedStandardization.

Section RoundedRoundTrip.
Import Kernel.
Local Open Scope R_scope.

(** Without rounding error the floating-point [standardize] is the
    exact one, and the rounded column statistics are the documented
    mean and sample deviation. *)
Lemma exact_standardize (x : matrix) :
  Rounded.standardize Rounding.exact x = standardize x.
Proof. reflexivity. Qed.

Lemma exact_col_mean (j : nat) (x : matrix) :
  Rounded.col_mean Rounding.exact j x = Documented.col_mean j x.
Proof. reflexivity. Qed.

Lemma exact_sample_std (j : nat) (x : matrix) :
  Rounded.sample_std Rounding.exact j x = Documented.sample_std j x.
Proof.
  unfold Rounded.sample_std, Documented.sample_std, Documented.column.
  rewrite map_map. reflexivity.
Qed.

(** C8, as amended.  In floating-point arithmetic (any rounding to
    nearest, nothing overflowing), on a non-empty matrix whose rows all
    have the same width, [standardize] returns the column means, the
    column sample deviations (denominator [max(1, n - 1)]) with every
    deviation that is not above the float [1e-9] replaced by 1, so that
    every returned deviation is 1 or above that float and none is 0, and
    the z-scores.  Multiplying each z-score by the deviation of its column
    and adding the mean of its column gives the entry back up to
    [5e-16] times the magnitude of the entry plus that of the mean (and
    a term for underflow): within [1e-9] when those magnitudes sum to at
    most [1e6] and the deviation is at most [1e6]. *)
Theorem standardize_round_trip (fl : R -> R) (x : matrix) (d : nat) :
  Rounding.nearest fl ->
  x <> [] -> Documented.rectangular d x ->
  exists xz means stds,
    Rounded.standardize fl x = Ok (xz, means, stds)
    /\ length means = d /\ length stds = d
    /\ length xz = length x /\ Documented.rectangular d xz
    /\ (forall j, (j < d)%nat -> nth j means 0 = Rounded.col_mean fl j x)
    /\ (forall j, (j < d)%nat ->
          nth j stds 0
          = if Rgt_dec (Rounded.sample_std fl j x) (fl 1e-9)
            then Rounded.sample_std fl j x else 1)
    /\ (forall j, (j < d)%nat -> nth j stds 0 = 1 \/ fl 1e-9 < nth j stds 0)
    /\ (forall j, (j < d)%nat -> 9.9e-10 < nth j stds 0)
    /\ (forall i j, (i < length x)%nat -> (j < d)%nat ->
          entry xz i j = fl (fl (entry x i j - nth j means 0) / nth j stds 0))
    /\ (forall i j, (i < length x)%nat -> (j < d)%nat ->
          Rabs (entry (Rounded.destandardize fl xz means stds) i j - entry x i j)
          <= 5e-16 * (Rabs (entry x i j) + Rabs (nth j means 0))
             + 1e-20 * (4 + 2 * nth j stds 0))
    /\ (forall i j, (i < length x)%nat -> (j < d)%nat ->
          Rabs (entry x i j) + Rabs (nth j means 0) <= 1e6 ->
          nth j stds 0 <= 1e6 ->
          Rabs (entry (Rounded.destandardize fl xz means stds) i j - entry x i j)
          <= 1e-9).
Proof.
  intros Hfl Hne Hrect. pose proof (rounded_standardize_ok fl x d Hne Hrect) as Hstd.
  cbv zeta in Hstd.
  set (means := map (fun j => Rounded.col_mean fl j x) (seq 0 d)) in *.
  set (stds := map (fun j => Rounded.floor_std fl (Rounded.sample_std fl j x)) (seq 0 d))
    in *.
  set (zrow := fun row : vector =>
         map (fun j => fl (fl (nth j row 0 - nth j means 0) / nth j stds 0)) (seq 0 d))
    in *.
  assert (Hcases : forall j, (j < d)%nat ->
             nth j stds 0 = 1 \/ fl 1e-9 < nth j stds 0).
  { intros j Hj. unfold stds. rewrite nth_map_seq by exact Hj.
    apply rounded_floor_std_cases. }
  assert (Hpos : forall j, (j < d)%nat -> 9.9e-10 < nth j stds 0).
  { intros j Hj. unfold stds. rewrite nth_map_seq by exact Hj.
    apply (rounded_floor_std_positive fl Hfl). }
  assert (Hz : forall i j, (i < length x)%nat -> (j < d)%nat ->
             entry (map zrow x) i j
             = fl (fl (entry x i j - nth j means 0) / nth j stds 0)).
  { intros i j Hi Hj. unfold entry, row.
    rewrite (nth_map_in zrow x i [] []) by exact Hi.
    unfold zrow. rewrite nth_map_seq by exact Hj. reflexivity. }
  assert (Hback : forall i j, (i < length x)%nat -> (j < d)%nat ->
             entry (Rounded.destandardize fl (map zrow x) means stds) i j
             = fl (fl (entry (map zrow x) i j * nth j stds 0) + nth j means 0)).
  { intros i j Hi Hj. unfold Rounded.destandardize, entry, row.
    rewrite (nth_map_in _ (map zrow x) i [] []) by (rewrite length_map; exact Hi).
    rewrite (nth_map_in zrow x i [] []) by exact Hi. cbv beta.
    match goal with
    | |- context [seq 0 ?w] =>
        replace w with d by (unfold zrow; rewrite length_map, length_seq; reflexivity)
    end.
    rewrite nth_map_seq by exact Hj. reflexivity. }
  assert (Hbound : forall i j, (i < length x)%nat -> (j < d)%nat ->
             Rabs (entry (Rounded.destandardize fl (map zrow x) means stds) i j
                   - entry x i j)
             <= 5e-16 * (Rabs (entry x i j) + Rabs (nth j means 0))
                + 1e-20 * (4 + 2 * nth j stds 0)).
  { intros i j Hi Hj. rewrite (Hback i j Hi Hj), (Hz i j Hi Hj).
    apply (round_trip_entry fl Hfl). pose proof (Hpos j Hj). lra. }
  exists (map zrow x), means, stds. split; [exact Hstd |].
  split; [unfold means; rewrite length_map, length_seq; reflexivity |].
  split; [unfold stds; rewrite length_map, length_seq; reflexivity |].
  split; [apply length_map |].
  split.
  { unfold Documented.rectangular. rewrite Forall_map. apply Forall_forall.
    intros r _. unfold zrow. rewrite length_map, length_seq. reflexivity. }
  split; [intros j Hj; unfold means; rewrite nth_map_seq by exact Hj; reflexivity |].
  split; [intros j Hj; unfold stds; rewrite nth_map_seq by exact Hj; reflexivity |].
  split; [exact Hcases |].
  split; [exact Hpos |].
  split; [exact Hz |].
  split; [exact Hbound |].
  intros i j Hi Hj Hmag Hdev. pose proof (Hbound i j Hi Hj) as Hb.
  pose proof (Hpos j Hj). lra.
Qed.

(** Two samples of two features under a rounding that overshoots. *)
Lemma standardize_round_trip_witness :
  exists xz means stds,
    Rounded.standardize Rounding.skewed Fixtures.x_small = Ok (xz, means, stds)
    /\ length means = 2%nat /\ length stds = 2%nat
    /\ 9.9e-10 < nth 1 stds 0
    /\ Rabs (entry (Rounded.destandardize Rounding.skewed xz means stds) 1 0
             - entry Fixtures.x_small 1 0)
       <= 5e-16 * (Rabs (entry Fixtures.x_small 1 0) + Rabs (nth 0 means 0))
          + 1e-20 * (4 + 2 * nth 0 stds 0).
Proof.
  destruct (standardize_round_trip Rounding.skewed Fixtures.x_small 2)
    as (xz & means & stds & Hok & Hm & Hs & _ & _ & _ & _ & _ & Hpos & _ & Hbound & _).
  - exact skewed_nearest.
  - discriminate.
  - repeat constructor.
  - exists xz, means, stds.
    split; [exact Hok |]. split; [exact Hm |]. split; [exact Hs |].
    split; [apply Hpos; lia |].
    apply Hbound; simpl; lia.
Defined.

End RoundedRoundTrip.

(** ** Matrix inversion *)

Section Inversion.
Import Kernel.
Local Open Scope R_scope.

(** *** Row updates *)

Lemma set_row_length {A : Type} (i : nat) (v : A) (m : list A) :
  length (set_row i v m) = length m.
Proof.
  revert i. induction m as [| h t IH]; intros [| i]; cbn [set_row length];
    try reflexivity.
  rewrite IH. reflexivity.
Qed.

Lemma set_row_same {A : Type} (i : nat) (v d : A) (m : list A) :
  (i < length m)%nat -> nth i (set_row i v m) d = v.
Proof.
  revert i. induction m as [| h t IH]; intros [| i] Hi; cbn [length] in Hi;
    try lia; cbn [set_row nth]; [reflexivity |].
  apply IH. lia.
Qed.

Lemma set_row_other {A : Type} (i j : nat) (v d : A) (m : list A) :
  i <> j -> nth j (set_row i v m) d = nth j m d.
Proof.
  revert i j. induction m as [| h t IH]; intros [| i] [| j] Hij;
    cbn [set_row nth]; try reflexivity; try congruence.
  apply IH. congruence.
Qed.

Lemma set_row_Forall {A : Type} (P : A -> Prop) (i : nat) (v : A) (m : list A) :
  Forall P m -> P v -> Forall P (set_row i v m).
Proof.
  revert i. induction m as [| h t IH]; intros [| i] Hm Hv; cbn [set_row];
    try constructor; inversion Hm; subst; try assumption.
  apply IH; assumption.
Qed.

Lemma shape_row (n w : nat) (aug : matrix) (r : nat) :
  Documented.shape n w aug -> (r < n)%nat -> length (row aug r) = w.
Proof.
  intros [Hn Hw] Hr. unfold row.
  rewrite Forall_forall in Hw. apply Hw. apply nth_In. lia.
Qed.

Lemma shape_set_row (n w : nat) (aug : matrix) (r : nat) (v : vector) :
  Documented.shape n w aug -> length v = w -> Documented.shape n w (set_row r v aug).
Proof.
  intros [Hn Hw] Hv. split.
  - rewrite set_row_length. exact Hn.
  - apply set_row_Forall; assumption.
Qed.

Lemma entry_set_row_same (aug : matrix) (r c : nat) (v : vector) :
  (r < length aug)%nat -> entry (set_row r v aug) r c = nth c v 0.
Proof. intros Hr. unfold entry, row. rewrite set_row_same by exact Hr. reflexivity. Qed.

Lemma entry_set_row_other (aug : matrix) (r r' c : nat) (v : vector) :
  r <> r' -> entry (set_row r v aug) r' c = entry aug r' c.
Proof. intros Hr. unfold entry, row. rewrite set_row_other by exact Hr. reflexivity. Qed.

Lemma nth_scaled (c : R) (l : vector) (j : nat) :
  nth j (map (fun x => x * c) l) 0 = nth j l 0 * c.
Proof.
  pose proof (map_nth (fun x => x * c) l 0 j) as Hnth. cbv beta in Hnth.
  rewrite <- Hnth. f_equal. lra.
Qed.

Lemma nth_eliminated (f : R) (l1 l2 : vector) (j : nat) :
  length l1 = length l2 ->
  nth j (map (fun p => fst p - f * snd p) (combine l1 l2)) 0
  = nth j l1 0 - f * nth j l2 0.
Proof.
  intros Hlen.
  pose proof (map_nth (fun p : R * R => fst p - f * snd p) (combine l1 l2) (0, 0) j)
    as Hnth.
  cbv beta in Hnth. rewrite combine_nth in Hnth by exact Hlen.
  cbn [fst snd] in Hnth. rewrite <- Hnth. f_equal. lra.
Qed.

(** *** The pivot search finds the largest magnitude *)

Lemma pivot_search (e : nat -> R) (rs : list nat) (p : nat) :
  let step := fun pivot r =>
    if Rgt_dec (Rabs (e r)) (Rabs (e pivot)) then r else pivot in
  Rabs (e (fold_left step rs p))
  = Rmax (Rabs (e p)) (fold_right Rmax 0 (map (fun r => Rabs (e r)) rs))
  /\ In (fold_left step rs p) (p :: rs).
Proof.
  intros step. revert p. induction rs as [| r rs IH]; intros p.
  - cbn [fold_left map fold_right]. split; [| left; reflexivity].
    rewrite Rmax_left; [reflexivity | apply Rabs_pos].
  - cbn [fold_left map fold_right]. destruct (IH (step p r)) as [Hmax Hin].
    split.
    + rewrite Hmax, Rmax_assoc. f_equal.
      unfold step, Rmax.
      destruct (Rgt_dec (Rabs (e r)) (Rabs (e p))),
        (Rle_dec (Rabs (e p)) (Rabs (e r))); lra.
    + destruct Hin as [Hin | Hin]; [| right; right; exact Hin].
      rewrite <- Hin. unfold step.
      destruct (Rgt_dec (Rabs (e r)) (Rabs (e p))); [right; left | left]; reflexivity.
Qed.

Lemma find_pivot_spec (aug : matrix) (col n : nat) :
  (col < n)%nat ->
  Rabs (entry aug (find_pivot aug col n) col) = Documented.column_max_abs aug col n
  /\ (find_pivot aug col n < n)%nat.
Proof.
  intros Hcol. unfold find_pivot, Documented.column_max_abs.
  destruct (pivot_search (fun r => entry aug r col)
              (seq (col + 1) (n - (col + 1))) col) as [Hmax Hin].
  cbv zeta in Hmax, Hin. split.
  - rewrite Hmax.
    replace (n - col)%nat with (S (n - (col + 1))) by lia.
    cbn [seq map fold_right]. rewrite Nat.add_1_r. reflexivity.
  - destruct Hin as [Hin | Hin]; [rewrite <- Hin; exact Hcol |].
    apply in_seq in Hin. lia.
Qed.

Lemma zero_column_max (n j : nat) (aug : matrix) :
  Documented.zero_column n j aug -> Documented.column_max_abs aug j n = 0.
Proof.
  intros Hz. unfold Documented.column_max_abs.
  assert (Hall : forall r, In r (seq j (n - j)) -> Rabs (entry aug r j) = 0).
  { intros r Hin. apply in_seq in Hin. rewrite Hz by lia. apply Rabs_R0. }
  induction (seq j (n - j)) as [| r rs IH]; [reflexivity |].
  cbn [map fold_right]. rewrite (Hall r) by (left; reflexivity).
  rewrite IH by (intros; apply Hall; right; assumption).
  apply Rmax_left. lra.
Qed.

(** *** One column of the elimination keeps the invariants *)

Section Invariant.
Variables (n w : nat) (Z : nat -> Prop).

Lemma swap_rows_invariant (aug : matrix) (i k : nat) :
  Documented.loop_invariant n w Z aug -> (i < n)%nat -> (k < n)%nat ->
  Documented.loop_invariant n w Z (swap_rows i k aug).
Proof.
  intros [Hshape Hzero] Hi Hk. unfold swap_rows. split.
  - apply shape_set_row; [apply shape_set_row |];
      try exact Hshape; apply (shape_row n w); assumption.
  - intros j Hj r Hr. specialize (Hzero j Hj).
    destruct Hshape as [Hn _].
    destruct (Nat.eq_dec k r) as [-> | Hkr].
    + rewrite entry_set_row_same by (rewrite set_row_length; lia).
      apply (Hzero i Hi).
    + rewrite entry_set_row_other by exact Hkr.
      destruct (Nat.eq_dec i r) as [-> | Hir].
      * rewrite entry_set_row_same by lia. apply (Hzero k Hk).
      * rewrite entry_set_row_other by exact Hir. apply Hzero. exact Hr.
Qed.

Lemma scale_row_invariant (aug : matrix) (col : nat) (c : R) :
  Documented.loop_invariant n w Z aug -> (col < n)%nat ->
  Documented.loop_invariant n w Z
    (set_row col (map (fun x => x * c) (row aug col)) aug).
Proof.
  intros [Hshape Hzero] Hcol. split.
  - apply shape_set_row; [exact Hshape |].
    rewrite length_map. apply (shape_row n w); assumption.
  - intros j Hj r Hr. specialize (Hzero j Hj). destruct Hshape as [Hn _].
    destruct (Nat.eq_dec col r) as [-> | Hne].
    + rewrite entry_set_row_same by lia. rewrite nth_scaled.
      fold (entry aug r j). rewrite Hzero by exact Hr. lra.
    + rewrite entry_set_row_other by exact Hne. apply Hzero. exact Hr.
Qed.

Lemma eliminate_row_invariant (aug : matrix) (col r : nat) :
  Documented.loop_invariant n w Z aug -> (col < n)%nat -> (r < n)%nat ->
  exists aug', eliminate_row col aug r = Ok aug'
               /\ Documented.loop_invariant n w Z aug'.
Proof.
  intros Hinv Hcol Hr. unfold eliminate_row.
  destruct (Nat.eqb r col); [exists aug; split; [reflexivity | exact Hinv] |].
  destruct (Rlt_dec (Rabs (entry aug r col)) 1e-12);
    [exists aug; split; [reflexivity | exact Hinv] |].
  destruct Hinv as [Hshape Hzero].
  assert (Hlr : length (row aug r) = w) by (apply (shape_row n w); assumption).
  assert (Hlc : length (row aug col) = w) by (apply (shape_row n w); assumption).
  rewrite zip_strict_ok by congruence. cbn [bind].
  eexists. split; [reflexivity |]. split.
  - apply shape_set_row; [exact Hshape |].
    rewrite length_map, length_combine, Hlr, Hlc. apply Nat.min_id.
  - intros j Hj r' Hr'. specialize (Hzero j Hj). destruct Hshape as [Hn _].
    destruct (Nat.eq_dec r r') as [<- | Hne].
    + rewrite entry_set_row_same by lia.
      rewrite nth_eliminated by congruence.
      fold (entry aug r j) (entry aug col j).
      rewrite (Hzero r Hr), (Hzero col Hcol). lra.
    + rewrite entry_set_row_other by exact Hne. apply Hzero. exact Hr'.
Qed.

Lemma eliminate_rows_invariant (aug : matrix) (col : nat) (rs : list nat) :
  Documented.loop_invariant n w Z aug -> (col < n)%nat ->
  Forall (fun r => (r < n)%nat) rs ->
  exists aug', foldM (eliminate_row col) rs aug = Ok aug'
               /\ Documented.loop_invariant n w Z aug'.
Proof.
  intros Hinv Hcol Hrs. revert aug Hinv.
  induction Hrs as [| r rs Hr Hrs IH]; intros aug Hinv.
  - exists aug. split; [reflexivity | exact Hinv].
  - destruct (eliminate_row_invariant aug col r Hinv Hcol Hr) as [aug1 [H1 Hinv1]].
    cbn [foldM]. rewrite H1. apply IH. exact Hinv1.
Qed.

(** A column either raises the singular-matrix error, exactly when its
    largest magnitude from the diagonal down is below the threshold, or
    goes through and keeps the invariants. *)
Lemma pivot_column_cases (aug : matrix) (col : nat) :
  Documented.loop_invariant n w Z aug -> (col < n)%nat ->
  (Documented.column_max_abs aug col n < 1e-12
   /\ pivot_column n aug col = Raise SingularMatrix)
  \/ (1e-12 <= Documented.column_max_abs aug col n
      /\ exists aug', pivot_column n aug col = Ok aug'
                      /\ Documented.loop_invariant n w Z aug').
Proof.
  intros Hinv Hcol. unfold pivot_column.
  destruct (find_pivot_spec aug col n Hcol) as [Hmax Hpivot].
  rewrite Hmax.
  destruct (Rlt_dec (Documented.column_max_abs aug col n) 1e-12) as [Hsmall | Hbig].
  - left. split; [exact Hsmall | reflexivity].
  - right. split; [lra |].
    set (aug1 := if Nat.eqb (find_pivot aug col n) col then aug
                 else swap_rows col (find_pivot aug col n) aug).
    assert (Hinv1 : Documented.loop_invariant n w Z aug1).
    { unfold aug1. destruct (Nat.eqb (find_pivot aug col n) col);
        [exact Hinv | apply swap_rows_invariant; assumption]. }
    apply eliminate_rows_invariant; [| exact Hcol |].
    + apply scale_row_invariant; assumption.
    + apply Forall_forall. intros r Hin. apply in_seq in Hin. lia.
Qed.

(** The loop over the first [k] columns: either some column [col < k]
    was reached with a largest magnitude below the threshold and the loop
    raised there, or all [k] columns went through. *)
Lemma reduce_columns_cases (aug0 : matrix) (k : nat) :
  Documented.loop_invariant n w Z aug0 -> (k <= n)%nat ->
  (reduce_columns n (seq 0 k) aug0 = Raise SingularMatrix
   /\ exists col aug,
        (col < k)%nat
        /\ reduce_columns n (seq 0 col) aug0 = Ok aug
        /\ Documented.column_max_abs aug col n < 1e-12)
  \/ (exists aug,
        reduce_columns n (seq 0 k) aug0 = Ok aug
        /\ Documented.loop_invariant n w Z aug
        /\ forall col aug',
             (col < k)%nat ->
             reduce_columns n (seq 0 col) aug0 = Ok aug' ->
             1e-12 <= Documented.column_max_abs aug' col n).
Proof.
  intros Hinv0. induction k as [| k IH]; intros Hk.
  - right. exists aug0. split; [reflexivity |]. split; [exact Hinv0 |].
    intros col aug' Hcol. lia.
  - unfold reduce_columns in *. rewrite seq_S, foldM_app. cbn [Nat.add].
    destruct IH as [[Hraise [col [aug [Hcol [Hreach Hsmall]]]]]
                   | [aug [Hreach [Hinv Hbig]]]]; [lia | |].
    + left. rewrite Hraise. split; [reflexivity |].
      exists col, aug. split; [lia | split; assumption].
    + rewrite Hreach. cbn [bind foldM].
      destruct (pivot_column_cases aug k Hinv ltac:(lia))
        as [[Hsmall Hraise] | [Hlarge [aug' [Hok Hinv']]]].
      * left. rewrite Hraise. split; [reflexivity |].
        exists k, aug. split; [lia | split; assumption].
      * right. rewrite Hok. exists aug'. split; [reflexivity |].
        split; [exact Hinv' |].
        intros col aug'' Hcol Hreach''.
        destruct (Nat.eq_dec col k) as [-> | Hne].
        -- rewrite Hreach in Hreach''. inversion Hreach''; subst. exact Hlarge.
        -- apply (Hbig col aug''); [lia | exact Hreach''].
Qed.

End Invariant.

(** *** The augmented matrix *)

Lemma identity_length (n : nat) : length (identity n) = n.
Proof. unfold identity. rewrite length_map, length_seq. reflexivity. Qed.

Lemma identity_rows (n : nat) (row : vector) :
  In row (identity n) -> length row = n.
Proof.
  unfold identity. intros Hin. apply in_map_iff in Hin.
  destruct Hin as [i [<- _]]. rewrite length_map, length_seq. reflexivity.
Qed.

Lemma augment_square (a : matrix) (n : nat) :
  Documented.square n a ->
  exists aug0,
    augment a = Ok aug0
    /\ Documented.shape n (n + n) aug0
    /\ forall r c, (r < n)%nat -> (c < n)%nat -> entry aug0 r c = entry a r c.
Proof.
  intros [Hn Hrows]. unfold augment. rewrite Hn.
  rewrite zip_strict_ok by (rewrite identity_length; exact Hn). cbn [bind].
  eexists. split; [reflexivity |]. split; [split |].
  - rewrite length_map, length_combine, identity_length, Hn. apply Nat.min_id.
  - apply Forall_forall. intros row Hin. apply in_map_iff in Hin.
    destruct Hin as [[r1 r2] [<- Hin]]. cbn [fst snd]. rewrite length_app.
    rewrite Forall_forall in Hrows.
    rewrite (Hrows r1 (in_combine_l _ _ _ _ Hin)).
    rewrite (identity_rows n r2 (in_combine_r _ _ _ _ Hin)). reflexivity.
  - intros r c Hr Hc. unfold entry, row.
    pose proof (map_nth (fun p : list R * list R => fst p ++ snd p)
                  (combine a (identity n)) ([], []) r) as Hnth.
    cbn [fst snd app] in Hnth. unfold vector in *. rewrite Hnth.
    rewrite combine_nth by (rewrite identity_length; exact Hn).
    cbn [fst snd]. apply app_nth1.
    rewrite Forall_forall in Hrows. rewrite (Hrows (nth r a [])); [exact Hc |].
    apply nth_In. lia.
Qed.

Lemma reduce_columns_prefix (n : nat) (aug0 aug : matrix) (k col : nat) :
  (col <= k)%nat ->
  reduce_columns n (seq 0 k) aug0 = Ok aug ->
  exists aug', reduce_columns n (seq 0 col) aug0 = Ok aug'.
Proof.
  intros Hle Hred. unfold reduce_columns in *.
  replace k with (col + (k - col))%nat in Hred by lia.
  rewrite seq_app, foldM_app in Hred.
  destruct (foldM (pivot_column n) (seq 0 col) aug0) as [aug' |];
    [exists aug'; reflexivity | discriminate].
Qed.

(** C7.  On a square matrix, [invert_matrix] raises the singular-matrix
    error exactly when the elimination reaches some column whose largest
    absolute value from the diagonal row downward is below [1e-12]; a
    square matrix with a column of zeros always raises it; and when every
    column that is reached has such a largest value at or above [1e-12],
    the function returns a matrix. *)
Theorem invert_matrix_singular (a : matrix) (n : nat) :
  Documented.square n a ->
  (invert_matrix a = Raise SingularMatrix
   <-> exists col aug,
         (col < n)%nat
         /\ Documented.reached a col aug
         /\ Documented.column_max_abs aug col n < 1e-12)
  /\ (Documented.has_zero_column n a -> invert_matrix a = Raise SingularMatrix)
  /\ ((forall col aug,
         (col < n)%nat -> Documented.reached a col aug ->
         1e-12 <= Documented.column_max_abs aug col n) ->
      exists inv, invert_matrix a = Ok inv).
Proof.
  intros Hsq. destruct (augment_square a n Hsq) as [aug0 [Haug [Hshape Hentry]]].
  destruct Hsq as [Hn Hrows].
  unfold invert_matrix, Documented.reached. rewrite Haug, Hn. cbn [bind].
  assert (Hinv0 : Documented.loop_invariant n (n + n) (fun _ => False) aug0)
    by (split; [exact Hshape | intros j []]).
  pose proof (reduce_columns_cases n (n + n) (fun _ => False) aug0 n Hinv0 (le_n n))
    as Hcases.
  split; [split |]; [| | split].
  - intros Hraise.
    destruct Hcases as [[_ [col [aug [Hcol [Hreach Hsmall]]]]] | [aug [Hok _]]].
    + exists col, aug. split; [exact Hcol |]. split; [| exact Hsmall].
      exists aug0. split; [reflexivity | exact Hreach].
    + rewrite Hok in Hraise. discriminate.
  - intros [col [aug [Hcol [[aug0' [Ha Hreach]] Hsmall]]]].
    inversion Ha; subst aug0'.
    destruct Hcases as [[Hraise _] | [aug' [_ [_ Hbig]]]].
    + rewrite Hraise. reflexivity.
    + specialize (Hbig col aug Hcol Hreach). lra.
  - intros [j [Hj Hzero]].
    assert (Hinvz : Documented.loop_invariant n (n + n) (eq j) aug0).
    { split; [exact Hshape |]. intros j' <- r Hr.
      rewrite Hentry by assumption. apply Hzero. exact Hr. }
    destruct (reduce_columns_cases n (n + n) (eq j) aug0 n Hinvz (le_n n))
      as [[Hraise _] | [aug [Hok [_ Hbig]]]].
    + rewrite Hraise. reflexivity.
    + destruct (reduce_columns_prefix n aug0 aug n j ltac:(lia) Hok) as [augj Hreach].
      destruct (reduce_columns_cases n (n + n) (eq j) aug0 j Hinvz ltac:(lia))
        as [[Hraise _] | [augj' [Hokj [[_ Hzj] _]]]].
      * rewrite Hraise in Hreach. discriminate.
      * rewrite Hokj in Hreach. inversion Hreach; subst augj'.
        specialize (Hbig j augj Hj Hokj).
        rewrite (zero_column_max n j augj (Hzj j eq_refl)) in Hbig. lra.
  - intros Hall.
    destruct Hcases as [[_ [col [aug [Hcol [Hreach Hsmall]]]]] | [aug [Hok _]]].
    + assert (Hge : 1e-12 <= Documented.column_max_abs aug col n).
      { apply Hall; [exact Hcol |]. exists aug0. split; [reflexivity | exact Hreach]. }
      lra.
    + rewrite Hok. eexists. reflexivity.
Qed.

(** *** Running the elimination on small matrices *)

Ltac split_abs :=
  unfold Rabs in *;
  repeat match goal with
    | H : context [Rcase_abs ?z] |- _ => destruct (Rcase_abs z)
    | |- context [Rcase_abs ?z] => destruct (Rcase_abs z)
    end.

Ltac no_test t :=
  lazymatch t with
  | context [Rgt_dec _ _] => fail
  | context [Rlt_dec _ _] => fail
  | _ => idtac
  end.

Ltac refute := exfalso; split_abs; lra.

(** Decide one comparison whose operands hold no other comparison. *)
Ltac decide_one :=
  match goal with
  | |- context [Rgt_dec ?x ?y] =>
      no_test x; no_test y;
      destruct (Rgt_dec x y); [try refute | try refute]
  | |- context [Rlt_dec ?x ?y] =>
      no_test x; no_test y;
      destruct (Rlt_dec x y); [try refute | try refute]
  end.

Ltac run_kernel :=
  unfold invert_matrix, augment, reduce_columns, pivot_column, eliminate,
    eliminate_row, find_pivot, swap_rows, entry, row, identity in *;
  cbn [nth set_row map Nat.eqb seq foldM fold_left bind fst snd zip_strict
       skipn Nat.add Nat.sub length app] in *.

Ltac run_inversion := run_kernel; repeat (decide_one; run_kernel).

Example invert_diagonal :
  exists inv,
    invert_matrix Fixtures.a_diagonal = Ok inv
    /\ entry inv 0 0 = 1 / 2 /\ entry inv 0 1 = 0
    /\ entry inv 1 0 = 0 /\ entry inv 1 1 = 1 / 4.
Proof.
  unfold Fixtures.a_diagonal. run_inversion.
  eexists. split; [reflexivity |]. cbn [nth]. repeat split; lra.
Qed.

(** A matrix that needs a row swap in its first column and a genuine
    elimination in both. *)
Example invert_with_swap :
  exists inv,
    invert_matrix [[1; 2]; [3; 4]] = Ok inv
    /\ entry inv 0 0 = -2 /\ entry inv 0 1 = 1
    /\ entry inv 1 0 = 1.5 /\ entry inv 1 1 = -0.5.
Proof.
  run_inversion.
  eexists. split; [reflexivity |]. cbn [nth]. repeat split; lra.
Qed.

Example invert_zero_column :
  invert_matrix Fixtures.a_zero_column = Raise SingularMatrix.
Proof. unfold Fixtures.a_zero_column. run_inversion. reflexivity. Qed.

Lemma invert_matrix_singular_witness :
  invert_matrix Fixtures.a_zero_column = Raise SingularMatrix
  /\ exists inv, invert_matrix Fixtures.a_diagonal = Ok inv.
Proof.
  split.
  - apply (invert_matrix_singular Fixtures.a_zero_column 2).
    + split; [reflexivity | repeat constructor].
    + exists 0%nat. split; [lia |].
      intros [| [| r]] Hr; [reflexivity | reflexivity | lia].
  - apply (invert_matrix_singular Fixtures.a_diagonal 2).
    + split; [reflexivity | repeat constructor].
    + intros col aug Hcol [aug0 [Haug Hreach]].
      unfold Fixtures.a_diagonal in *.
      assert (Hfirst : exists aug1,
                 reduce_columns 2 (seq 0 1) [[2; 0; 1; 0]; [0; 4; 0; 1]] = Ok aug1
                 /\ entry aug1 1 1 = 4).
      { run_inversion. eexists. split; [reflexivity |]. reflexivity. }
      destruct Hfirst as [aug1 [Hfirst Hentry]].
      unfold augment in Haug.
      cbn [length identity seq map Nat.eqb zip_strict bind fst snd app] in Haug.
      inversion Haug; subst aug0. cbn [length] in Hreach.
      unfold Documented.column_max_abs.
      destruct col as [| [| col]]; [| | lia].
      * cbn in Hreach. inversion Hreach; subst aug.
        cbn [Nat.sub seq map fold_right]. unfold entry, row. cbn [nth].
        unfold Rmax. repeat destruct (Rle_dec _ _); split_abs; lra.
      * rewrite Hfirst in Hreach. inversion Hreach; subst aug.
        cbn [Nat.sub seq map fold_right]. rewrite Hentry.
        unfold Rmax. repeat destruct (Rle_dec _ _); split_abs; lra.
Defined.

End Inversion.

(** ** Products, transposes and the identity *)

Section KernelAlgebra.
Import Kernel.
Local Open Scope R_scope.

Lemma sum_nil : Num.sum [] = 0.
Proof. reflexivity. Qed.

Lemma sum_products_swap (a b : vector) :
  Num.sum (map (fun p => fst p * snd p) (combine a b))
  = Num.sum (map (fun p => fst p * snd p) (combine b a)).
Proof.
  revert b. induction a as [| x a IH]; intros [| y b]; cbn [combine map];
    try reflexivity.
  rewrite !sum_cons, IH. cbn [fst snd]. lra.
Qed.

Lemma dot_comm (a b : vector) : dot a b = dot b a.
Proof.
  unfold dot. destruct (Nat.eq_dec (length a) (length b)) as [Heq | Hne].
  - rewrite (zip_strict_ok a b Heq), (zip_strict_ok b a (eq_sym Heq)). cbn [bind].
    rewrite sum_products_swap. reflexivity.
  - rewrite (zip_strict_mismatch a b Hne).
    rewrite (zip_strict_mismatch b a (fun H => Hne (eq_sym H))). reflexivity.
Qed.

(** [dot] does not depend on the order of its arguments, succeeds
    exactly on vectors of equal length, and raises the error of the
    strict [zip] otherwise. *)
Theorem dot_symmetric (a b : vector) :
  dot a b = dot b a
  /\ (length a = length b -> exists v, dot a b = Ok v)
  /\ (length a <> length b -> dot a b = Raise ZipLengthMismatch).
Proof.
  split; [apply dot_comm |]. unfold dot. split.
  - intros Heq. rewrite (zip_strict_ok a b Heq). eexists. reflexivity.
  - intros Hne. rewrite (zip_strict_mismatch a b Hne). reflexivity.
Qed.

Lemma dot_symmetric_witness :
  (exists v, dot [1; 2] [3; 4] = Ok v) /\ dot [1; 2] [3] = Raise ZipLengthMismatch.
Proof.
  split.
  - apply (dot_symmetric [1; 2] [3; 4]). reflexivity.
  - apply (dot_symmetric [1; 2] [3]). cbn. lia.
Defined.

(** The product of a vector with a unit vector picks one coordinate. *)
Lemma sum_unit (row : vector) (s t : nat) :
  Num.sum (map (fun p => fst p * snd p)
             (combine row (map (fun i => if Nat.eqb i t then 1 else 0)
                             (seq s (length row)))))
  = if Nat.leb s t && Nat.ltb t (s + length row) then nth (t - s) row 0 else 0.
Proof.
  revert s. induction row as [| v row IH]; intros s.
  - cbn [length seq map combine]. rewrite sum_nil.
    destruct (Nat.leb s t && Nat.ltb t (s + 0)); [destruct (t - s)%nat |]; reflexivity.
  - cbn [length seq map combine]. rewrite sum_cons, IH. cbn [fst snd].
    destruct (Nat.eqb_spec s t) as [-> | Hne].
    + replace (Nat.leb (S t) t) with false by (symmetry; apply Nat.leb_gt; lia).
      replace (Nat.leb t t) with true by (symmetry; apply Nat.leb_le; lia).
      replace (Nat.ltb t (t + S (length row))) with true
        by (symmetry; apply Nat.ltb_lt; lia).
      cbn [andb]. rewrite Nat.sub_diag. cbn [nth]. lra.
    + destruct (Nat.leb_spec (S s) t) as [Hle | Hgt].
      * replace (Nat.leb s t) with true by (symmetry; apply Nat.leb_le; lia).
        replace (s + S (length row))%nat with (S s + length row)%nat by lia.
        destruct (Nat.ltb t (S s + length row)); cbn [andb]; [| lra].
        replace (t - s)%nat with (S (t - S s)) by lia. cbn [nth]. lra.
      * replace (Nat.leb s t) with false by (symmetry; apply Nat.leb_gt; lia).
        cbn [andb]. lra.
Qed.

Lemma dot_unit (row : vector) (j : nat) :
  (j < length row)%nat ->
  dot row (map (fun i => if Nat.eqb i j then 1 else 0) (seq 0 (length row)))
  = Ok (nth j row 0).
Proof.
  intros Hj. unfold dot.
  rewrite zip_strict_ok by (rewrite length_map, length_seq; reflexivity).
  cbn [bind]. rewrite sum_unit.
  replace (Nat.leb 0 j) with true by reflexivity.
  replace (Nat.ltb j (0 + length row)) with true by (symmetry; apply Nat.ltb_lt; lia).
  cbn [andb]. rewrite Nat.sub_0_r. reflexivity.
Qed.

Lemma map_nth_rows {A : Type} (d : A) (l : list A) :
  map (fun i => nth i l d) (seq 0 (length l)) = l.
Proof.
  induction l as [| v l IH]; [reflexivity |].
  cbn [length seq map nth]. f_equal.
  rewrite <- seq_shift, map_map. exact IH.
Qed.

Lemma rectangular_row (d : nat) (m : matrix) (i : nat) :
  Documented.rectangular d m -> (i < length m)%nat -> length (nth i m []) = d.
Proof.
  intros Hrect Hi. unfold Documented.rectangular in Hrect.
  rewrite Forall_forall in Hrect. apply Hrect. apply nth_In. exact Hi.
Qed.

Lemma rectangular_forallb (d : nat) (r : vector) (rest : matrix) :
  Documented.rectangular d (r :: rest) ->
  forallb (fun r' => Nat.eqb (length r') (length r)) rest = true.
Proof.
  intros Hrect. inversion Hrect as [| ? ? Hr Hrest]; subst.
  apply forallb_forall. intros r' Hin. rewrite Forall_forall in Hrest.
  rewrite (Hrest r' Hin). apply Nat.eqb_refl.
Qed.

(** The transpose of a rectangular matrix, column by column. *)
Lemma mat_transpose_ok (d : nat) (m : matrix) :
  m <> [] -> Documented.rectangular d m ->
  mat_transpose m = Ok (map (fun j => Documented.column j m) (seq 0 d)).
Proof.
  intros Hne Hrect. destruct m as [| r rest]; [congruence |].
  unfold mat_transpose. rewrite (rectangular_forallb d r rest Hrect).
  inversion Hrect; subst. reflexivity.
Qed.

Lemma column_length (j : nat) (m : matrix) : length (Documented.column j m) = length m.
Proof. unfold Documented.column. apply length_map. Qed.

Lemma column_nth (j i : nat) (m : matrix) :
  nth i (Documented.column j m) 0 = entry m i j.
Proof.
  unfold Documented.column, entry, row.
  pose proof (map_nth (fun r : list R => nth j r 0) m [] i) as Hn.
  cbv beta in Hn. rewrite <- Hn. f_equal. destruct j; reflexivity.
Qed.

Lemma transpose_columns_rectangular (d : nat) (m : matrix) :
  Documented.rectangular (length m)
    (map (fun j => Documented.column j m) (seq 0 d)).
Proof.
  apply Forall_forall. intros c Hin. apply in_map_iff in Hin.
  destruct Hin as [j [<- _]]. apply column_length.
Qed.

(** [mat_transpose] raises exactly on ragged input.  On a non-empty
    matrix with [n] rows of width [d] it returns [d] rows of width [n]
    with the entries mirrored; transposing again gives the matrix back
    when [d] is positive, while rows of width 0 are lost. *)
Theorem mat_transpose_round_trip (m : matrix) :
  (mat_transpose m = Raise ZipLengthMismatch
   <-> ~ Documented.rectangular (length (hd [] m)) m)
  /\ (forall d,
        m <> [] -> Documented.rectangular d m ->
        exists t,
          mat_transpose m = Ok t
          /\ length t = d
          /\ Documented.rectangular (length m) t
          /\ (forall i j, entry t j i = entry m i j)
          /\ ((0 < d)%nat -> mat_transpose t = Ok m)
          /\ (d = 0%nat -> t = [])).
Proof.
  split.
  - destruct m as [| r rest].
    + cbn. split; [discriminate | intros Hn; exfalso; apply Hn; constructor].
    + cbn [hd]. unfold mat_transpose.
      destruct (forallb (fun r' => Nat.eqb (length r') (length r)) rest) eqn:Hall.
      * split; [discriminate |]. intros Hn. exfalso. apply Hn.
        constructor; [reflexivity |]. apply Forall_forall. intros r' Hin.
        rewrite forallb_forall in Hall. apply Nat.eqb_eq. apply Hall. exact Hin.
      * split; [| reflexivity]. intros _ Hrect.
        rewrite (rectangular_forallb _ r rest Hrect) in Hall. discriminate.
  - intros d Hne Hrect. rewrite (mat_transpose_ok d m Hne Hrect).
    set (t := map (fun j => Documented.column j m) (seq 0 d)).
    assert (Hlt : length t = d) by (unfold t; rewrite length_map, length_seq; reflexivity).
    assert (Hentry : forall i j, entry t j i = entry m i j).
    { intros i j. destruct (Nat.lt_ge_cases j d) as [Hj | Hj].
      - unfold entry at 1, row. unfold t. rewrite nth_map_seq by exact Hj.
        apply column_nth.
      - unfold entry, row. rewrite (nth_overflow t) by lia.
        destruct (Nat.lt_ge_cases i (length m)) as [Hi | Hi].
        + rewrite (nth_overflow (nth i m []))
            by (rewrite (rectangular_row d m i Hrect Hi); exact Hj).
          destruct i; reflexivity.
        + rewrite (nth_overflow m) by exact Hi. destruct i, j; reflexivity. }
    exists t. split; [reflexivity |]. split; [exact Hlt |].
    split; [apply transpose_columns_rectangular |].
    split; [exact Hentry |]. split.
    + intros Hd.
      assert (Htne : t <> []) by (intros E; rewrite E in Hlt; cbn in Hlt; lia).
      rewrite (mat_transpose_ok (length m) t Htne (transpose_columns_rectangular d m)).
      f_equal.
      transitivity (map (fun i => nth i m []) (seq 0 (length m)));
        [| apply map_nth_rows].
      apply map_ext_in. intros i Hin. apply in_seq in Hin.
      apply (nth_ext _ _ 0 0).
      * rewrite column_length. transitivity d; [exact Hlt |].
        symmetry. apply (rectangular_row d m i Hrect). lia.
      * intros j Hj. rewrite column_nth. apply Hentry.
    + intros ->. reflexivity.
Qed.

Lemma mat_transpose_round_trip_witness :
  exists t, mat_transpose [[1; 2; 3]; [4; 5; 6]] = Ok t
            /\ mat_transpose t = Ok [[1; 2; 3]; [4; 5; 6]].
Proof.
  destruct (proj2 (mat_transpose_round_trip [[1; 2; 3]; [4; 5; 6]]) 3%nat)
    as [t [Ht [_ [_ [_ [Hback _]]]]]].
  - discriminate.
  - repeat constructor.
  - exists t. split; [exact Ht | apply Hback; lia].
Defined.

Lemma mapM_map {A B C : Type} (f : B -> result C) (h : A -> B) (l : list A) :
  mapM f (map h l) = mapM (fun a => f (h a)) l.
Proof.
  induction l as [| a l IH]; [reflexivity |].
  cbn [map mapM]. rewrite IH. reflexivity.
Qed.

Lemma identity_column (n j : nat) :
  (j < n)%nat -> Documented.column j (identity n) = Documented.unit_vector n j.
Proof.
  intros Hj. unfold Documented.column, identity, Documented.unit_vector.
  rewrite map_map. apply map_ext. intros i.
  rewrite nth_map_seq by exact Hj. reflexivity.
Qed.

Lemma identity_as_rows (n : nat) : identity n = map (Documented.unit_vector n) (seq 0 n).
Proof.
  unfold identity, Documented.unit_vector. apply map_ext. intros i.
  apply map_ext. intros j. rewrite Nat.eqb_sym. reflexivity.
Qed.

Lemma identity_transpose (n : nat) :
  mat_transpose (identity n) = Ok (map (Documented.unit_vector n) (seq 0 n)).
Proof.
  destruct n as [| n]; [reflexivity |].
  rewrite (mat_transpose_ok (S n)).
  - f_equal. apply map_ext_in. intros j Hin. apply in_seq in Hin.
    apply identity_column. lia.
  - discriminate.
  - apply Forall_forall. intros r Hin. apply identity_rows. exact Hin.
Qed.

Lemma dot_unit_vector (r : vector) (j : nat) :
  (j < length r)%nat -> dot r (Documented.unit_vector (length r) j) = Ok (nth j r 0).
Proof. apply dot_unit. Qed.

(** The identity is neutral for the three products: on the right and on
    the left of a rectangular matrix, and in front of a vector. *)
Theorem identity_neutral (d : nat) (a : matrix) (v : vector) :
  Documented.rectangular d a ->
  mat_mul a (identity d) = Ok a
  /\ mat_mul (identity (length a)) a = Ok a
  /\ mat_vec_mul (identity (length v)) v = Ok v.
Proof.
  intros Hrect. split; [| split].
  - unfold mat_mul. rewrite identity_transpose. cbn [bind].
    rewrite (mapM_ok _ (fun r : vector => r)); [rewrite map_id; reflexivity |].
    intros r Hin. rewrite mapM_map.
    assert (Hr : length r = d).
    { unfold Documented.rectangular in Hrect. rewrite Forall_forall in Hrect.
      apply Hrect. exact Hin. }
    rewrite (mapM_ok _ (fun j => nth j r 0)).
    + rewrite <- Hr. rewrite map_nth_seq. reflexivity.
    + intros j Hj. apply in_seq in Hj. rewrite <- Hr. apply dot_unit_vector. lia.
  - unfold mat_mul. destruct a as [| r0 rest] eqn:Ha; [reflexivity |].
    rewrite <- Ha in *. assert (Hne : a <> []) by (rewrite Ha; discriminate).
    rewrite (mat_transpose_ok d a Hne Hrect). cbn [bind].
    rewrite identity_as_rows, mapM_map.
    rewrite (mapM_ok _ (fun i => nth i a [])); [rewrite map_nth_rows; reflexivity |].
    intros i Hi. apply in_seq in Hi. rewrite mapM_map.
    rewrite (mapM_ok _ (fun j => nth j (nth i a []) 0)).
    + rewrite <- (rectangular_row d a i Hrect) by lia.
      rewrite map_nth_seq. reflexivity.
    + intros j Hj. rewrite dot_comm.
      rewrite <- (column_length j a). rewrite dot_unit_vector
        by (rewrite column_length; lia).
      rewrite column_nth. reflexivity.
  - unfold mat_vec_mul. rewrite identity_as_rows, mapM_map.
    rewrite (mapM_ok _ (fun i => nth i v 0)); [rewrite map_nth_seq; reflexivity |].
    intros i Hi. apply in_seq in Hi. rewrite dot_comm. apply dot_unit_vector. lia.
Qed.

Lemma identity_neutral_witness :
  mat_mul [[1; 2]; [3; 4]; [5; 6]] (identity 2) = Ok [[1; 2]; [3; 4]; [5; 6]].
Proof.
  apply (identity_neutral 2 [[1; 2]; [3; 4]; [5; 6]] []). repeat constructor.
Defined.

End KernelAlgebra.

(** ** More on standardization and prediction *)

Section StandardizedFeatures.
Import Kernel.
Local Open Scope R_scope.

(** *** When [standardize] fails *)

Lemma accumulate_fits (g : nat -> R -> R) (j : nat) (acc row : vector) :
  (length row <= length acc)%nat ->
  exists res, accumulate g j acc row = Ok res /\ length res = length acc.
Proof.
  revert j acc. induction row as [| v row IH]; intros j acc Hlen.
  - exists acc. destruct acc; split; reflexivity.
  - destruct acc as [| a acc]; [cbn in Hlen; lia |].
    destruct (IH (S j) acc) as [rest [Hrest Hl]]; [cbn in Hlen; lia |].
    exists ((a + g j v) :: rest). cbn [accumulate]. rewrite Hrest.
    split; [reflexivity | cbn [length]; congruence].
Qed.

Lemma accumulate_overflows (g : nat -> R -> R) (j : nat) (acc row : vector) :
  (length acc < length row)%nat -> accumulate g j acc row = Raise IndexOutOfRange.
Proof.
  revert j acc. induction row as [| v row IH]; intros j acc Hlen;
    [cbn in Hlen; lia |].
  destruct acc as [| a acc]; [reflexivity |].
  cbn [accumulate]. rewrite IH by (cbn in Hlen; lia). reflexivity.
Qed.

Lemma column_totals_fits (g : nat -> R -> R) (d : nat) (x : matrix) :
  Forall (fun row => (length row <= d)%nat) x ->
  exists res, column_totals g d x = Ok res /\ length res = d.
Proof.
  unfold column_totals. intros Hall.
  assert (Hgen : forall acc, length acc = d ->
            exists res, foldM (fun a row => accumulate g 0 a row) x acc = Ok res
                        /\ length res = d).
  { induction Hall as [| row x Hrow Hx IH]; intros acc Hacc.
    - exists acc. split; [reflexivity | exact Hacc].
    - destruct (accumulate_fits g 0 acc row) as [acc1 [H1 Hl1]]; [lia |].
      cbn [foldM]. rewrite H1. apply IH. congruence. }
  apply Hgen. apply repeat_length.
Qed.

Lemma column_totals_overflows (g : nat -> R -> R) (d : nat) (x : matrix) :
  Exists (fun row => (d < length row)%nat) x ->
  column_totals g d x = Raise IndexOutOfRange.
Proof.
  unfold column_totals. intros Hex.
  assert (Hgen : forall acc, length acc = d ->
            foldM (fun a row => accumulate g 0 a row) x acc = Raise IndexOutOfRange).
  { induction Hex as [row x Hrow | row x Hex IH]; intros acc Hacc; cbn [foldM].
    - rewrite accumulate_overflows by lia. reflexivity.
    - destruct (Nat.le_gt_cases (length row) (length acc)) as [Hle | Hgt].
      + destruct (accumulate_fits g 0 acc row Hle) as [acc1 [H1 Hl1]].
        rewrite H1. apply IH. congruence.
      + rewrite accumulate_overflows by exact Hgt. reflexivity. }
  apply Hgen. apply repeat_length.
Qed.

Lemma mapM_raises {A B : Type} (f : A -> result B) (e : error) (l : list A) :
  (forall a, In a l -> (exists b, f a = Ok b) \/ f a = Raise e) ->
  (exists a, In a l /\ f a = Raise e) ->
  mapM f l = Raise e.
Proof.
  induction l as [| a l IH]; intros Hall [a' [Hin Hraise]]; [contradiction |].
  cbn [mapM]. destruct (Hall a (or_introl eq_refl)) as [[b Hb] | Hr].
  - rewrite Hb. rewrite IH; [reflexivity | |].
    + intros a0 Ha0. apply Hall. right. exact Ha0.
    + destruct Hin as [-> | Hin]; [congruence |]. exists a'. split; assumption.
  - rewrite Hr. reflexivity.
Qed.

Lemma z_row_short (d : nat) (means stds row : vector) :
  (length row < d)%nat -> z_row d means stds row = Raise IndexOutOfRange.
Proof.
  intros Hlen. unfold z_row. apply mapM_raises.
  - intros j _. destruct (nth_error row j); [left; eexists | right]; reflexivity.
  - exists (length row). split; [apply in_seq; lia |].
    rewrite (proj2 (nth_error_None row (length row))) by lia. reflexivity.
Qed.

(** [standardize] fails exactly on the empty matrix and on matrices
    whose rows do not all have the width of the first one, and always with
    an index error. *)
Theorem standardize_fails (x : matrix) :
  (standardize x = Raise IndexOutOfRange
   <-> x = [] \/ ~ Documented.rectangular (length (hd [] x)) x)
  /\ (forall e, standardize x = Raise e -> e = IndexOutOfRange).
Proof.
  assert (Hfail : x = [] \/ ~ Documented.rectangular (length (hd [] x)) x ->
                  standardize x = Raise IndexOutOfRange).
  { intros [-> | Hragged]; [reflexivity |].
    destruct x as [| x0 rest]; [exfalso; apply Hragged; constructor |].
    cbn [hd] in Hragged. unfold standardize.
    set (x := x0 :: rest) in *. set (d := length x0) in *.
    destruct (Forall_Exists_dec (fun row => (length row <= d)%nat)
                (fun row => le_dec (length row) d) x) as [Hfit | Hlong].
    - destruct (column_totals_fits (fun _ v => v) d x Hfit) as [sums [Hs _]].
      rewrite Hs. cbn [bind].
      match goal with
      | |- context [column_totals ?g d x] =>
          destruct (column_totals_fits g d x Hfit) as [sq [Hq _]]; rewrite Hq
      end.
      cbn [bind]. rewrite (mapM_raises _ IndexOutOfRange); [reflexivity | |].
      + intros row Hin.
        destruct (Nat.lt_ge_cases (length row) d) as [Hlt | Hge].
        * right. apply z_row_short. exact Hlt.
        * left. eexists. apply z_row_ok.
          rewrite Forall_forall in Hfit. specialize (Hfit row Hin). lia.
      + destruct (Forall_Exists_dec (fun row => length row = d)
                    (fun row => Nat.eq_dec (length row) d) x) as [Hrect | Hbad].
        * contradiction.
        * apply Exists_exists in Hbad. destruct Hbad as [row [Hin Hne]].
          exists row. split; [exact Hin |]. apply z_row_short.
          rewrite Forall_forall in Hfit. specialize (Hfit row Hin). lia.
    - rewrite column_totals_overflows; [reflexivity |].
      apply Exists_exists in Hlong. destruct Hlong as [row [Hin Hgt]].
      apply Exists_exists. exists row. split; [exact Hin | lia]. }
  assert (Hok : ~ (x = [] \/ ~ Documented.rectangular (length (hd [] x)) x) ->
                exists r, standardize x = Ok r).
  { intros Hgood. eexists. apply (standardize_ok x (length (hd [] x))).
    - intros E. apply Hgood. left. exact E.
    - destruct (Forall_Exists_dec (fun row => length row = length (hd [] x))
                  (fun row => Nat.eq_dec (length row) (length (hd [] x))) x)
        as [Hrect | Hbad]; [exact Hrect |].
      exfalso. apply Hgood. right. intros Hrect.
      apply Exists_exists in Hbad. destruct Hbad as [row [Hin Hne]].
      unfold Documented.rectangular in Hrect. rewrite Forall_forall in Hrect.
      apply Hne. apply Hrect. exact Hin. }
  assert (Hdec : (x = [] \/ ~ Documented.rectangular (length (hd [] x)) x)
                 \/ ~ (x = [] \/ ~ Documented.rectangular (length (hd [] x)) x)).
  { destruct x as [| x0 rest]; [left; left; reflexivity |].
    destruct (Forall_Exists_dec (fun row => length row = length (hd [] (x0 :: rest)))
                (fun row => Nat.eq_dec (length row) (length (hd [] (x0 :: rest))))
                (x0 :: rest)) as [Hrect | Hbad].
    - right. intros [E | Hn]; [discriminate | apply Hn; exact Hrect].
    - left. right. intros Hrect.
      apply Exists_exists in Hbad. destruct Hbad as [row [Hin Hne]].
      unfold Documented.rectangular in Hrect. rewrite Forall_forall in Hrect.
      apply Hne. apply Hrect. exact Hin. }
  split; [split |].
  - intros Hraise. destruct Hdec as [Hbad | Hgood]; [exact Hbad |].
    destruct (Hok Hgood) as [r Hr]. rewrite Hr in Hraise. discriminate.
  - exact Hfail.
  - intros e He. destruct Hdec as [Hbad | Hgood].
    + rewrite (Hfail Hbad) in He. inversion He. reflexivity.
    + destruct (Hok Hgood) as [r Hr]. rewrite Hr in He. discriminate.
Qed.

(** *** Prediction on the scale of the training set *)

Lemma scale_row_ok (d : nat) (row means stds : vector) :
  length row = d -> length means = d -> length stds = d ->
  (forall j, (j < d)%nat -> nth j stds 0 <> 0) ->
  scale_row row means stds
  = Ok (map (fun j => (nth j row 0 - nth j means 0) / nth j stds 0) (seq 0 d)).
Proof.
  intros Hr Hm Hs Hnz. unfold scale_row. rewrite Hr. apply mapM_ok.
  intros j Hin. apply in_seq in Hin.
  destruct (nth_error row j) as [v |] eqn:Hv;
    [| apply nth_error_None in Hv; lia].
  destruct (nth_error means j) as [m |] eqn:Hmj;
    [| apply nth_error_None in Hmj; lia].
  destruct (nth_error stds j) as [sd |] eqn:Hsj;
    [| apply nth_error_None in Hsj; lia].
  rewrite (nth_error_nth _ _ 0 Hv), (nth_error_nth _ _ 0 Hmj),
    (nth_error_nth _ _ 0 Hsj).
  destruct (Req_dec_T sd 0) as [E | _]; [| reflexivity].
  exfalso. apply (Hnz j); [lia |]. rewrite (nth_error_nth _ _ 0 Hsj). exact E.
Qed.

(** With the means and deviations that [standardize] returns for a
    training matrix of width [d]: scaling a training row gives its row of
    z-scores; on any row and weight vector of width [d] the two copies of
    [predict_row] succeed with the same value; and a weight vector of
    another length makes them raise the error of the strict [zip]. *)
Theorem prediction_on_training_scale (x : matrix) (d : nat) :
  x <> [] -> Documented.rectangular d x ->
  exists xz means stds,
    standardize x = Ok (xz, means, stds)
    /\ (forall i, (i < length x)%nat ->
          scale_row (nth i x []) means stds = Ok (nth i xz []))
    /\ (forall row w b,
          length row = d -> length w = d ->
          exists v, Train.predict_row row w b means stds = Ok v
                    /\ PowerTrain.predict_row row w b means stds = Ok v)
    /\ (forall row w b,
          length row = d -> length w <> d ->
          Train.predict_row row w b means stds = Raise ZipLengthMismatch
          /\ PowerTrain.predict_row row w b means stds = Raise ZipLengthMismatch).
Proof.
  intros Hne Hrect. pose proof (standardize_ok x d Hne Hrect) as Hstd.
  cbv zeta in Hstd.
  set (means := map (fun j => Documented.col_mean j x) (seq 0 d)) in *.
  set (stds := map (fun j => floor_std (Documented.sample_std j x)) (seq 0 d)) in *.
  assert (Hlm : length means = d)
    by (unfold means; rewrite length_map, length_seq; reflexivity).
  assert (Hls : length stds = d)
    by (unfold stds; rewrite length_map, length_seq; reflexivity).
  assert (Hnz : forall j, (j < d)%nat -> nth j stds 0 <> 0).
  { intros j Hj. unfold stds. rewrite nth_map_seq by exact Hj.
    apply floor_std_nonzero. }
  assert (Hscale : forall row, length row = d ->
            scale_row row means stds
            = Ok (map (fun j => (nth j row 0 - nth j means 0) / nth j stds 0)
                    (seq 0 d)))
    by (intros row Hr; apply scale_row_ok; assumption).
  eexists _, means, stds. split; [exact Hstd |]. split; [| split].
  - intros i Hi. rewrite Hscale by (apply rectangular_row; assumption).
    f_equal. symmetry.
    pose proof (map_nth (fun row : list R =>
                  map (fun j => (nth j row 0 - nth j means 0) / nth j stds 0)
                    (seq 0 d)) x [] i) as Hn.
    cbv beta in Hn. rewrite <- Hn. apply nth_indep. rewrite length_map. exact Hi.
  - intros row w b Hr Hw.
    unfold Train.predict_row, PowerTrain.predict_row. rewrite (Hscale row Hr).
    cbn [bind]. unfold dot.
    rewrite zip_strict_ok by (rewrite length_map, length_seq; congruence).
    cbn [bind]. eexists. split; [reflexivity | f_equal; lra].
  - intros row w b Hr Hw.
    unfold Train.predict_row, PowerTrain.predict_row. rewrite (Hscale row Hr).
    cbn [bind]. unfold dot.
    rewrite zip_strict_mismatch by (rewrite length_map, length_seq; congruence).
    split; reflexivity.
Qed.

Lemma prediction_on_training_scale_witness :
  exists xz means stds,
    standardize Fixtures.x_small = Ok (xz, means, stds)
    /\ scale_row [1; 10] means stds = Ok (nth 0 xz []).
Proof.
  destruct (prediction_on_training_scale Fixtures.x_small 2)
    as [xz [means [stds [Hs [Hrow _]]]]].
  - discriminate.
  - repeat constructor.
  - exists xz, means, stds. split; [exact Hs |].
    apply (Hrow 0%nat). cbn. lia.
Defined.

End StandardizedFeatures.

(** ** More on the evaluation metrics *)

Section MetricsFacts.
Import Kernel.
Local Open Scope R_scope.

Lemma sum_nonneg (l : vector) : Forall (fun v => 0 <= v) l -> 0 <= Num.sum l.
Proof.
  induction 1 as [| v l Hv Hl IH]; [rewrite sum_nil; lra |].
  rewrite sum_cons. lra.
Qed.

Lemma sum_map_nonneg {A : Type} (f : A -> R) (l : list A) :
  (forall a, 0 <= f a) -> 0 <= Num.sum (map f l).
Proof.
  intros Hf. apply sum_nonneg. apply Forall_forall. intros v Hin.
  apply in_map_iff in Hin. destruct Hin as [a [<- _]]. apply Hf.
Qed.

Lemma length_positive_INR (l : vector) : l <> [] -> 0 < INR (length l).
Proof.
  intros Hne. destruct l as [| v l]; [congruence |].
  cbn [length]. rewrite S_INR. pose proof (pos_INR (length l)). lra.
Qed.

Lemma metrics_unfold_train (y_true y_pred : vector) :
  length y_true = length y_pred -> y_true <> [] ->
  Train.metrics y_true y_pred
  = Ok {| mae := Num.sum (map Rabs (map (fun p => snd p - fst p)
                                      (combine y_true y_pred)))
                 / INR (length y_true);
          rmse := sqrt (Num.sum (map (fun e => e * e)
                                   (map (fun p => snd p - fst p)
                                      (combine y_true y_pred)))
                        / INR (length y_true));
          r2 := 1 - (if Rgt_dec (Documented.ss_tot y_true) 1e-12
                     then Documented.ss_res y_true y_pred / Documented.ss_tot y_true
                     else 0) |}.
Proof.
  intros Hlen Hne. unfold Train.metrics.
  rewrite (zip_strict_ok _ _ Hlen). cbn [bind].
  destruct (Nat.eqb (length y_true) 0) eqn:E.
  { apply Nat.eqb_eq, length_zero_iff_nil in E. congruence. }
  reflexivity.
Qed.

Lemma metrics_unfold_power (y_true y_pred : vector) :
  length y_true = length y_pred -> y_true <> [] ->
  PowerTrain.metrics y_true y_pred
  = Ok {| mae := Num.sum (map (fun p => Rabs (fst p - snd p))
                            (combine y_true y_pred))
                 / INR (length y_true);
          rmse := sqrt (Num.sum (map (fun p => (fst p - snd p) ^ 2)
                                   (combine y_true y_pred))
                        / INR (length y_true));
          r2 := Documented.r_squared y_true y_pred |}.
Proof.
  intros Hlen Hne. unfold PowerTrain.metrics.
  rewrite (zip_strict_ok _ _ Hlen). cbn [bind].
  destruct (Nat.eqb (length y_true) 0) eqn:E.
  { apply Nat.eqb_eq, length_zero_iff_nil in E. congruence. }
  reflexivity.
Qed.

Lemma metrics_mismatch (y_true y_pred : vector) :
  length y_true <> length y_pred ->
  Train.metrics y_true y_pred = Raise ZipLengthMismatch
  /\ PowerTrain.metrics y_true y_pred = Raise ZipLengthMismatch.
Proof.
  intros Hne. unfold Train.metrics, PowerTrain.metrics.
  rewrite (zip_strict_mismatch _ _ Hne). split; reflexivity.
Qed.

Lemma metrics_ok_inv (y_true y_pred : vector) (m : Metrics) :
  Train.metrics y_true y_pred = Ok m \/ PowerTrain.metrics y_true y_pred = Ok m ->
  length y_true = length y_pred /\ y_true <> [].
Proof.
  intros Hm.
  destruct (Nat.eq_dec (length y_true) (length y_pred)) as [Heq | Hne].
  - split; [exact Heq |]. intros ->.
    destruct y_pred; [| discriminate].
    destruct Hm as [Hm | Hm]; cbn in Hm; discriminate.
  - destruct (metrics_mismatch _ _ Hne) as [Ht Hp].
    rewrite Ht, Hp in Hm. destruct Hm; discriminate.
Qed.

(** Both copies of [metrics] succeed exactly on non-empty lists of equal
    length; lists of different lengths raise the error of the strict
    [zip], and two empty lists raise a division by zero. *)
Theorem metrics_outcomes (y_true y_pred : vector) :
  ((exists m, Train.metrics y_true y_pred = Ok m)
   <-> length y_true = length y_pred /\ y_true <> [])
  /\ ((exists m, PowerTrain.metrics y_true y_pred = Ok m)
      <-> length y_true = length y_pred /\ y_true <> [])
  /\ (length y_true <> length y_pred ->
      Train.metrics y_true y_pred = Raise ZipLengthMismatch
      /\ PowerTrain.metrics y_true y_pred = Raise ZipLengthMismatch)
  /\ (y_true = [] -> y_pred = [] ->
      Train.metrics y_true y_pred = Raise ZeroDivision
      /\ PowerTrain.metrics y_true y_pred = Raise ZeroDivision).
Proof.
  split; [| split; [| split]].
  - split.
    + intros [m Hm]. apply (metrics_ok_inv y_true y_pred m). left. exact Hm.
    + intros [Hlen Hne]. rewrite (metrics_unfold_train _ _ Hlen Hne).
      eexists. reflexivity.
  - split.
    + intros [m Hm]. apply (metrics_ok_inv y_true y_pred m). right. exact Hm.
    + intros [Hlen Hne]. rewrite (metrics_unfold_power _ _ Hlen Hne).
      eexists. reflexivity.
  - apply metrics_mismatch.
  - intros -> ->. split; reflexivity.
Qed.

Lemma metrics_outcomes_witness :
  Train.metrics [1; 2] [1] = Raise ZipLengthMismatch
  /\ exists m, PowerTrain.metrics [1; 2] [1; 3] = Ok m.
Proof.
  split.
  - apply (metrics_outcomes [1; 2] [1]). cbn. lia.
  - apply (metrics_outcomes [1; 2] [1; 3]). split; [reflexivity | discriminate].
Defined.

Lemma r_squared_le_1 (y_true y_pred : vector) :
  Documented.r_squared y_true y_pred <= 1.
Proof.
  unfold Documented.r_squared.
  destruct (Rgt_dec (Documented.ss_tot y_true) 1e-12) as [Hpos | _]; [| lra].
  assert (Hres : 0 <= Documented.ss_res y_true y_pred).
  { unfold Documented.ss_res. apply sum_map_nonneg. intros p. apply pow2_ge_0. }
  assert (0 <= Documented.ss_res y_true y_pred / Documented.ss_tot y_true).
  { apply Rmult_le_pos; [exact Hres |]. left. apply Rinv_0_lt_compat. lra. }
  lra.
Qed.

(** Whenever a copy of [metrics] succeeds, its mean absolute error and
    its root mean squared error are not negative and its R2 is at most 1. *)
Theorem metrics_ranges (y_true y_pred : vector) (m : Metrics) :
  Train.metrics y_true y_pred = Ok m \/ PowerTrain.metrics y_true y_pred = Ok m ->
  0 <= mae m /\ 0 <= rmse m /\ r2 m <= 1.
Proof.
  intros Hm.
  assert (Hgood : length y_true = length y_pred /\ y_true <> []).
  { apply (metrics_ok_inv y_true y_pred m). exact Hm. }
  destruct Hgood as [Hlen Hne].
  pose proof (length_positive_INR y_true Hne) as Hn.
  pose proof (r_squared_le_1 y_true y_pred) as Hr.
  unfold Documented.r_squared in Hr.
  destruct Hm as [Hm | Hm].
  - rewrite (metrics_unfold_train _ _ Hlen Hne) in Hm. inversion Hm; subst m.
    cbn [mae rmse r2]. split; [| split].
    + apply Rmult_le_pos; [| left; apply Rinv_0_lt_compat; exact Hn].
      apply sum_map_nonneg. intros e. apply Rabs_pos.
    + apply sqrt_pos.
    + destruct (Rgt_dec (Documented.ss_tot y_true) 1e-12); lra.
  - rewrite (metrics_unfold_power _ _ Hlen Hne) in Hm. inversion Hm; subst m.
    cbn [mae rmse r2]. split; [| split].
    + apply Rmult_le_pos; [| left; apply Rinv_0_lt_compat; exact Hn].
      apply sum_map_nonneg. intros p. apply Rabs_pos.
    + apply sqrt_pos.
    + apply r_squared_le_1.
Qed.

Lemma metrics_ranges_witness :
  exists m, PowerTrain.metrics [1; 2] [1; 3] = Ok m /\ r2 m <= 1.
Proof.
  eexists. split.
  - apply metrics_unfold_power; [reflexivity | discriminate].
  - match goal with |- r2 ?m <= 1 => set (m0 := m) end.
    apply (metrics_ranges [1; 2] [1; 3] m0). right.
    apply metrics_unfold_power; [reflexivity | discriminate].
Defined.

Lemma combine_diag_zero (f : R * R -> R) (y : vector) :
  (forall v, f (v, v) = 0) -> Num.sum (map f (combine y y)) = 0.
Proof.
  intros Hf. induction y as [| v y IH]; [reflexivity |].
  cbn [combine map]. rewrite sum_cons, IH, Hf. lra.
Qed.

(** Predictions equal to the targets give zero errors in both copies;
    R2 is then 1 in [ai_train], and in [ai_power_train] it is 1 when the
    target varies and 0 when it is degenerate. *)
Theorem perfect_prediction (y : vector) :
  y <> [] ->
  exists mt mp,
    Train.metrics y y = Ok mt /\ PowerTrain.metrics y y = Ok mp
    /\ mae mt = 0 /\ rmse mt = 0 /\ r2 mt = 1
    /\ mae mp = 0 /\ rmse mp = 0
    /\ r2 mp = if Rgt_dec (Documented.ss_tot y) 1e-12 then 1 else 0.
Proof.
  intros Hne.
  rewrite (metrics_unfold_train y y eq_refl Hne).
  rewrite (metrics_unfold_power y y eq_refl Hne).
  eexists _, _. split; [reflexivity |]. split; [reflexivity |].
  cbn [mae rmse r2].
  assert (Hres : Documented.ss_res y y = 0).
  { unfold Documented.ss_res. apply combine_diag_zero. intros v. cbn [fst snd]. lra. }
  rewrite !map_map.
  rewrite (combine_diag_zero (fun p => Rabs (snd p - fst p)))
    by (intros v; cbn [fst snd]; replace (v - v) with 0 by lra; apply Rabs_R0).
  rewrite (combine_diag_zero (fun p => (snd p - fst p) * (snd p - fst p)))
    by (intros v; cbn [fst snd]; lra).
  rewrite (combine_diag_zero (fun p => Rabs (fst p - snd p)))
    by (intros v; cbn [fst snd]; replace (v - v) with 0 by lra; apply Rabs_R0).
  rewrite (combine_diag_zero (fun p => (fst p - snd p) ^ 2))
    by (intros v; cbn [fst snd]; lra).
  assert (Hz : 0 / INR (length y) = 0) by (unfold Rdiv; apply Rmult_0_l).
  rewrite Hz, sqrt_0. unfold Documented.r_squared. rewrite Hres.
  repeat split; try reflexivity.
  - destruct (Rgt_dec (Documented.ss_tot y) 1e-12); unfold Rdiv; lra.
  - destruct (Rgt_dec (Documented.ss_tot y) 1e-12); unfold Rdiv; lra.
Qed.

Lemma perfect_prediction_witness :
  exists mt mp,
    Train.metrics [1; 2; 4] [1; 2; 4] = Ok mt
    /\ PowerTrain.metrics [1; 2; 4] [1; 2; 4] = Ok mp
    /\ mae mt = 0 /\ rmse mp = 0.
Proof.
  destruct (perfect_prediction [1; 2; 4]) as [mt [mp [Ht [Hp [H1 [_ [_ [_ [H2 _]]]]]]]]].
  - discriminate.
  - exists mt, mp. repeat split; assumption.
Defined.

(** On the same non-empty inputs the two copies of [metrics] report the
    same mean absolute error and the same root mean squared error, and
    the same R2 as soon as the target is not degenerate. *)
Theorem metrics_copies_agree (y_true y_pred : vector) :
  length y_true = length y_pred -> y_true <> [] ->
  exists mt mp,
    Train.metrics y_true y_pred = Ok mt
    /\ PowerTrain.metrics y_true y_pred = Ok mp
    /\ mae mt = mae mp /\ rmse mt = rmse mp
    /\ (Documented.ss_tot y_true > 1e-12 -> mt = mp).
Proof.
  intros Hlen Hne.
  rewrite (metrics_unfold_train _ _ Hlen Hne), (metrics_unfold_power _ _ Hlen Hne).
  eexists _, _. split; [reflexivity |]. split; [reflexivity |].
  cbn [mae rmse].
  assert (Hmae :
    Num.sum (map Rabs (map (fun p => snd p - fst p) (combine y_true y_pred)))
    = Num.sum (map (fun p => Rabs (fst p - snd p)) (combine y_true y_pred))).
  { rewrite map_map. f_equal. apply map_ext. intros p. apply Rabs_minus_sym. }
  assert (Hsq :
    Num.sum (map (fun e => e * e)
               (map (fun p => snd p - fst p) (combine y_true y_pred)))
    = Num.sum (map (fun p => (fst p - snd p) ^ 2) (combine y_true y_pred))).
  { rewrite map_map. f_equal. apply map_ext. intros p. ring. }
  rewrite Hmae, Hsq. split; [reflexivity |]. split; [reflexivity |].
  intros Hvar. unfold Documented.r_squared.
  destruct (Rgt_dec (Documented.ss_tot y_true) 1e-12); [reflexivity | contradiction].
Qed.

Lemma metrics_copies_agree_witness :
  exists mt mp,
    Train.metrics [1; 2] [1; 3] = Ok mt /\ PowerTrain.metrics [1; 2] [1; 3] = Ok mp
    /\ mae mt = mae mp.
Proof.
  destruct (metrics_copies_agree [1; 2] [1; 3]) as [mt [mp [Ht [Hp [Hm _]]]]].
  - reflexivity.
  - discriminate.
  - exists mt, mp. repeat split; assumption.
Defined.

End MetricsFacts.

(** ** The ideal-power target: range, grid and monotonicity *)

Section IdealPowerRange.
Import PowerTrain.
Local Open Scope R_scope.

Lemma ceil_monotone (x y : R) : x <= y -> (Num.ceil x <= Num.ceil y)%Z.
Proof.
  intros Hxy. pose proof (ceil_spec x) as Hx. pose proof (ceil_spec y) as Hy.
  assert (Hlt : IZR (Num.ceil x) < IZR (Num.ceil y + 1)).
  { rewrite plus_IZR. lra. }
  apply lt_IZR in Hlt. lia.
Qed.

Lemma seg_margin_range (c : Customer) : 0.08 <= seg_margin c <= 0.15.
Proof.
  unfold seg_margin.
  destruct (String.eqb (segment c) "industrial"); [lra |].
  destruct (String.eqb (segment c) "sme"); lra.
Qed.

Lemma peak_kva_monotone (p1 p2 : R) : 0 < p1 <= p2 -> peak_kva p1 <= peak_kva p2.
Proof.
  intros [H1 H2]. rewrite !peak_kva_positive by lra. lra.
Qed.

Lemma avg_kva_monotone (a1 a2 : R) : 0 < a1 <= a2 -> avg_kva a1 <= avg_kva a2.
Proof.
  intros [H1 H2]. rewrite !avg_kva_positive by lra. lra.
Qed.

(** The value before clamping, as [target_ideal_kva] computes it. *)
Lemma target_unfold (c : Customer) (peak avg : R) :
  target_ideal_kva c peak avg
  = Rmin 60 (Rmax 1 (IZR (Num.ceil (Rmax (peak_kva peak) (avg_kva avg)
                                     * (1 + seg_margin c) * 10)) / 10)).
Proof.
  unfold target_ideal_kva. cbv zeta.
  rewrite py_min_Rmin, !py_max_Rmax. reflexivity.
Qed.

Lemma clamp_cases (k : R) :
  (k <= 1 /\ Rmin 60 (Rmax 1 k) = 1)
  \/ (1 <= k <= 60 /\ Rmin 60 (Rmax 1 k) = k)
  \/ (60 <= k /\ Rmin 60 (Rmax 1 k) = 60).
Proof.
  destruct (Rle_dec k 1) as [H1 | H1].
  - left. split; [exact H1 |]. rewrite Rmax_left by exact H1.
    apply Rmin_right. lra.
  - rewrite Rmax_right by lra. destruct (Rle_dec k 60) as [H60 | H60].
    + right. left. split; [lra |]. apply Rmin_right. exact H60.
    + right. right. split; [lra |]. apply Rmin_left. lra.
Qed.

(** Whatever the customer and the statistics, the target lies in
    [1, 60] and on the grid of tenths of a kVA: it is [z / 10] for an
    integer [z] between 10 and 600. *)
Theorem target_ideal_kva_grid (c : Customer) (peak avg : R) :
  1 <= target_ideal_kva c peak avg <= 60
  /\ exists z : Z, (10 <= z <= 600)%Z /\ target_ideal_kva c peak avg = IZR z / 10.
Proof.
  rewrite target_unfold.
  set (z := Num.ceil (Rmax (peak_kva peak) (avg_kva avg) * (1 + seg_margin c) * 10)).
  destruct (clamp_cases (IZR z / 10)) as [[Hk ->] | [[Hk ->] | [Hk ->]]].
  - split; [lra |]. exists 10%Z. split; [lia | lra].
  - split; [lra |]. exists z. split; [| reflexivity].
    assert (Hlo : IZR 10 <= IZR z) by lra.
    assert (Hhi : IZR z <= IZR 600) by lra.
    apply le_IZR in Hlo, Hhi. lia.
  - split; [lra |]. exists 600%Z. split; [lia | lra].
Qed.

(** Below the cap of 60 kVA the target covers both inflated terms (the
    peak-derived and the average-derived one), and above the floor of
    1 kVA it exceeds the larger of them by less than one step of 0.1. *)
Theorem target_ideal_kva_covers (c : Customer) (peak avg : R) :
  let base := Rmax (peak_kva peak) (avg_kva avg) * (1 + seg_margin c) in
  (target_ideal_kva c peak avg < 60 ->
     peak_kva peak * (1 + seg_margin c) <= target_ideal_kva c peak avg
     /\ avg_kva avg * (1 + seg_margin c) <= target_ideal_kva c peak avg)
  /\ (1 < target_ideal_kva c peak avg -> target_ideal_kva c peak avg < base + 0.1).
Proof.
  intros base. rewrite target_unfold. fold base.
  pose proof (ceil_spec (base * 10)) as [Hlo Hhi].
  pose proof (seg_margin_range c) as Hm.
  assert (Hp : peak_kva peak * (1 + seg_margin c) <= base).
  { unfold base. apply Rmult_le_compat_r; [lra | apply Rmax_l]. }
  assert (Ha : avg_kva avg * (1 + seg_margin c) <= base).
  { unfold base. apply Rmult_le_compat_r; [lra | apply Rmax_r]. }
  set (k := IZR (Num.ceil (base * 10)) / 10) in *.
  assert (Hk : base <= k < base + 0.1) by (unfold k; lra).
  destruct (clamp_cases k) as [[Hc ->] | [[Hc ->] | [Hc ->]]];
    (split; [intros Hlt | intros Hgt]); lra.
Qed.

Lemma target_ideal_kva_covers_witness :
  peak_kva 5000 * (1 + seg_margin Fixtures.power_residential)
  <= target_ideal_kva Fixtures.power_residential 5000 1200.
Proof.
  apply (target_ideal_kva_covers Fixtures.power_residential 5000 1200).
  rewrite scenario_c. lra.
Defined.

(** For positive statistics the target never decreases when the peak or
    the average grows. *)
Theorem target_ideal_kva_monotone (c : Customer) (p1 p2 a1 a2 : R) :
  0 < p1 <= p2 -> 0 < a1 <= a2 ->
  target_ideal_kva c p1 a1 <= target_ideal_kva c p2 a2.
Proof.
  intros Hp Ha. rewrite !target_unfold.
  pose proof (peak_kva_monotone p1 p2 Hp) as Hpk.
  pose proof (avg_kva_monotone a1 a2 Ha) as Hak.
  pose proof (seg_margin_range c) as Hm.
  assert (Hmax : Rmax (peak_kva p1) (avg_kva a1) <= Rmax (peak_kva p2) (avg_kva a2)).
  { apply Rmax_lub.
    - eapply Rle_trans; [exact Hpk | apply Rmax_l].
    - eapply Rle_trans; [exact Hak | apply Rmax_r]. }
  assert (Hbase :
    Rmax (peak_kva p1) (avg_kva a1) * (1 + seg_margin c) * 10
    <= Rmax (peak_kva p2) (avg_kva a2) * (1 + seg_margin c) * 10) by nra.
  apply ceil_monotone, IZR_le in Hbase.
  apply Rle_min_compat_l, Rle_max_compat_l. lra.
Qed.

Lemma target_ideal_kva_monotone_witness :
  target_ideal_kva Fixtures.power_residential 5000 1200
  <= target_ideal_kva Fixtures.power_residential 6000 1200.
Proof.
  apply target_ideal_kva_monotone; lra.
Defined.

End IdealPowerRange.

(** ** [ridge_fit]: shapes and failure modes *)

Section RidgeFit.
Import Kernel.
Local Open Scope R_scope.

Lemma dot_ok (a b : vector) :
  length a = length b -> exists v, dot a b = Ok v.
Proof.
  intros Hlen. unfold dot. rewrite (zip_strict_ok _ _ Hlen). cbn [bind].
  eexists. reflexivity.
Qed.

Lemma mapM_total {A B : Type} (f : A -> result B) (l : list A) :
  (forall a, In a l -> exists b, f a = Ok b) ->
  exists bs, mapM f l = Ok bs /\ length bs = length l.
Proof.
  induction l as [| a l IH]; intros Hf.
  - exists []. split; reflexivity.
  - destruct (Hf a (or_introl eq_refl)) as [b Hb].
    destruct IH as [bs [Hbs Hlen]]; [intros a' Hin; apply Hf; right; exact Hin |].
    exists (b :: bs). cbn [mapM]. rewrite Hb, Hbs. cbn [bind length].
    split; [reflexivity | f_equal; exact Hlen].
Qed.

Lemma mapM_Forall {A B : Type} (f : A -> result B) (P : B -> Prop) (l : list A)
    (bs : list B) :
  mapM f l = Ok bs -> (forall a b, In a l -> f a = Ok b -> P b) -> Forall P bs.
Proof.
  revert bs. induction l as [| a l IH]; intros bs Hm HP; cbn [mapM] in Hm.
  - inversion Hm. constructor.
  - destruct (f a) as [b |] eqn:Hb; [| discriminate]. cbn [bind] in Hm.
    destruct (mapM f l) as [bs' |] eqn:Hbs; [| discriminate]. cbn [bind] in Hm.
    inversion Hm; subst. constructor.
    + apply (HP a b); [left; reflexivity | exact Hb].
    + apply IH; [reflexivity |]. intros a' b' Hin. apply HP. right. exact Hin.
Qed.

Lemma mat_vec_mul_ok (k : nat) (a : matrix) (v : vector) :
  Documented.rectangular k a -> length v = k ->
  exists w, mat_vec_mul a v = Ok w /\ length w = length a.
Proof.
  intros Hrect Hv. unfold mat_vec_mul. apply mapM_total.
  intros r Hin. apply dot_ok.
  unfold Documented.rectangular in Hrect. rewrite Forall_forall in Hrect.
  rewrite (Hrect r Hin). symmetry. exact Hv.
Qed.

Lemma products_shape (k : nat) (a bt : matrix) :
  Documented.rectangular k a -> Documented.rectangular k bt ->
  exists c,
    mapM (fun row => mapM (fun col => dot row col) bt) a = Ok c
    /\ length c = length a /\ Documented.rectangular (length bt) c.
Proof.
  intros Ha Hb.
  unfold Documented.rectangular in *. rewrite Forall_forall in Ha, Hb.
  destruct (mapM_total (fun row => mapM (fun col => dot row col) bt) a)
    as [c [Hc Hlen]].
  { intros r Hr.
    destruct (mapM_total (fun col => dot r col) bt) as [cs [Hcs _]].
    - intros col Hcol. apply dot_ok. rewrite (Ha r Hr), (Hb col Hcol). reflexivity.
    - exists cs. exact Hcs. }
  exists c. split; [exact Hc |]. split; [exact Hlen |].
  apply (mapM_Forall _ _ _ _ Hc). intros r cs _ Hcs.
  apply (mapM_length _ _ _ Hcs).
Qed.

Lemma add_diag_square (l2 : R) (d i : nat) (m : matrix) :
  Documented.square d m -> (i < d)%nat ->
  exists m', add_diag l2 m i = Ok m' /\ Documented.square d m'.
Proof.
  intros [Hn Hrows] Hi. unfold add_diag.
  destruct (nth_error m i) as [r |] eqn:Hr;
    [| apply nth_error_None in Hr; lia].
  assert (Hlen : length r = d).
  { rewrite Forall_forall in Hrows. apply Hrows. eapply nth_error_In. exact Hr. }
  destruct (nth_error r i) as [v |] eqn:Hv;
    [| apply nth_error_None in Hv; lia].
  eexists. split; [reflexivity |]. split.
  - rewrite set_row_length. exact Hn.
  - apply set_row_Forall; [exact Hrows |]. rewrite set_row_length. exact Hlen.
Qed.

Lemma add_diags_square (l2 : R) (d : nat) (m : matrix) (k : nat) :
  Documented.square d m -> (k <= d)%nat ->
  exists m', foldM (add_diag l2) (seq 0 k) m = Ok m' /\ Documented.square d m'.
Proof.
  intros Hsq. induction k as [| k IH]; intros Hk.
  - exists m. split; [reflexivity | exact Hsq].
  - destruct IH as [m1 [Hm1 Hsq1]]; [lia |].
    destruct (add_diag_square l2 d k m1 Hsq1 ltac:(lia)) as [m2 [Hm2 Hsq2]].
    exists m2. rewrite seq_S, foldM_app, Hm1. cbn [bind Nat.add foldM].
    rewrite Hm2. split; [reflexivity | exact Hsq2].
Qed.

(** A square input either stops the elimination or comes back as a
    square matrix of the same size. *)
Lemma invert_matrix_shape (a : matrix) (n : nat) :
  Documented.square n a ->
  invert_matrix a = Raise SingularMatrix
  \/ exists inv, invert_matrix a = Ok inv /\ Documented.square n inv.
Proof.
  intros Hsq. destruct (augment_square a n Hsq) as [aug0 [Haug [Hshape _]]].
  destruct Hsq as [Hn _]. unfold invert_matrix. rewrite Haug, Hn. cbn [bind].
  assert (Hinv0 : Documented.loop_invariant n (n + n) (fun _ => False) aug0)
    by (split; [exact Hshape | intros j []]).
  destruct (reduce_columns_cases n (n + n) (fun _ => False) aug0 n Hinv0 (le_n n))
    as [[Hraise _] | [aug [Hok [[[Hlen Hrows] _] _]]]].
  - left. rewrite Hraise. reflexivity.
  - right. rewrite Hok. cbn [bind]. eexists. split; [reflexivity |]. split.
    + rewrite length_map. exact Hlen.
    + apply Forall_map. apply (Forall_impl _ (P := fun row => length row = (n + n)%nat));
        [| exact Hrows].
      intros r Hr. rewrite length_skipn, Hr. lia.
Qed.

(** The z-scores that [standardize] returns for a matrix of width [d]. *)
Lemma standardize_shape (x : matrix) (d : nat) :
  x <> [] -> Documented.rectangular d x ->
  exists xz means stds,
    standardize x = Ok (xz, means, stds)
    /\ length xz = length x /\ Documented.rectangular d xz
    /\ length means = d /\ length stds = d
    /\ Forall (fun s => 1e-9 < s) stds.
Proof.
  intros Hne Hrect. pose proof (standardize_ok x d Hne Hrect) as Hstd.
  cbv zeta in Hstd. eexists _, _, _. split; [exact Hstd |].
  split; [apply length_map |]. split.
  { apply Forall_map, Forall_forall. intros r _.
    rewrite length_map, length_seq. reflexivity. }
  split; [rewrite length_map, length_seq; reflexivity |].
  split; [rewrite length_map, length_seq; reflexivity |].
  apply Forall_map, Forall_forall. intros j _. unfold floor_std.
  destruct (Rgt_dec (Documented.sample_std j x) 1e-9); lra.
Qed.

(** The part of [ridge_fit] that cannot fail on well-formed features:
    the normal equations are set up, and what remains is the product
    with the centred target, the inversion and the weights. *)
Lemma ridge_fit_normal_equations (x : matrix) (y : vector) (l2 : R) (d : nat) :
  x <> [] -> Documented.rectangular d x ->
  exists xz means stds xt xtx,
    standardize x = Ok (xz, means, stds)
    /\ length means = d /\ length stds = d /\ Forall (fun s => 1e-9 < s) stds
    /\ length xt = d /\ Documented.rectangular (length x) xt
    /\ Documented.square d xtx
    /\ ridge_fit x y l2
       = bind (mat_vec_mul xt
                 (map (fun v => v - Num.sum y / INR (length x)) y))
           (fun xty =>
              bind (invert_matrix xtx)
                (fun inv =>
                   bind (mat_vec_mul inv xty)
                     (fun w => Ok (w, Num.sum y / INR (length x), means, stds)))).
Proof.
  intros Hne Hrect.
  destruct (standardize_shape x d Hne Hrect)
    as [xz [means [stds [Hstd [Hn [Hxz [Hm [Hs Hpos]]]]]]]].
  assert (Hxzne : xz <> []).
  { intros ->. cbn [length] in Hn. destruct x; [congruence | discriminate]. }
  pose proof (mat_transpose_ok d xz Hxzne Hxz) as Hxt.
  set (xt := map (fun j => Documented.column j xz) (seq 0 d)) in *.
  assert (Hxtlen : length xt = d) by (unfold xt; rewrite length_map, length_seq; reflexivity).
  assert (Hxtrect : Documented.rectangular (length x) xt).
  { rewrite <- Hn. apply transpose_columns_rectangular. }
  destruct (products_shape (length x) xt xt Hxtrect Hxtrect)
    as [xtx0 [Hmul [Hlen0 Hrect0]]].
  assert (Hsq0 : Documented.square d xtx0).
  { split; [transitivity (length xt); [exact Hlen0 | exact Hxtlen] |].
    apply (Forall_impl _ (P := fun r => length r = length xt)); [| exact Hrect0].
    intros r Hr. transitivity (length xt); [exact Hr | exact Hxtlen]. }
  destruct (add_diags_square l2 d xtx0 d Hsq0 (le_n d)) as [xtx [Hdiag Hsq]].
  exists xz, means, stds, xt, xtx.
  repeat (split; [assumption |]).
  unfold ridge_fit. rewrite Hstd. cbn [bind].
  destruct xz as [| xz0 rest]; [congruence |].
  assert (Hd0 : length xz0 = d) by (inversion Hxz; assumption).
  cbv zeta. rewrite Hd0, Hxt. cbn [bind].
  unfold mat_mul. rewrite Hxt. cbn [bind]. rewrite Hmul. cbn [bind].
  rewrite Hdiag. cbn [bind]. rewrite Hn. reflexivity.
Qed.

Lemma ridge_fit_cases (x : matrix) (y : vector) (l2 : R) (d : nat) :
  x <> [] -> Documented.rectangular d x -> length y = length x ->
  ridge_fit x y l2 = Raise SingularMatrix
  \/ exists w xz means stds,
       ridge_fit x y l2 = Ok (w, Num.sum y / INR (length x), means, stds)
       /\ standardize x = Ok (xz, means, stds)
       /\ length w = d /\ length means = d /\ length stds = d
       /\ Forall (fun s => 1e-9 < s) stds.
Proof.
  intros Hne Hrect Hy.
  destruct (ridge_fit_normal_equations x y l2 d Hne Hrect)
    as [xz [means [stds [xt [xtx [Hstd [Hm [Hs [Hpos [Hxtlen [Hxt [Hsq Hfit]]]]]]]]]]]].
  rewrite Hfit.
  destruct (mat_vec_mul_ok (length x) xt
              (map (fun v => v - Num.sum y / INR (length x)) y) Hxt)
    as [xty [Hxty Hxtylen]]; [rewrite length_map; exact Hy |].
  rewrite Hxty. cbn [bind].
  destruct (invert_matrix_shape xtx d Hsq) as [Hsing | [inv [Hinv [Hil Hir]]]].
  - left. rewrite Hsing. reflexivity.
  - right. rewrite Hinv. cbn [bind].
    destruct (mat_vec_mul_ok d inv xty Hir) as [w [Hw Hwlen]];
      [rewrite Hxtylen; exact Hxtlen |].
    rewrite Hw. cbn [bind]. exists w, xz, means, stds.
    split; [reflexivity |]. split; [exact Hstd |].
    split; [rewrite Hwlen; exact Hil |]. repeat split; assumption.
Qed.

(** On a non-empty feature matrix of width [d] with one target per row,
    [ridge_fit] either raises the singular-matrix error or returns [d]
    weights, the mean of the target as bias, and the [d] means and [d]
    deviations of [standardize], every deviation above [1e-9].  With a
    target of another length and at least one feature it raises the
    error of the strict [zip]; with no feature at all it returns no
    weights, whatever the length of the target. *)
Theorem ridge_fit_outcomes (x : matrix) (y : vector) (l2 : R) (d : nat) :
  x <> [] -> Documented.rectangular d x ->
  (length y = length x ->
     ridge_fit x y l2 = Raise SingularMatrix
     \/ exists w xz means stds,
          ridge_fit x y l2 = Ok (w, Num.sum y / INR (length x), means, stds)
          /\ standardize x = Ok (xz, means, stds)
          /\ length w = d /\ length means = d /\ length stds = d
          /\ Forall (fun s => 1e-9 < s) stds)
  /\ (length y <> length x -> (0 < d)%nat ->
      ridge_fit x y l2 = Raise ZipLengthMismatch)
  /\ (d = 0%nat ->
      ridge_fit x y l2 = Ok ([], Num.sum y / INR (length x), [], [])).
Proof.
  intros Hne Hrect. split; [apply ridge_fit_cases; assumption |].
  destruct (ridge_fit_normal_equations x y l2 d Hne Hrect)
    as [xz [means [stds [xt [xtx [Hstd [Hm [Hs [Hpos [Hxtlen [Hxt [Hsq Hfit]]]]]]]]]]]].
  rewrite Hfit. split.
  - intros Hy Hd. destruct xt as [| c xt']; [cbn [length] in Hxtlen; lia |].
    unfold mat_vec_mul. cbn [mapM]. unfold dot at 1.
    rewrite zip_strict_mismatch; [reflexivity |].
    inversion Hxt as [| ? ? Hc _]; subst. rewrite Hc, length_map. congruence.
  - intros ->. destruct xt; [| discriminate].
    destruct means; [| discriminate]. destruct stds; [| discriminate].
    destruct Hsq as [Hl _]. destruct xtx; [| discriminate]. reflexivity.
Qed.

Lemma ridge_fit_outcomes_witness :
  ridge_fit [[1]; [2]; [3]] [1] 1 = Raise ZipLengthMismatch.
Proof.
  apply (ridge_fit_outcomes [[1]; [2]; [3]] [1] 1 1).
  - discriminate.
  - repeat constructor.
  - cbn [length]. discriminate.
  - lia.
Defined.

End RidgeFit.

(** ** The two training runs from end to end *)

Section Pipelines.
Import Kernel.
Local Open Scope R_scope.

Lemma gather_rows {A : Type} (P : A -> Prop) (x : list A) (idx : list nat)
    (rows : list A) :
  gather x idx = Ok rows -> Forall P x -> Forall P rows.
Proof.
  intros Hg HP. unfold gather in Hg. apply (mapM_Forall _ _ _ _ Hg).
  intros i v _ Hv. destruct (nth_error x i) as [v' |] eqn:Hn; [| discriminate].
  inversion Hv; subst. rewrite Forall_forall in HP. apply HP.
  eapply nth_error_In. exact Hn.
Qed.

Lemma positive_entries (d : nat) (stds : vector) :
  length stds = d -> Forall (fun s => 1e-9 < s) stds ->
  forall j, (j < d)%nat -> nth j stds 0 <> 0.
Proof.
  intros Hlen Hpos j Hj. rewrite Forall_forall in Hpos.
  assert (Hin : In (nth j stds 0) stds) by (apply nth_In; lia).
  apply Hpos in Hin. lra.
Qed.

(** Both copies of [predict_row] score every row of a matrix of the
    width of the model. *)
Lemma predictions_ok (d : nat) (rows : matrix) (w means stds : vector) (b : R) :
  Documented.rectangular d rows ->
  length w = d -> length means = d -> length stds = d ->
  Forall (fun s => 1e-9 < s) stds ->
  (exists preds,
     mapM (fun row => Train.predict_row row w b means stds) rows = Ok preds
     /\ length preds = length rows)
  /\ (exists preds,
        mapM (fun row => PowerTrain.predict_row row w b means stds) rows = Ok preds
        /\ length preds = length rows).
Proof.
  intros Hrect Hw Hm Hs Hpos.
  pose proof (positive_entries d stds Hs Hpos) as Hnz.
  unfold Documented.rectangular in Hrect. rewrite Forall_forall in Hrect.
  assert (Hdot : forall row, In row rows ->
            exists xz v, scale_row row means stds = Ok xz /\ dot xz w = Ok v).
  { intros row Hin. eexists.
    rewrite (scale_row_ok d row means stds (Hrect row Hin) Hm Hs Hnz).
    destruct (dot_ok (map (fun j => (nth j row 0 - nth j means 0) / nth j stds 0)
                        (seq 0 d)) w) as [v Hv];
      [rewrite length_map, length_seq; congruence |].
    exists v. split; [reflexivity | exact Hv]. }
  split; apply mapM_total; intros row Hin;
    destruct (Hdot row Hin) as [xz [v [Hxz Hv]]];
    [unfold Train.predict_row | unfold PowerTrain.predict_row];
    rewrite Hxz; cbn [bind]; rewrite Hv; cbn [bind]; eexists; reflexivity.
Qed.

Lemma train_fit_and_evaluate_cases (d : nat) (xf : matrix) (yf : vector)
    (xe : matrix) (ye : vector) (l2 : R) :
  xf <> [] -> Documented.rectangular d xf -> length yf = length xf ->
  xe <> [] -> Documented.rectangular d xe -> length ye = length xe ->
  Train.fit_and_evaluate xf yf xe ye l2 = Raise SingularMatrix
  \/ exists out,
       Train.fit_and_evaluate xf yf xe ye l2 = Ok out
       /\ length (weights out) = d /\ length (mean out) = d
       /\ length (std out) = d
       /\ Kernel.feature_names out = Train.feature_names.
Proof.
  intros Hxf Hrf Hyf Hxe Hre Hye. unfold Train.fit_and_evaluate.
  destruct (ridge_fit_cases xf yf l2 d Hxf Hrf Hyf)
    as [Hsing | [w [xz [means [stds [Hfit [_ [Hw [Hm [Hs Hpos]]]]]]]]]].
  - left. rewrite Hsing. reflexivity.
  - right. rewrite Hfit. cbn [bind].
    destruct (predictions_ok d xe w means stds
                (Num.sum yf / INR (length xf)) Hre Hw Hm Hs Hpos)
      as [[preds [Hp Hplen]] _].
    rewrite Hp. cbn [bind].
    rewrite (metrics_unfold_train ye preds) by
      (first [congruence | intros ->; destruct xe; [congruence | discriminate]]).
    cbn [bind]. eexists. split; [reflexivity |].
    cbn [weights mean std Kernel.feature_names]. repeat split; assumption.
Qed.

Lemma power_fit_and_evaluate_cases (d : nat) (xf : matrix) (yf : vector)
    (xe : matrix) (ye : vector) (l2 : R) :
  xf <> [] -> Documented.rectangular d xf -> length yf = length xf ->
  xe <> [] -> Documented.rectangular d xe -> length ye = length xe ->
  PowerTrain.fit_and_evaluate xf yf xe ye l2 = Raise SingularMatrix
  \/ exists out,
       PowerTrain.fit_and_evaluate xf yf xe ye l2 = Ok out
       /\ length (weights out) = d /\ length (mean out) = d
       /\ length (std out) = d
       /\ Kernel.feature_names out = PowerTrain.feature_names.
Proof.
  intros Hxf Hrf Hyf Hxe Hre Hye. unfold PowerTrain.fit_and_evaluate.
  destruct (ridge_fit_cases xf yf l2 d Hxf Hrf Hyf)
    as [Hsing | [w [xz [means [stds [Hfit [_ [Hw [Hm [Hs Hpos]]]]]]]]]].
  - left. rewrite Hsing. reflexivity.
  - right. rewrite Hfit. cbn [bind].
    destruct (predictions_ok d xe w means stds
                (Num.sum yf / INR (length xf)) Hre Hw Hm Hs Hpos)
      as [_ [preds [Hp Hplen]]].
    rewrite Hp. cbn [bind].
    rewrite (metrics_unfold_power ye preds) by
      (first [congruence | intros ->; destruct xe; [congruence | discriminate]]).
    cbn [bind]. eexists. split; [reflexivity |].
    cbn [weights mean std Kernel.feature_names]. repeat split; assumption.
Qed.

Lemma build_dataset_rows (db : PowerTrain.Db) (cs : list PowerTrain.Customer) :
  Documented.rectangular 10 (fst (PowerTrain.build_dataset db cs)).
Proof.
  induction cs as [| c cs IH]; [constructor |].
  cbn [PowerTrain.build_dataset].
  destruct (PowerTrain.build_dataset db cs) as [x y]. cbn [fst] in IH.
  unfold PowerTrain.sample_of.
  destruct (PowerTrain.get_latest_ts db (PowerTrain.id c)) as [latest |];
    [| exact IH].
  destruct (PowerTrain.get_stats_30d db (PowerTrain.id c) latest) as [peak avg].
  cbn [fst]. constructor; [reflexivity | exact IH].
Qed.

Lemma pairs_of_rows_width (c : Train.Customer) (rows : list Train.Row) :
  Forall (fun p => length (fst p) = 17%nat) (Train.pairs_of_rows c rows).
Proof.
  induction rows as [| r rows IH]; [constructor |].
  destruct rows as [| r' rows]; [constructor |].
  cbn [Train.pairs_of_rows] in *. constructor; [reflexivity | exact IH].
Qed.

Lemma load_training_pairs_rows (db : Train.Db) (cs : list Train.Customer) :
  Documented.rectangular 17 (fst (Train.load_training_pairs db cs)).
Proof.
  unfold Train.load_training_pairs. cbn [fst]. apply Forall_map.
  apply Forall_flat_map. apply Forall_forall. intros c _.
  destruct (Nat.ltb (length (Train.telemetry_since db (Train.id c))) 3);
    [constructor | apply pairs_of_rows_width].
Qed.

(** The power-sizing run ends in one of three ways: the exit for fewer
    than 10 customers with telemetry, the singular-matrix error of the
    inversion, or an artifact with one weight, one mean and one deviation
    for each of the 10 feature names.  No other error escapes. *)
Theorem power_train_outcomes (db : PowerTrain.Db) (l2 : R) :
  match PowerTrain.train db l2 with
  | Ok out =>
      (10 <= Documented.customers_with_history db)%nat
      /\ Kernel.feature_names out = PowerTrain.feature_names
      /\ length (weights out) = length PowerTrain.feature_names
      /\ length (mean out) = length PowerTrain.feature_names
      /\ length (std out) = length PowerTrain.feature_names
  | Raise e =>
      ((Documented.customers_with_history db < 10)%nat
       /\ e = SystemExit PowerTrain.too_few_customers)
      \/ ((10 <= Documented.customers_with_history db)%nat
          /\ e = SingularMatrix)
  end.
Proof.
  unfold PowerTrain.train, PowerTrain.select_samples.
  pose proof (build_dataset_lengths db (PowerTrain.customers db)) as Hlen.
  pose proof (build_dataset_rows db (PowerTrain.customers db)) as Hrows.
  destruct (PowerTrain.build_dataset db (PowerTrain.customers db)) as [x y].
  cbn [fst] in Hrows. destruct Hlen as [Hx Hy].
  fold (Documented.customers_with_history db) in Hx.
  destruct (Nat.ltb (length x) 10) eqn:Hguard.
  - apply Nat.ltb_lt in Hguard. cbn [bind]. left. split; [lia | reflexivity].
  - apply Nat.ltb_ge in Hguard. cbn [bind fit_x fit_y eval_x eval_y].
    assert (Hne : x <> []) by (intros ->; cbn [length] in Hguard; lia).
    destruct (power_fit_and_evaluate_cases 10 x y x y l2 Hne Hrows Hy Hne Hrows Hy)
      as [Hsing | [out [Hout [Hw [Hm [Hs Hnames]]]]]].
    + rewrite Hsing. right. split; [lia | reflexivity].
    + rewrite Hout. split; [lia |]. split; [exact Hnames |].
      cbn [PowerTrain.feature_names length]. repeat split; assumption.
Qed.

(** With a generator whose [shuffle] permutes, the next-step run ends in
    one of four ways: the exit for an empty customer table, the exit for
    fewer than 200 transition samples, the singular-matrix error of the
    inversion, or an artifact with one weight, one mean and one deviation
    for each of the 17 feature names.  No other error escapes. *)
Theorem train_outcomes {G : Type} `{RandomGen G} (db : Train.Db) (l2 : R)
    (seed : Z) :
  permuting_shuffle G ->
  match Train.train db l2 seed with
  | Ok out =>
      (200 <= Documented.transition_count db)%nat
      /\ Kernel.feature_names out = Train.feature_names
      /\ length (weights out) = length Train.feature_names
      /\ length (mean out) = length Train.feature_names
      /\ length (std out) = length Train.feature_names
  | Raise e =>
      (Train.customers db = [] /\ e = SystemExit Train.no_customers)
      \/ (Train.customers db <> []
          /\ (Documented.transition_count db < 200)%nat
          /\ e = SystemExit (Train.too_few_samples (Documented.transition_count db)))
      \/ ((200 <= Documented.transition_count db)%nat /\ e = SingularMatrix)
  end.
Proof.
  intros Hperm. unfold Train.train, Train.select_samples.
  pose proof (load_training_pairs_lengths db (Train.customers db)) as Hlen.
  pose proof (load_training_pairs_rows db (Train.customers db)) as Hrows.
  fold (Documented.transition_count db) in Hlen.
  destruct (Train.customers db) as [| c cs] eqn:Hcs.
  { cbn [bind]. left. split; reflexivity. }
  destruct (Train.load_training_pairs db (c :: cs)) as [x y].
  cbn [fst] in Hrows. destruct Hlen as [Hx Hy].
  destruct (Nat.ltb (length x) 200) eqn:Hguard.
  { apply Nat.ltb_lt in Hguard. cbn [bind]. right. left.
    split; [discriminate |]. split; [lia |]. rewrite Hx. reflexivity. }
  apply Nat.ltb_ge in Hguard.
  pose proof (split_indices_held_out seed (length x) Hperm) as Hsplit.
  destruct (Train.split_indices seed (length x)) as [tr_idx te_idx].
  destruct Hsplit as [[Hp [Hcut _]] Hrange].
  pose proof (Permutation_length Hp) as Hsum.
  rewrite length_seq, length_app in Hsum.
  assert (Hdiv : (length x * 8 / 10 < length x)%nat).
  { apply Nat.Div0.div_lt_upper_bound. lia. }
  assert (Hbig : (160 <= length x * 8 / 10)%nat).
  { apply Nat.div_le_lower_bound; lia. }
  destruct (gather_ok x tr_idx) as [x_tr [Hxtr Hxtrl]];
    [intros; apply Hrange, in_or_app; left; assumption |].
  destruct (gather_ok y tr_idx) as [y_tr [Hytr Hytrl]];
    [intros; rewrite Hy; apply Hrange, in_or_app; left; assumption |].
  destruct (gather_ok x te_idx) as [x_te [Hxte Hxtel]];
    [intros; apply Hrange, in_or_app; right; assumption |].
  destruct (gather_ok y te_idx) as [y_te [Hyte Hytel]];
    [intros; rewrite Hy; apply Hrange, in_or_app; right; assumption |].
  rewrite Hxtr, Hytr, Hxte, Hyte. cbn [bind fit_x fit_y eval_x eval_y].
  assert (Hne_tr : x_tr <> []) by (intros ->; cbn [length] in Hxtrl; lia).
  assert (Hne_te : x_te <> []) by (intros ->; cbn [length] in Hxtel; lia).
  destruct (train_fit_and_evaluate_cases 17 x_tr y_tr x_te y_te l2 Hne_tr
              (gather_rows _ _ _ _ Hxtr Hrows) ltac:(congruence) Hne_te
              (gather_rows _ _ _ _ Hxte Hrows) ltac:(congruence))
    as [Hsing | [out [Hout [Hw [Hm [Hs Hnames]]]]]].
  - rewrite Hsing. right. right. split; [lia | reflexivity].
  - rewrite Hout. split; [lia |]. split; [exact Hnames |].
    cbn [Train.feature_names length]. repeat split; assumption.
Qed.

Lemma train_outcomes_witness :
  permuting_shuffle nat
  /\ match Train.train (G := nat) (Fixtures.train_db 2) 1 42 with
     | Ok out =>
         (200 <= Documented.transition_count (Fixtures.train_db 2))%nat
         /\ Kernel.feature_names out = Train.feature_names
         /\ length (weights out) = length Train.feature_names
         /\ length (mean out) = length Train.feature_names
         /\ length (std out) = length Train.feature_names
     | Raise e =>
         (Train.customers (Fixtures.train_db 2) = []
          /\ e = SystemExit Train.no_customers)
         \/ (Train.customers (Fixtures.train_db 2) <> []
             /\ (Documented.transition_count (Fixtures.train_db 2) < 200)%nat
             /\ e = SystemExit
                     (Train.too_few_samples
                        (Documented.transition_count (Fixtures.train_db 2))))
         \/ ((200 <= Documented.transition_count (Fixtures.train_db 2))%nat
             /\ e = SingularMatrix)
     end.
Proof.
  split; [exact counter_gen_permuting |].
  apply (train_outcomes (G := nat) (Fixtures.train_db 2) 1 42).
  exact counter_gen_permuting.
Defined.

End Pipelines.

(** ** The samples the reported metrics are computed on *)

Section HeldOutEvaluation.
Import Kernel.
Local Open Scope nat_scope.





End HeldOutEvaluation.

(** ** The generated readings *)

Section GeneratedReadings.
Import Generate.
Local Open Scope R_scope.

Lemma find_app {A : Type} (p : A -> bool) (l1 l2 : list A) :
  find p (l1 ++ l2)
  = match find p l1 with Some a => Some a | None => find p l2 end.
Proof.
  induction l1 as [| a l1 IH]; [reflexivity |].
  cbn [app find]. destruct (p a); [reflexivity | exact IH].
Qed.

Lemma latest_reading_snoc (conn : list Reading) (r : Reading) (cid : string) :
  latest_reading (conn ++ [r]) cid
  = if String.eqb (customer_id r) cid then
      match latest_reading conn cid with
      | None => Some r
      | Some b => if (ts b <=? ts r)%Z then Some r else Some b
      end
    else latest_reading conn cid.
Proof. unfold latest_reading. rewrite fold_left_app. reflexivity. Qed.

Lemma latest_reading_spec (conn : list Reading) (cid : string) :
  match latest_reading conn cid with
  | None => forall r, In r conn -> customer_id r <> cid
  | Some b =>
      In b conn /\ customer_id b = cid
      /\ forall r, In r conn -> customer_id r = cid -> (ts r <= ts b)%Z
  end.
Proof.
  induction conn as [| r conn IH] using rev_ind.
  - cbn. intros r [].
  - rewrite latest_reading_snoc.
    destruct (String.eqb (customer_id r) cid) eqn:E.
    + apply String.eqb_eq in E.
      destruct (latest_reading conn cid) as [b |].
      * destruct IH as [Hin [Hid Hmax]].
        destruct (Z.leb_spec (ts b) (ts r)) as [Hle | Hlt].
        -- split; [apply in_or_app; right; left; reflexivity |].
           split; [exact E |]. intros r' Hin' Hid'.
           apply in_app_or in Hin'. destruct Hin' as [Hin' | [<- | []]]; [| lia].
           specialize (Hmax r' Hin' Hid'). lia.
        -- split; [apply in_or_app; left; exact Hin |].
           split; [exact Hid |]. intros r' Hin' Hid'.
           apply in_app_or in Hin'. destruct Hin' as [Hin' | [<- | []]]; [| lia].
           apply (Hmax r' Hin' Hid').
      * split; [apply in_or_app; right; left; reflexivity |].
        split; [exact E |]. intros r' Hin' Hid'.
        apply in_app_or in Hin'. destruct Hin' as [Hin' | [<- | []]]; [| lia].
        exfalso. apply (IH r' Hin' Hid').
    + apply String.eqb_neq in E.
      destruct (latest_reading conn cid) as [b |].
      * destruct IH as [Hin [Hid Hmax]].
        split; [apply in_or_app; left; exact Hin |].
        split; [exact Hid |]. intros r' Hin' Hid'.
        apply in_app_or in Hin'. destruct Hin' as [Hin' | [<- | []]];
          [apply (Hmax r' Hin' Hid') | congruence].
      * intros r' Hin'. apply in_app_or in Hin'.
        destruct Hin' as [Hin' | [<- | []]]; [apply (IH r' Hin') | exact E].
Qed.

(** The dictionary that [generate_steps] starts from has no entry for a
    customer without readings, and for any other customer it holds the
    watts of one of its readings with the greatest timestamp. *)
Theorem latest_watts_by_customer_spec (conn : list Reading) (cid : string) :
  (dict_get (latest_watts_by_customer conn) cid = None
   <-> forall r, In r conn -> customer_id r <> cid)
  /\ (forall w,
        dict_get (latest_watts_by_customer conn) cid = Some w ->
        exists r,
          In r conn /\ customer_id r = cid /\ watts r = w
          /\ forall r', In r' conn -> customer_id r' = cid -> (ts r' <= ts r)%Z).
Proof.
  unfold dict_get, latest_watts_by_customer.
  pose proof (latest_reading_spec conn cid) as Hspec.
  destruct (latest_reading conn cid) as [b |]; cbn [option_map].
  - destruct Hspec as [Hin [Hid Hmax]]. split.
    + split; [discriminate |]. intros Hnone. exfalso. apply (Hnone b Hin Hid).
    + intros w Hw. inversion Hw; subst. exists b. repeat split; assumption.
  - split; [split; [intros _; exact Hspec | reflexivity] |].
    intros w Hw. discriminate.
Qed.

Lemma latest_watts_by_customer_spec_witness :
  exists r,
    In r [ {| customer_id := "a"; ts := 15%Z; watts := 120; euros := 0.006;
              temp_c := 14; is_estimated := 0 |};
           {| customer_id := "a"; ts := 0%Z; watts := 90; euros := 0.0045;
              temp_c := 14; is_estimated := 0 |} ]
    /\ watts r = 120.
Proof.
  destruct (latest_watts_by_customer_spec
              [ {| customer_id := "a"; ts := 15%Z; watts := 120; euros := 0.006;
                   temp_c := 14; is_estimated := 0 |};
                {| customer_id := "a"; ts := 0%Z; watts := 90; euros := 0.0045;
                   temp_c := 14; is_estimated := 0 |} ] "a") as [_ Hsome].
  destruct (Hsome 120) as [r [Hin [_ [Hw _]]]]; [reflexivity |].
  exists r. split; assumption.
Defined.

Section WithGenerator.
Context {G : Type} `{RandomGen G}.

(** With a cap below 40 W the floor of 40 W wins over the cap, and a
    spike then brings the reading down to the cap: the reading is one of
    the two. *)
Theorem simulate_watts_low_cap (ts0 : Calendar.datetime) (c : Customer)
    (last : option R) (rng : G) :
  unit_draws G ->
  contracted_power_kva c * 1000 * 0.92 < 40 ->
  watts_of (simulate_watts ts0 c last rng) = 40
  \/ watts_of (simulate_watts ts0 c last rng) = contracted_power_kva c * 1000 * 0.92.
Proof.
  intros Hu Hcap. unfold simulate_watts, watts_of.
  repeat match goal with
    | |- context [match uniform ?a ?b ?g with pair _ _ => _ end] =>
        let Hl := fresh "Hburst" in
        pose proof (uniform_lower a b g Hu ltac:(lra)) as Hl;
        destruct (uniform a b g); cbn [fst] in Hl
    | |- context [match (if ?b then _ else _) with pair _ _ => _ end] =>
        destruct b
    | |- context [match (match ?e with pair _ _ => _ end) with
                  | pair _ _ => _ end] => destruct e
    | |- context [match ?e with pair _ _ => _ end] => destruct e
    end;
    cbn [fst snd];
    match goal with
    | |- context [Num.py_max 40 (Num.py_min ?blend _)] =>
        generalize blend; intro
    end;
    repeat match goal with
      | |- context [Num.py_max ?a ?b] =>
          let E := fresh "E" in
          destruct (py_max_case a b) as [[E ?] | [E ?]]; rewrite E in *; clear E
      | |- context [Num.py_min ?a ?b] =>
          let E := fresh "E" in
          destruct (py_min_case a b) as [[E ?] | [E ?]]; rewrite E in *; clear E
      end;
    first [left; reflexivity | right; reflexivity | exfalso; lra].
Qed.

Lemma simulate_tick_keys (ts0 : Calendar.datetime) (cs : list Customer)
    (last : dict) (rng : G) :
  map (fun r => (customer_id r, ts r, is_estimated r))
      (fst (fst (simulate_tick ts0 cs last rng)))
  = map (fun c => (id c, ts0, 0%Z)) cs.
Proof.
  revert last rng. induction cs as [| c cs IH]; intros last rng; [reflexivity |].
  cbn [simulate_tick].
  destruct (simulate_watts ts0 c (dict_get last (id c)) rng) as [[[w t] e] rng1].
  specialize (IH (dict_set last (id c) w) rng1).
  destruct (simulate_tick ts0 cs (dict_set last (id c) w) rng1) as [[rows last2] rng2].
  cbn [fst map customer_id ts is_estimated] in *. rewrite IH. reflexivity.
Qed.

Lemma run_steps_keys (steps : nat) (ts0 : Calendar.datetime) (cs : list Customer)
    (last : dict) (rng : G) (conn : list Reading) :
  exists produced,
    run_steps steps ts0 cs last rng conn = conn ++ produced
    /\ map (fun r => (customer_id r, ts r, is_estimated r)) produced
       = flat_map (fun k => map (fun c => (id c, (ts0 + 15 * Z.of_nat k)%Z, 0%Z)) cs)
           (seq 0 steps).
Proof.
  revert ts0 last rng conn. induction steps as [| k IH]; intros ts0 last rng conn.
  - exists []. cbn. rewrite app_nil_r. split; reflexivity.
  - cbn [run_steps].
    pose proof (simulate_tick_keys ts0 cs last rng) as Hkeys.
    destruct (simulate_tick ts0 cs last rng) as [[rows last1] rng1].
    cbn [fst] in Hkeys.
    destruct (IH (Calendar.add_minutes ts0 INTERVAL_MINUTES) last1 rng1 (conn ++ rows))
      as [more [Hrun Hmore]].
    exists (rows ++ more). rewrite Hrun, <- app_assoc. split; [reflexivity |].
    rewrite map_app, Hkeys, Hmore. cbn [seq flat_map]. f_equal.
    + apply map_ext. intros c. cbn [Z.of_nat].
      rewrite Z.mul_0_r, Z.add_0_r. reflexivity.
    + rewrite <- seq_shift, !flat_map_concat_map, map_map. f_equal.
      apply map_ext. intros j. apply map_ext. intros c.
      unfold Calendar.add_minutes, INTERVAL_MINUTES. rewrite Nat2Z.inj_succ.
      replace (ts0 + 15 + 15 * Z.of_nat j)%Z
        with (ts0 + 15 * Z.succ (Z.of_nat j))%Z by lia.
      reflexivity.
Qed.

(** [generate_steps] only appends.  What it appends is one batch per
    step, each batch holding one reading per customer in the order of the
    customer list, stamped [start_ts + 15 k] minutes at step [k] and
    flagged as not estimated. *)
Theorem generate_steps_schedule (conn : list Reading) (cs : list Customer)
    (start_ts : Calendar.datetime) (steps : nat) (seed : Z) :
  exists produced,
    generate_steps conn cs start_ts steps seed = conn ++ produced
    /\ map (fun r => (customer_id r, ts r, is_estimated r)) produced
       = flat_map
           (fun k => map (fun c => (id c, (start_ts + 15 * Z.of_nat k)%Z, 0%Z)) cs)
           (seq 0 steps).
Proof.
  unfold generate_steps.
  destruct (run_steps_keys steps start_ts cs (latest_watts_by_customer conn)
              (from_seed seed) conn) as [produced [Hrun Hkeys]].
  exists produced. split; [exact Hrun | exact Hkeys].
Qed.

(** After a tick the dictionary of last readings holds, for every id
    that got a reading, the watts of the last reading produced for it, and
    is unchanged on the other ids. *)
Theorem simulate_tick_carries_watts (ts0 : Calendar.datetime)
    (cs : list Customer) (last : dict) (rng : G) (cid : string) :
  let rows := fst (fst (simulate_tick ts0 cs last rng)) in
  let last' := snd (fst (simulate_tick ts0 cs last rng)) in
  dict_get last' cid
  = match find (fun r => String.eqb (customer_id r) cid) (rev rows) with
    | Some r => Some (watts r)
    | None => dict_get last cid
    end.
Proof.
  revert last rng. induction cs as [| c cs IH]; intros last rng; [reflexivity |].
  cbn [simulate_tick].
  destruct (simulate_watts ts0 c (dict_get last (id c)) rng) as [[[w t] e] rng1].
  specialize (IH (dict_set last (id c) w) rng1).
  destruct (simulate_tick ts0 cs (dict_set last (id c) w) rng1) as [[rows last2] rng2].
  cbn [fst snd] in *. cbn [rev]. rewrite find_app, IH.
  destruct (find (fun r => String.eqb (customer_id r) cid) (rev rows)) as [r |];
    [reflexivity |].
  cbn [find customer_id watts]. unfold dict_get, dict_set.
  rewrite (String.eqb_sym cid (id c)).
  destruct (String.eqb (id c) cid); reflexivity.
Qed.

Lemma simulate_tick_bounds (ts0 : Calendar.datetime) (cs : list Customer)
    (last : dict) (rng : G) :
  unit_draws G ->
  Forall (fun c => In (contracted_power_kva c) (contracted_choices (segment c))) cs ->
  Forall (fun r => 40 <= watts r <= 25392 /\ 0.002 <= euros r <= 1.2696)
    (fst (fst (simulate_tick ts0 cs last rng))).
Proof.
  intros Hu Hcs. revert last rng.
  induction Hcs as [| c cs Hc Hcs IH]; intros last rng; [constructor |].
  cbn [simulate_tick].
  pose proof (simulate_watts_clamped ts0 c (dict_get last (id c)) rng Hu
                (created_power_cap c Hc)) as Hw.
  pose proof (simulate_watts_flat_rate ts0 c (dict_get last (id c)) rng) as He.
  destruct (simulate_watts ts0 c (dict_get last (id c)) rng) as [[[w t] e] rng1].
  specialize (IH (dict_set last (id c) w) rng1).
  destruct (simulate_tick ts0 cs (dict_set last (id c) w) rng1) as [[rows last2] rng2].
  unfold watts_of, euros_of, Documented.interval_cost in *. cbn [fst snd] in *.
  constructor; [| exact IH]. cbn [watts euros].
  assert (Hmax : contracted_power_kva c <= 27.6).
  { unfold contracted_choices in Hc.
    destruct (String.eqb (segment c) "residential");
      [| destruct (String.eqb (segment c) "sme")];
      cbn [In] in Hc;
      repeat (destruct Hc as [Hc | Hc]; [lra |]); contradiction. }
  lra.
Qed.

Lemma run_steps_bounds (steps : nat) (ts0 : Calendar.datetime)
    (cs : list Customer) (last : dict) (rng : G) (conn : list Reading) :
  unit_draws G ->
  Forall (fun c => In (contracted_power_kva c) (contracted_choices (segment c))) cs ->
  exists produced,
    run_steps steps ts0 cs last rng conn = conn ++ produced
    /\ Forall (fun r => 40 <= watts r <= 25392 /\ 0.002 <= euros r <= 1.2696)
         produced.
Proof.
  intros Hu Hcs. revert ts0 conn last rng.
  induction steps as [| k IH]; intros ts0 conn last rng.
  - exists []. cbn [run_steps]. rewrite app_nil_r. split; [reflexivity | constructor].
  - cbn [run_steps].
    pose proof (simulate_tick_bounds ts0 cs last rng Hu Hcs) as Hrows.
    destruct (simulate_tick ts0 cs last rng) as [[rows last1] rng1].
    cbn [fst] in Hrows.
    destruct (IH (Calendar.add_minutes ts0 INTERVAL_MINUTES) (conn ++ rows) last1 rng1)
      as [more [Hrun Hmore]].
    exists (rows ++ more). rewrite Hrun, <- app_assoc. split; [reflexivity |].
    apply Forall_app. split; assumption.
Qed.

(** For customers whose contracted power is one that [create_customers]
    draws for their segment, every reading that [generate_steps] appends
    lies between 40 W and 25392 W (the cap of the largest contract), and
    its cost between 0.002 and 1.2696 euros. *)
Theorem generate_steps_bounds (conn : list Reading) (cs : list Customer)
    (start_ts : Calendar.datetime) (steps : nat) (seed : Z) :
  unit_draws G ->
  Forall (fun c => In (contracted_power_kva c) (contracted_choices (segment c))) cs ->
  exists produced,
    generate_steps conn cs start_ts steps seed = conn ++ produced
    /\ Forall (fun r => 40 <= watts r <= 25392 /\ 0.002 <= euros r <= 1.2696)
         produced.
Proof.
  intros Hu Hcs. unfold generate_steps.
  destruct (run_steps_bounds steps start_ts cs (latest_watts_by_customer conn)
              (from_seed seed) conn Hu Hcs) as [produced [Hrun Hall]].
  exists produced. split; [exact Hrun | exact Hall].
Qed.

End WithGenerator.

Lemma simulate_watts_low_cap_witness :
  watts_of (simulate_watts Fixtures.ts_day170 Fixtures.gen_low_power None (42%nat)) = 40
  \/ watts_of (simulate_watts Fixtures.ts_day170 Fixtures.gen_low_power None (42%nat))
     = contracted_power_kva Fixtures.gen_low_power * 1000 * 0.92.
Proof.
  apply (simulate_watts_low_cap Fixtures.ts_day170 Fixtures.gen_low_power None
           (42%nat)).
  - exact counter_gen_unit_draws.
  - cbn. lra.
Defined.

Lemma generate_steps_bounds_witness :
  exists produced,
    generate_steps (G := nat) [] [Fixtures.gen_residential] Fixtures.ts_day170 2 42
    = [] ++ produced
    /\ Forall (fun r => 40 <= watts r <= 25392 /\ 0.002 <= euros r <= 1.2696)
         produced.
Proof.
  apply (generate_steps_bounds (G := nat) [] [Fixtures.gen_residential]
           Fixtures.ts_day170 2 42).
  - exact counter_gen_unit_draws.
  - constructor; [| constructor]. cbn. left. reflexivity.
Defined.

End GeneratedReadings.

(** ** The clock of the generator and the start of a run *)

Section Scheduling.
Import Generate.
Local Open Scope Z_scope.

Lemma strip_seconds_minutes (t : Clock.instant) :
  Clock.strip_seconds t = 60000000 * (t / 60000000).
Proof.
  unfold Clock.strip_seconds, Clock.second, Clock.microsecond, Clock.instant in *.
  Z.div_mod_to_equations. lia.
Qed.

Lemma floor_quarters (t : Clock.instant) :
  Clock._floor_to_15m t = 900000000 * (t / 900000000).
Proof.
  unfold Clock._floor_to_15m, Clock.replace_minute. rewrite strip_seconds_minutes.
  unfold Clock.minute, INTERVAL_MINUTES, Clock.instant in *.
  Z.div_mod_to_equations. lia.
Qed.

(** [_floor_to_15m] returns the quarter of an hour the instant falls in:
    a multiple of 15 minutes, at most the instant and less than 15
    minutes before it; flooring twice changes nothing, and the result
    has minute 0, 15, 30 or 45 with no seconds. *)
Theorem floor_to_15m_spec (t : Clock.instant) :
  let f := Clock._floor_to_15m t in
  f mod 900000000 = 0
  /\ f <= t < f + 900000000
  /\ Clock._floor_to_15m f = f
  /\ Clock.minute f = 15 * (Clock.minute t / 15)
  /\ Clock.second f = 0 /\ Clock.microsecond f = 0.
Proof.
  cbv zeta. rewrite (floor_quarters (Clock._floor_to_15m t)).
  rewrite (floor_quarters t).
  unfold Clock.minute, Clock.second, Clock.microsecond, Clock.instant in *.
  repeat split; Z.div_mod_to_equations; lia.
Qed.

(** [_next_15m_boundary] returns a multiple of 15 minutes.  When the
    minute of the instant is 0, 15, 30 or 45 it is the start of that
    minute, whatever the seconds: at most the instant and less than a
    minute before it.  Otherwise it is the next quarter, after the
    instant and at most 14 minutes ahead. *)
Theorem next_15m_boundary_spec (t : Clock.instant) :
  let n := Clock._next_15m_boundary t in
  n mod 900000000 = 0
  /\ (Clock.minute t mod 15 = 0 -> n = Clock.strip_seconds t /\ t - 60000000 < n <= t)
  /\ (Clock.minute t mod 15 <> 0 -> t < n <= t + 14 * 60000000)
  /\ (n = t <-> t mod 900000000 = 0).
Proof.
  cbv zeta. unfold Clock._next_15m_boundary, Clock.add_minutes, INTERVAL_MINUTES.
  rewrite floor_quarters, strip_seconds_minutes.
  unfold Clock.minute, Clock.instant in *.
  destruct (Z.eqb_spec (900000000 * (t / 900000000)) (60000000 * (t / 60000000)))
    as [E | E];
    (split; [| split; [intros Hq | split; [intros Hq | split; intros Hq]]]);
    Z.div_mod_to_equations; lia.
Qed.

Lemma next_15m_boundary_spec_witness :
  Clock._next_15m_boundary 30000000 = Clock.strip_seconds 30000000
  /\ 30000000 - 60000000 < Clock._next_15m_boundary 30000000 <= 30000000.
Proof.
  apply (next_15m_boundary_spec 30000000). reflexivity.
Defined.

Lemma latest_ts_snoc (conn : list Reading) (r : Reading) :
  GenerateRun.latest_ts (conn ++ [r])
  = match GenerateRun.latest_ts conn with
    | None => Some (ts r)
    | Some b => Some (Z.max b (ts r))
    end.
Proof. unfold GenerateRun.latest_ts. rewrite fold_left_app. reflexivity. Qed.

Lemma latest_ts_spec (conn : list Reading) :
  match GenerateRun.latest_ts conn with
  | None => conn = []
  | Some last =>
      (exists r, In r conn /\ ts r = last) /\ forall r, In r conn -> ts r <= last
  end.
Proof.
  induction conn as [| r conn IH] using rev_ind; [reflexivity |].
  rewrite latest_ts_snoc. destruct (GenerateRun.latest_ts conn) as [b |].
  - destruct IH as [[r0 [Hin0 Hts0]] Hmax]. split.
    + destruct (Z.max_spec b (ts r)) as [[_ ->] | [_ ->]].
      * exists r. split; [apply in_or_app; right; left; reflexivity | reflexivity].
      * exists r0. split; [apply in_or_app; left; exact Hin0 | exact Hts0].
    + intros r' Hin'. apply in_app_or in Hin'.
      destruct Hin' as [Hin' | [<- | []]]; [specialize (Hmax r' Hin') |]; lia.
  - subst conn. split.
    + exists r. split; [left; reflexivity | reflexivity].
    + intros r' [<- | []]. lia.
Qed.

Lemma produced_stamp {A : Type} (key : A -> string * Z * Z) (produced : list A)
    (cs : list Customer) (start : Z) (steps : nat) (r : A) :
  map key produced
  = flat_map (fun k => map (fun c => (id c, start + 15 * Z.of_nat k, 0)) cs)
      (seq 0 steps) ->
  In r produced ->
  exists k, (k < steps)%nat /\ snd (fst (key r)) = start + 15 * Z.of_nat k.
Proof.
  intros Hkeys Hin. apply (in_map key) in Hin. rewrite Hkeys in Hin.
  apply in_flat_map in Hin. destruct Hin as [k [Hk Hin]].
  apply in_seq in Hk. apply in_map_iff in Hin. destruct Hin as [c [Hc _]].
  exists k. split; [lia |]. rewrite <- Hc. reflexivity.
Qed.

Lemma batches_length {A B C : Type} (f : A -> B -> C) (cs : list B) (l : list A) :
  length (flat_map (fun k => map (f k) cs) l) = (length l * length cs)%nat.
Proof.
  induction l as [| a l IH]; [reflexivity |].
  cbn [flat_map length]. rewrite length_app, length_map, IH. reflexivity.
Qed.

Section WithGenerator.
Context {G : Type} `{RandomGen G}.

(** A batch run only appends, and stamps every new reading after every
    reading that was already stored: one interval after the latest one
    at the earliest.  On an empty table the stamps are whole quarters of
    an hour, the first one at most [days] days before [now]. *)
Theorem batch_after_history (conn : list Reading) (cs : list Customer)
    (now : Clock.instant) (days : Z) (steps : nat) (seed : Z) :
  exists produced,
    GenerateRun.batch conn cs now days steps seed = conn ++ produced
    /\ length produced = (steps * length cs)%nat
    /\ (forall old new, In old conn -> In new produced -> ts old + 15 <= ts new)
    /\ (conn = [] ->
        forall new, In new produced ->
          ts new mod 15 = 0
          /\ Clock.to_minutes (Clock.sub_days now days) - 15 < ts new).
Proof.
  unfold GenerateRun.batch.
  destruct (run_steps_keys steps (GenerateRun.start_of_run conn now days) cs
              (latest_watts_by_customer conn) (from_seed seed) conn)
    as [produced [Hrun Hkeys]].
  exists produced. unfold generate_steps. split; [exact Hrun |]. split.
  { apply (f_equal (@length _)) in Hkeys. rewrite length_map in Hkeys.
    rewrite Hkeys, batches_length, length_seq. reflexivity. }
  split.
  - intros old new Hold Hnew.
    destruct (produced_stamp _ produced cs _ steps new Hkeys Hnew) as [k [_ Hk]].
    cbn [fst snd] in Hk. rewrite Hk.
    pose proof (latest_ts_spec conn) as Hspec. unfold GenerateRun.start_of_run.
    destruct (GenerateRun.latest_ts conn) as [last |].
    + destruct Hspec as [_ Hmax]. specialize (Hmax old Hold).
      unfold Calendar.add_minutes, INTERVAL_MINUTES. lia.
    + subst conn. contradiction.
  - intros -> new Hnew.
    destruct (produced_stamp _ produced cs _ steps new Hkeys Hnew) as [k [_ Hk]].
    cbn [fst snd] in Hk. rewrite Hk.
    unfold GenerateRun.start_of_run. cbn [GenerateRun.latest_ts fold_left].
    rewrite floor_quarters. unfold Clock.to_minutes, Clock.instant in *.
    generalize (Clock.sub_days now days). intros t.
    split; Z.div_mod_to_equations; lia.
Qed.

End WithGenerator.

End Scheduling.

(** ** The samples of the two trainers *)

Section Features.
Import Kernel.
Local Open Scope R_scope.
Local Open Scope string_scope.

Lemma indicator_cases (b : bool) :
  (b = true /\ Train.indicator b = 1) \/ (b = false /\ Train.indicator b = 0).
Proof. destruct b; [left | right]; split; reflexivity. Qed.

Lemma distinct_labels (s a b : string) :
  a <> b -> String.eqb s a = true -> String.eqb s b = false.
Proof.
  intros Hab Ha. apply String.eqb_eq in Ha. subst s. apply String.eqb_neq. exact Hab.
Qed.

Lemma sin2_cos2_sum (x : R) : sin x * sin x + cos x * cos x = 1.
Proof. pose proof (sin2_cos2 x) as E. unfold Rsqr in E. exact E. Qed.

(** The feature vector of the next-step model has one entry per feature
    name.  It starts with the last reading; the hour and the day of the
    week are encoded as points of the unit circle; the weekend flag is 1
    exactly on Saturday and Sunday; a stored temperature is used as is;
    and in each one-hot group (tariff, segment) at most one entry is 1,
    the others 0. *)
Theorem make_features_encoding (ts : Calendar.datetime) (c : Train.Customer)
    (last_watts : R) (temp_c : option R) :
  let f := Train.make_features ts c last_watts temp_c in
  let e := fun j => nth j f 0 in
  length f = length Train.feature_names
  /\ e 0%nat = last_watts
  /\ e 1%nat * e 1%nat + e 2%nat * e 2%nat = 1
  /\ e 3%nat * e 3%nat + e 4%nat * e 4%nat = 1
  /\ e 5%nat = (if (5 <=? Calendar.weekday ts)%Z then 1 else 0)
  /\ (forall t, temp_c = Some t -> e 6%nat = t)
  /\ (temp_c = None -> e 6%nat = Train._seasonal_temp ts (Train.city c))
  /\ ((e 8%nat = 0 /\ (e 9%nat = 0 \/ e 9%nat = 1))
      \/ (e 8%nat = 1 /\ e 9%nat = 0))
  /\ ((e 10%nat = 0 /\ e 11%nat = 0 /\ (e 12%nat = 0 \/ e 12%nat = 1))
      \/ (e 10%nat = 0 /\ e 11%nat = 1 /\ e 12%nat = 0)
      \/ (e 10%nat = 1 /\ e 11%nat = 0 /\ e 12%nat = 0)).
Proof.
  cbv zeta. unfold Train.make_features. cbn [nth length Train.feature_names].
  split; [reflexivity |]. split; [reflexivity |].
  split; [apply sin2_cos2_sum |]. split; [apply sin2_cos2_sum |].
  split; [reflexivity |].
  split; [intros t ->; reflexivity |]. split; [intros ->; reflexivity |].
  split.
  - destruct (String.eqb (Train.tariff c) "Simples") eqn:E1.
    + right. rewrite (distinct_labels _ "Simples" "Bi-horário" ltac:(discriminate) E1).
      split; reflexivity.
    + left. split; [reflexivity |].
      destruct (String.eqb (Train.tariff c) "Bi-horário"); [right | left]; reflexivity.
  - destruct (String.eqb (Train.segment c) "residential") eqn:E1.
    + right. right.
      rewrite (distinct_labels _ "residential" "sme" ltac:(discriminate) E1).
      rewrite (distinct_labels _ "residential" "industrial" ltac:(discriminate) E1).
      repeat split; reflexivity.
    + destruct (String.eqb (Train.segment c) "sme") eqn:E2.
      * right. left.
        rewrite (distinct_labels _ "sme" "industrial" ltac:(discriminate) E2).
        repeat split; reflexivity.
      * left. split; [reflexivity |]. split; [reflexivity |].
        destruct (String.eqb (Train.segment c) "industrial"); [right | left];
          reflexivity.
Qed.

Lemma pairs_of_rows_chain (c : Train.Customer) (rows : list Train.Row) :
  map snd (Train.pairs_of_rows c rows) = tl (map Train.row_watts rows)
  /\ map (fun p => nth 0 (fst p) 0) (Train.pairs_of_rows c rows)
     = removelast (map Train.row_watts rows).
Proof.
  induction rows as [| r rows IH]; [split; reflexivity |].
  destruct rows as [| r' rows]; [split; reflexivity |].
  destruct IH as [IHy IHx].
  change (Train.pairs_of_rows c (r :: r' :: rows))
    with ((Train.make_features (Train.row_ts r) c (Train.row_watts r)
             (Train.row_temp_c r), Train.row_watts r')
          :: Train.pairs_of_rows c (r' :: rows)).
  cbn [map fst snd tl]. split.
  - f_equal. exact IHy.
  - change (removelast (Train.row_watts r :: Train.row_watts r' :: map Train.row_watts rows))
      with (Train.row_watts r
            :: removelast (Train.row_watts r' :: map Train.row_watts rows)).
    f_equal. exact IHx.
Qed.

(** [load_training_pairs] pairs every reading of a customer with the
    next reading of the same customer, customer by customer: the targets
    of a customer are its readings but the first, the first features of
    its samples are its readings but the last, and a customer with fewer
    than 3 readings gives no sample. No sample spans two customers. *)
Theorem load_training_pairs_chain (db : Train.Db) (cs : list Train.Customer) :
  let readings := fun c => map Train.row_watts (Train.telemetry_since db (Train.id c)) in
  let kept := fun c => if Nat.ltb (length (readings c)) 3 then [] else readings c in
  snd (Train.load_training_pairs db cs) = flat_map (fun c => tl (kept c)) cs
  /\ map (fun row => nth 0 row 0) (fst (Train.load_training_pairs db cs))
     = flat_map (fun c => removelast (kept c)) cs
  /\ Documented.rectangular (length Train.feature_names)
       (fst (Train.load_training_pairs db cs)).
Proof.
  cbv zeta. split; [| split].
  - unfold Train.load_training_pairs. cbn [snd].
    induction cs as [| c cs IH]; [reflexivity |].
    cbn [flat_map]. rewrite map_app, IH. f_equal. rewrite length_map.
    destruct (Nat.ltb (length (Train.telemetry_since db (Train.id c))) 3);
      [reflexivity | apply pairs_of_rows_chain].
  - unfold Train.load_training_pairs. cbn [fst]. rewrite map_map.
    induction cs as [| c cs IH]; [reflexivity |].
    cbn [flat_map]. rewrite map_app, IH. f_equal. rewrite length_map.
    destruct (Nat.ltb (length (Train.telemetry_since db (Train.id c))) 3);
      [reflexivity | apply pairs_of_rows_chain].
  - apply load_training_pairs_rows.
Qed.

(** The dataset of the power-sizing run has one sample per customer with
    telemetry, in the order of the customer table.  The sample of a
    customer has 10 features that start with its contracted power and
    its 30-day peak and average up to its latest reading, and its target
    is the ideal power for these statistics, between 1 and 60 kVA. *)
Theorem build_dataset_samples (db : PowerTrain.Db) (cs : list PowerTrain.Customer) :
  let known := filter (PowerTrain.has_history db) cs in
  let x := fst (PowerTrain.build_dataset db cs) in
  let y := snd (PowerTrain.build_dataset db cs) in
  length x = length known /\ length y = length known
  /\ Documented.rectangular (length PowerTrain.feature_names) x
  /\ Forall (fun t => 1 <= t <= 60) y
  /\ Forall2
       (fun c sample =>
          exists latest,
            PowerTrain.get_latest_ts db (PowerTrain.id c) = Some latest
            /\ nth 0 (fst sample) 0 = PowerTrain.contracted_power_kva c
            /\ (nth 1 (fst sample) 0, nth 2 (fst sample) 0)
               = PowerTrain.get_stats_30d db (PowerTrain.id c) latest
            /\ snd sample
               = PowerTrain.target_ideal_kva c (nth 1 (fst sample) 0)
                   (nth 2 (fst sample) 0))
       known (combine x y).
Proof.
  cbv zeta. induction cs as [| c cs IH].
  { cbn. repeat split; constructor. }
  cbn [PowerTrain.build_dataset filter].
  destruct (PowerTrain.build_dataset db cs) as [x y]. cbn [fst snd] in IH.
  destruct IH as [Hx [Hy [Hrect [Hrange Hpairs]]]].
  unfold PowerTrain.has_history, PowerTrain.sample_of.
  destruct (PowerTrain.get_latest_ts db (PowerTrain.id c)) as [latest |] eqn:Hlatest.
  - destruct (PowerTrain.get_stats_30d db (PowerTrain.id c) latest) as [peak avg]
      eqn:Hstats.
    cbn [fst snd length combine]. split; [f_equal; exact Hx |].
    split; [f_equal; exact Hy |].
    split; [constructor; [reflexivity | exact Hrect] |].
    split.
    + constructor; [| exact Hrange]. rewrite target_unfold.
      destruct (clamp_cases
                  (IZR (Num.ceil (Rmax (PowerTrain.peak_kva peak) (PowerTrain.avg_kva avg)
                                  * (1 + PowerTrain.seg_margin c) * 10)) / 10))
        as [[Hk ->] | [[Hk ->] | [Hk ->]]]; lra.
    + constructor; [| exact Hpairs].
      exists latest. cbn [fst snd nth]. rewrite Hstats.
      repeat split; reflexivity || exact Hlatest.
  - cbn [fst snd]. repeat split; assumption.
Qed.

End Features.

(** ** The threshold of the elimination loop *)

Section DroppedFactor.
Import Kernel.
Local Open Scope R_scope.

Ltac settle_abs :=
  exfalso; unfold Rabs in *;
  repeat match goal with
    | H : context [Rcase_abs ?z] |- _ => destruct (Rcase_abs z)
    end;
  lra.

Ltac plain t :=
  lazymatch t with
  | context [Rgt_dec _ _] => fail
  | context [Rlt_dec _ _] => fail
  | _ => idtac
  end.

Ltac unfold_column :=
  unfold reduce_columns, pivot_column, eliminate, eliminate_row, find_pivot,
    swap_rows, entry, row;
  cbn [nth set_row map Nat.eqb seq foldM fold_left bind fst snd zip_strict
       Nat.add Nat.sub length].

Ltac settle_test :=
  match goal with
  | |- context [Rgt_dec ?x ?y] =>
      plain x; plain y; destruct (Rgt_dec x y); [try settle_abs | try settle_abs]
  | |- context [Rlt_dec ?x ?y] =>
      plain x; plain y; destruct (Rlt_dec x y); [try settle_abs | try settle_abs]
  end.

(** An entry below the threshold is left where it is.  For
    [[1, 0], [e, 1]] with [0 < |e| < 1e-12] the elimination changes
    nothing: the result has the entries of the identity, and its product
    with the input is not the identity. *)
Theorem invert_matrix_drops_small_factor (e : R) :
  0 < Rabs e < 1e-12 ->
  exists inv,
    invert_matrix [[1; 0]; [e; 1]] = Ok inv
    /\ (forall i j, entry inv i j = entry (identity 2) i j)
    /\ mat_mul inv [[1; 0]; [e; 1]] <> Ok (identity 2).
Proof.
  intros He. unfold invert_matrix, augment, identity.
  cbn [length seq map Nat.eqb zip_strict bind combine fst snd app].
  unfold_column. repeat (settle_test; unfold_column).
  eexists. split; [reflexivity |]. cbn [map skipn]. split.
  - intros i j. unfold entry, row.
    destruct i as [| [| i]]; destruct j as [| [| j]]; cbn [nth]; lra.
  - unfold mat_mul, mat_transpose.
    cbn [forallb length Nat.eqb andb seq map nth bind mapM].
    unfold dot. cbn [zip_strict length Nat.eqb bind combine map fst snd mapM].
    unfold Num.sum. cbn [fold_left]. intros Hprod. injection Hprod. intros.
    assert (E : e = 0) by lra. rewrite E, Rabs_R0 in He. lra.
Qed.

Lemma invert_matrix_drops_small_factor_witness :
  exists inv,
    invert_matrix [[1; 0]; [1e-13; 1]] = Ok inv
    /\ mat_mul inv [[1; 0]; [1e-13; 1]] <> Ok (identity 2).
Proof.
  destruct (invert_matrix_drops_small_factor 1e-13) as [inv [Hinv [_ Hprod]]].
  - unfold Rabs. destruct (Rcase_abs 1e-13); lra.
  - exists inv. split; assumption.
Defined.

End DroppedFactor.

(** ** The profiles that [create_customers] draws *)

Section CreatedProfiles.
Import Generate Create.
Local Open Scope R_scope.
Local Open Scope string_scope.

Lemma counter_index_draws : index_draws nat.
Proof.
  intros g n Hn. cbn [randbelow counter_index counter_randbelow fst].
  apply Nat.mod_upper_bound. lia.
Qed.

Lemma bisect_right_le (a : list R) (x : R) (hi : nat) :
  (bisect_right a x hi <= hi)%nat.
Proof.
  revert a. induction hi as [| hi IH]; intros a; [destruct a; cbn; lia |].
  destruct a as [| c a]; cbn [bisect_right]; [lia |].
  destruct (Rlt_dec x c); [lia |]. specialize (IH a). lia.
Qed.

Section WithGenerator.
Context {G : Type} `{RandomGen G} `{IndexGen G}.

Lemma always_ret {A : Type} (a : A) (P : A -> Prop) :
  P a -> always (G := G) (ret a) P.
Proof. intros HP g. exact HP. Qed.

Lemma always_bind {A B : Type} (m : @draw G A) (k : A -> @draw G B)
    (P : A -> Prop) (Q : B -> Prop) :
  always m P -> (forall a, P a -> always (k a) Q) -> always (and_then m k) Q.
Proof.
  intros Hm Hk g. unfold and_then. specialize (Hm g).
  destruct (m g) as [a g']. apply Hk. exact Hm.
Qed.

Lemma always_any {A : Type} (m : @draw G A) : always m (fun _ => True).
Proof. intros g. exact I. Qed.

Lemma always_choice {A : Type} (d : A) (l : list A) :
  index_draws G -> l <> [] -> always (choice d l) (fun a => In a l).
Proof.
  intros Hidx Hne g. unfold choice.
  assert (Hlen : (0 < length l)%nat) by (destruct l; [congruence | cbn; lia]).
  specialize (Hidx g (length l) Hlen).
  destruct (randbelow g (length l)) as [i g']. cbn [fst] in *.
  apply nth_In. exact Hidx.
Qed.

Lemma always_choices {A : Type} (d : A) (population : list A) (weights : list R) :
  population <> [] -> always (choices d population weights) (fun a => In a population).
Proof.
  intros Hne g. unfold choices. destruct (random g) as [u g']. cbn [fst].
  apply nth_In.
  pose proof (bisect_right_le (accumulate_weights 0 weights)
                (u * (last (accumulate_weights 0 weights) 0 + 0))
                (length population - 1)) as Hle.
  destruct population; [congruence | cbn [length] in *; lia].
Qed.

Lemma always_uniform (a b : R) :
  unit_draws G -> a <= b -> always (rng_uniform a b) (fun v => a <= v <= b).
Proof.
  intros Hu Hab g. unfold rng_uniform, uniform. specialize (Hu g).
  destruct (random g) as [u g']. cbn [fst] in *. nra.
Qed.

Ltac next_draw tac :=
  eapply always_bind; [tac |]; cbv beta.

Ltac members Hin :=
  cbn [In] in Hin;
  repeat (destruct Hin as [Hin | Hin]; [subst |]); [.. | contradiction].

Lemma draw_dwelling_range (segment : string) :
  index_draws G -> unit_draws G ->
  always (draw_dwelling segment)
    (fun d => 39 <= fst (fst d) <= 2780 /\ (1 <= snd (fst d) <= 60)%Z).
Proof.
  intros Hidx Hu. unfold draw_dwelling.
  destruct (String.eqb segment "residential");
    [| destruct (String.eqb segment "sme")].
  - next_draw ltac:(apply (always_choice 0 [45; 70; 95; 130; 180] Hidx); discriminate).
    intros area Harea.
    next_draw ltac:(apply (always_uniform (-6) 10 Hu); lra). intros extra Hextra.
    next_draw ltac:(apply (always_choices 0%Z [1; 2; 3; 4; 5]%Z); discriminate).
    intros household Hh.
    next_draw ltac:(apply always_any). intros dwelling _.
    apply always_ret. cbn [fst snd]. split.
    + members Harea; lra.
    + members Hh; lia.
  - next_draw ltac:(apply (always_choice 0 [120; 180; 260; 420] Hidx); discriminate).
    intros area Harea.
    next_draw ltac:(apply (always_uniform (-20) 30 Hu); lra). intros extra Hextra.
    next_draw ltac:(apply (always_choice 0%Z [3; 5; 8; 12]%Z Hidx); discriminate).
    intros household Hh.
    apply always_ret. cbn [fst snd]. split.
    + members Harea; lra.
    + members Hh; lia.
  - next_draw ltac:(apply (always_choice 0 [800; 1500; 2600] Hidx); discriminate).
    intros area Harea.
    next_draw ltac:(apply (always_uniform (-120) 180 Hu); lra). intros extra Hextra.
    next_draw ltac:(apply (always_choice 0%Z [20; 35; 60]%Z Hidx); discriminate).
    intros household Hh.
    apply always_ret. cbn [fst snd]. split.
    + members Harea; lra.
    + members Hh; lia.
Qed.

Lemma clamped (lo hi p : R) :
  lo <= hi -> lo <= Num.py_max lo (Num.py_min hi p) <= hi.
Proof.
  intros Hle.
  destruct (py_min_case hi p) as [[-> ?] | [-> ?]];
    destruct (py_max_case lo hi) as [[E1 ?] | [E1 ?]];
    destruct (py_max_case lo p) as [[E2 ?] | [E2 ?]];
    rewrite ?E1, ?E2; lra.
Qed.

Lemma contracted_choices_nonempty (segment : string) :
  contracted_choices segment <> [].
Proof.
  unfold contracted_choices.
  destruct (String.eqb segment "residential"); [discriminate |].
  destruct (String.eqb segment "sme"); discriminate.
Qed.

Lemma draw_customer_profile :
  index_draws G -> unit_draws G -> always draw_customer drawn_profile.
Proof.
  intros Hidx Hu. unfold draw_customer.
  next_draw ltac:(apply (always_choices "" SEGMENTS); discriminate). intros seg Hseg.
  next_draw ltac:(apply (always_choices "" TARIFFS); discriminate). intros tar Htar.
  next_draw ltac:(apply (always_choice "" CITIES Hidx); discriminate). intros cty Hcity.
  next_draw ltac:(apply (always_choice "" UTILITIES Hidx); discriminate).
  intros util Hutil.
  next_draw ltac:(apply (always_choice 0 (contracted_choices seg) Hidx);
                  apply contracted_choices_nonempty).
  intros contracted Hcontracted.
  next_draw ltac:(apply always_any). intros p _.
  next_draw ltac:(apply always_any). intros f _.
  next_draw ltac:(apply always_any). intros u_meter _.
  next_draw ltac:(apply (draw_dwelling_range seg Hidx Hu)).
  intros [[home_area household] dwelling] [Harea Hhouse]. cbn [fst snd] in Harea, Hhouse.
  next_draw ltac:(apply always_any). intros locality _.
  next_draw ltac:(apply always_any). intros band _.
  next_draw ltac:(apply always_any). intros k_heating _.
  next_draw ltac:(apply always_any). intros heating _.
  eapply (always_bind _ _
            (fun hs => (hs = 0 \/ hs = 1)%Z
                       /\ (seg <> "residential" -> hs = 0%Z))).
  { destruct (String.eqb_spec seg "residential") as [E | E].
    - next_draw ltac:(apply always_any). intros u_solar _. apply always_ret.
      split; [destruct (Rltb u_solar 0.22); [right | left]; reflexivity |].
      intros Hne. contradiction.
    - apply always_ret. split; [left; reflexivity | intros _; reflexivity]. }
  intros solar [Hsolar Hsolar0].
  eapply (always_bind _ _
            (fun ev => (0 <= ev <= 2)%Z /\ (seg <> "residential" -> ev = 0%Z))).
  { destruct (String.eqb_spec seg "residential") as [E | E].
    - intros g.
      pose proof (always_choices 0%Z [0; 1; 2]%Z [0.78; 0.18; 0.04]
                    ltac:(discriminate) g) as Hin.
      cbv beta in Hin. split; [members Hin; rewrite <- Hin; lia |].
      intros Hne. contradiction.
    - apply always_ret. split; [lia | intros _; reflexivity]. }
  intros ev [Hev Hev0].
  next_draw ltac:(apply always_any). intros alert _.
  next_draw ltac:(apply always_any). intros k_appliances _.
  next_draw ltac:(apply always_any). intros appliances _.
  next_draw ltac:(apply always_any). intros cid _.
  next_draw ltac:(apply always_any). intros cname _.
  apply always_ret. unfold drawn_profile.
  cbn [segment tariff city utility contracted_power_kva price_eur_per_kwh
       fixed_daily_fee_eur has_smart_meter home_area_m2 household_size
       has_solar ev_count].
  repeat (split; [first [assumption | apply clamped; lra] |]).
  split; [destruct (Rltb u_meter 0.88); [right | left]; reflexivity |].
  repeat (split; [assumption |]).
  intros Hne. split; [apply Hsolar0 | apply Hev0]; exact Hne.
Qed.

Lemma draw_customers_profiles (count : nat) :
  index_draws G -> unit_draws G ->
  always (draw_customers count)
    (fun cs => length cs = count /\ Forall drawn_profile cs).
Proof.
  intros Hidx Hu. induction count as [| k IH].
  - apply always_ret. split; [reflexivity | constructor].
  - cbn [draw_customers].
    next_draw ltac:(apply (draw_customer_profile Hidx Hu)). intros c Hc.
    next_draw ltac:(apply IH). intros rest [Hlen Hrest].
    apply always_ret. split; [cbn [length]; congruence | constructor; assumption].
Qed.

(** With a generator that keeps the library's promises, every profile
    that [create_customers] returns has a segment, a tariff, a city and a
    utility of the module's lists, a contracted power of the list of its
    segment, a unit price in [0.08, 0.45], a daily fee in [0, 1.5], flags
    in {0, 1}, at most 2 vehicles and, outside the residential segment,
    neither solar panels nor vehicles; and there are [count] of them. *)
Theorem create_customers_profiles (table_ids : list string) (count seed : Z)
    (cs : list Customer) :
  index_draws G -> unit_draws G ->
  create_customers table_ids count seed = Created cs ->
  length cs = Z.to_nat count
  /\ Forall drawn_profile cs
  /\ Forall created_profile cs.
Proof.
  intros Hidx Hu Hcreate. unfold create_customers in Hcreate.
  pose proof (draw_customers_profiles (Z.to_nat count) Hidx Hu (from_seed seed))
    as [Hlen Hall].
  destruct (distinct (table_ids ++ map id
              (fst (draw_customers (Z.to_nat count) (from_seed seed)))));
    [| discriminate].
  inversion Hcreate; subst cs. split; [exact Hlen |]. split; [exact Hall |].
  apply (Forall_impl _ (P := drawn_profile)); [| exact Hall].
  intros c Hc. unfold drawn_profile in Hc. unfold created_profile. tauto.
Qed.

(** A first run composes the two steps: on profiles that
    [create_customers] returned, every reading that the batch appends
    lies between 40 W and 25392 W. *)
Corollary first_run_bounds (table_ids : list string) (count seed : Z)
    (cs : list Customer) (conn : list Reading) (now : Clock.instant)
    (days : Z) (steps : nat) :
  index_draws G -> unit_draws G ->
  create_customers table_ids count seed = Created cs ->
  exists produced,
    GenerateRun.batch conn cs now days steps seed = (conn ++ produced)%list
    /\ length produced = (steps * Z.to_nat count)%nat
    /\ Forall (fun r => 40 <= watts r <= 25392 /\ 0.002 <= euros r <= 1.2696)
         produced.
Proof.
  intros Hidx Hu Hcreate. unfold create_customers in Hcreate.
  pose proof (draw_customers_profiles (Z.to_nat count) Hidx Hu (from_seed seed))
    as [Hlen Hall].
  destruct (distinct (table_ids ++ map id
              (fst (draw_customers (Z.to_nat count) (from_seed seed)))));
    [| discriminate].
  inversion Hcreate; subst cs. clear Hcreate.
  set (cs := fst (draw_customers (Z.to_nat count) (from_seed seed))) in *.
  unfold GenerateRun.batch, generate_steps.
  destruct (run_steps_bounds steps (GenerateRun.start_of_run conn now days) cs
              (latest_watts_by_customer conn) (from_seed seed) conn Hu)
    as [produced [Hrun Hbounds]].
  { apply (Forall_impl _ (P := drawn_profile)); [| exact Hall].
    intros c Hc. unfold drawn_profile in Hc. tauto. }
  exists produced. split; [exact Hrun |]. split; [| exact Hbounds].
  destruct (run_steps_rows steps (GenerateRun.start_of_run conn now days) cs
              (latest_watts_by_customer conn) (from_seed seed) conn)
    as [produced' [Hrun' [Hlen' _]]].
  rewrite Hrun in Hrun'. apply app_inv_head in Hrun'. subst produced'.
  rewrite Hlen', Hlen. reflexivity.
Qed.

End WithGenerator.

Lemma one_customer_created :
  exists cs, create_customers (G := nat) [] 1 42 = Created cs.
Proof.
  unfold create_customers. change (Z.to_nat 1) with 1%nat.
  cbn [draw_customers]. unfold and_then at 1.
  destruct (draw_customer (from_seed 42)) as [c g1].
  cbn [and_then ret draw_customers fst map app distinct existsb negb andb].
  eexists. reflexivity.
Qed.

Lemma create_customers_profiles_witness :
  exists cs,
    create_customers (G := nat) [] 1 42 = Created cs
    /\ length cs = Z.to_nat 1 /\ Forall drawn_profile cs
    /\ Forall created_profile cs.
Proof.
  destruct one_customer_created as [cs Hcs]. exists cs. split; [exact Hcs |].
  apply (create_customers_profiles (G := nat) [] 1 42 cs).
  - exact counter_index_draws.
  - exact counter_gen_unit_draws.
  - exact Hcs.
Defined.

Lemma first_run_bounds_witness :
  exists cs produced,
    create_customers (G := nat) [] 1 42 = Created cs
    /\ GenerateRun.batch (G := nat) [] cs 0%Z 14 2 42 = ([] ++ produced)%list
    /\ length produced = (2 * Z.to_nat 1)%nat
    /\ Forall (fun r => 40 <= watts r <= 25392 /\ 0.002 <= euros r <= 1.2696)
         produced.
Proof.
  destruct one_customer_created as [cs Hcs].
  destruct (first_run_bounds (G := nat) [] 1 42 cs [] 0%Z 14 2
              counter_index_draws counter_gen_unit_draws Hcs)
    as [produced Hrun].
  exists cs, produced. split; [exact Hcs | exact Hrun].
Defined.

End CreatedProfiles.
